(** * kafun-condition-navi: the risk engine of [app/page.tsx]

    A shallow embedding of the pure functions of the page component
    ([clamp], [riskLevel], [seasonalBase], [estimateRisk], [monthDistance],
    [seasonalFactor], [estimatePollenTypeScore], [adjustMapRiskScore]) and of
    the state transitions it performs on the symptom log ([submitLog],
    [trend], [pollenTypeStatus]); then of what the component derives from
    its state and from the answers of the weather service ([parseNumber],
    [loadRisk], [loadMapRisk], [mapAverageScore], [weeklyAverage],
    [completionRate], [toggleAction], [highAttentionPollen],
    [selectedLocation], [geoToPercent]).

    A TypeScript [number] is an IEEE-754 binary64 value.  It is embedded as
    Rocq's primitive [float], whose operations are the binary64 operations
    (round to nearest, ties to even), so [(t - 12) * 1.8] below is the
    very computation the page performs, rounding included.  Decimal literals
    such as [1.8] denote the nearest binary64 value, in Rocq as in
    JavaScript. *)

From Stdlib Require Import ZArith List Bool Lia String Floats.
From Stdlib Require Import Sorting.Sorted Sorting.Permutation.
Import ListNotations.

Set Warnings "-inexact-float".

Local Open Scope float_scope.

(** ** The JavaScript built-ins the page uses *)

Module JS.

(** [Math.max] and [Math.min] of two numbers: [NaN] if either argument is
    [NaN], and [+0] counts as larger than [-0]. *)
Definition Math_max (a b : float) : float :=
  if is_nan a || is_nan b then nan
  else if a <? b then b
  else if b <? a then a
  else if get_sign a then b else a.

Definition Math_min (a b : float) : float :=
  if is_nan a || is_nan b then nan
  else if a <? b then a
  else if b <? a then b
  else if get_sign a then a else b.

Definition Math_abs (a : float) : float := abs a.

(** The binary64 value of an integer (exact below [2^53]). *)
Definition Number_of_Z (n : Z) : float :=
  SF2Prim (binary_normalize prec emax n 0 false).

(** [Math.round x]: the integer nearest to [x], ties towards [+Infinity];
    [NaN], the infinities and integral values are returned unchanged, and a
    result of zero keeps the sign of [x].  For a finite [x = ±m * 2^e] with
    [e < 0] the integer is [floor (x + 1/2)], computed exactly. *)
Definition round_half_up (s : bool) (m : positive) (e : Z) : Z :=
  ((2 * cond_Zopp s (Zpos m) + 2 ^ (- e)) / 2 ^ (1 - e))%Z.

Definition Math_round (x : float) : float :=
  match Prim2SF x with
  | S754_finite s m e =>
      if (0 <=? e)%Z then x
      else
        let n := round_half_up s m e in
        if (n =? 0)%Z then (if s then neg_zero else zero) else Number_of_Z n
  | _ => x
  end.

(** [Number(x.toFixed(1))].  [toFixed(1)] picks the integer [n] for which
    [n / 10] is nearest to [|x|] (the larger one on a tie), prints it with
    one decimal and the sign of [x]; [Number] reads the decimal back as the
    nearest binary64 value.  Non-finite values print as themselves. *)
Definition tenths (m : positive) (e : Z) : Z :=
  (if 0 <=? e then 10 * Zpos m * 2 ^ e
   else (20 * Zpos m + 2 ^ (- e)) / 2 ^ (1 - e))%Z.

Definition Number_of_tenths (s : bool) (n : Z) : float :=
  if (n =? 0)%Z then (if s then neg_zero else zero)
  else
    let '(q, e, l) := SFdiv_core_binary prec emax n 0 10 0 in
    SF2Prim (binary_round_aux prec emax s q e l).

Definition Number_toFixed1 (x : float) : float :=
  match Prim2SF x with
  | S754_finite s m e => Number_of_tenths s (tenths m e)
  | S754_zero _ => zero
  | _ => x
  end.

(** [SameValueZero], the equality of [Array.prototype.includes]. *)
Definition SameValueZero (a b : float) : bool :=
  (a =? b) || (is_nan a && is_nan b).

Definition includes (l : list float) (x : float) : bool :=
  existsb (fun y => SameValueZero y x) l.

(** [Array.prototype.sort] with a comparator.  ECMAScript specifies it as a
    stable sort: [a] is placed before [b] when [cmp a b < 0], and elements
    the comparator does not separate keep their order.  Modelled by stable
    insertion: an element passes over exactly those sorted elements that
    the comparator puts strictly before it. *)
Section Sort.
Context {A : Type} (cmp : A -> A -> float).

Fixpoint sort_insert (x : A) (l : list A) : list A :=
  match l with
  | [] => [x]
  | y :: l' => if cmp y x <? 0 then y :: sort_insert x l' else x :: l
  end.

Fixpoint sort (l : list A) : list A :=
  match l with
  | [] => []
  | x :: l' => sort_insert x (sort l')
  end.

End Sort.

(** [Array.prototype.slice (start, stop)] for in-range non-negative indices. *)
Definition slice {A : Type} (l : list A) (start stop : nat) : list A :=
  firstn (stop - start) (skipn start l).

End JS.

Import JS.

(** ** Data model *)

(** The four levels ["低い"], ["やや高い"], ["高い"], ["非常に高い"]. *)
Inductive RiskLevel : Set := Low | SlightlyHigh | High | VeryHigh.

Record WeatherSnapshot : Set := {
  temperature : float;
  humidity : float;
  wind : float;
  precipitation : float;
  pm10 : float;
  pm25 : float
}.

Record RiskResult : Set := {
  score : float;
  level : RiskLevel;
  advice : string
}.

(** A [Date] is used only through [getMonth ()], a number in [0..11] (or
    [NaN] for an invalid date). *)
Record Date : Set := { getMonth : float }.

(** The argument object of [estimateRisk]: [in_x] is its field [x]. *)
Record RiskInput : Set := {
  in_date : Date;
  in_temperature : float;
  in_humidity : float;
  in_wind : float;
  in_precipitation : float;
  in_pm10 : float;
  in_pm25 : float
}.

Record SymptomLog : Set := {
  date : string;
  severity : float;
  tookMedicine : bool;
  memo : string
}.

Inductive PollenTypeId : Set := cedar | cypress | grass | ragweed | birch.

Record PollenType : Set := {
  id : PollenTypeId;
  seasonMonths : list float;
  peakMonths : list float
}.

(** [PollenType & { score; level }]: the taxon with its status. *)
Record PollenTypeStatus : Set := {
  ptype : PollenType;
  pscore : float;
  plevel : RiskLevel
}.

(** The catalog, in declaration order (names and texts omitted). *)
Definition pollenCatalog : list PollenType :=
  [ {| id := cedar;   seasonMonths := [2; 3; 4];       peakMonths := [2; 3] |};
    {| id := cypress; seasonMonths := [3; 4; 5];       peakMonths := [4] |};
    {| id := grass;   seasonMonths := [4; 5; 6; 7; 8]; peakMonths := [5; 6] |};
    {| id := ragweed; seasonMonths := [8; 9; 10];      peakMonths := [9] |};
    {| id := birch;   seasonMonths := [4; 5; 6];       peakMonths := [5] |} ].

(** ** The engine *)

Definition clamp (value min max : float) : float :=
  Math_min max (Math_max min value).

Definition riskLevel (score : float) : RiskLevel :=
  if 75 <=? score then VeryHigh
  else if 55 <=? score then High
  else if 35 <=? score then SlightlyHigh
  else Low.

Definition riskAdvice (level : RiskLevel) : string :=
  match level with
  | VeryHigh => "外出は短時間にし、マスク・メガネ・上着の花粉対策を徹底してください。"
  | High => "長時間の外出後は衣類をはらい、洗顔・うがいを早めに行いましょう。"
  | SlightlyHigh => "油断せず、窓開け時間を短くして室内の花粉侵入を抑えると安心です。"
  | Low => "比較的穏やかですが、症状が出やすい方は予防薬を継続してください。"
  end.

Definition seasonalBase (month : float) : float :=
  if (2 <=? month) && (month <=? 4) then 48
  else if month =? 5 then 36
  else if (6 <=? month) && (month <=? 9) then 16
  else 10.

(** The sum of the base and the five clamped contributions. *)
Definition weatherTotal (input : RiskInput) : float :=
  let month := getMonth (in_date input) + 1 in
  let score := seasonalBase month in
  let score := score + clamp ((in_temperature input - 12) * 1.8) (-6) 22 in
  let score := score + clamp ((in_wind input - 2) * 2.9) 0 20 in
  let score := score + clamp ((48 - in_humidity input) * 0.6) 0 15 in
  let score := score + clamp ((in_pm25 input - 15) * 0.4) 0 9 in
  let score := score + clamp ((in_pm10 input - 30) * 0.25) 0 8 in
  score.

(** The running total: [score] as it stands before the final clamp. *)
Definition runningTotal (input : RiskInput) : float :=
  let score := weatherTotal input in
  let score := if 0 <? in_precipitation input then score - 16 else score in
  let score := if 70 <=? in_humidity input then score - 6 else score in
  score.

Definition estimateRisk (input : RiskInput) : RiskResult :=
  let normalized := Math_round (clamp (runningTotal input) 0 100) in
  let level := riskLevel normalized in
  {| score := normalized; level := level; advice := riskAdvice level |}.

Definition monthDistance (a b : float) : float :=
  let distance := Math_abs (a - b) in
  Math_min distance (12 - distance).

Definition seasonalFactor (currentMonth : float) (seasonMonths : list float) : float :=
  if includes seasonMonths currentMonth then 1
  else if existsb (fun month => monthDistance month currentMonth =? 1) seasonMonths
  then 0.44
  else if existsb (fun month => monthDistance month currentMonth =? 2) seasonMonths
  then 0.2
  else 0.

Definition estimatePollenTypeScore (type : PollenType) (currentMonth : float)
    (weather : option WeatherSnapshot) (overallRiskScore : float) : float :=
  let season := seasonalFactor currentMonth (seasonMonths type) in
  let windBoost :=
    match weather with Some w => clamp ((wind w - 2) * 6) 0 18 | None => 6 end in
  let dryBoost :=
    match weather with Some w => clamp ((50 - humidity w) * 0.35) 0 12 | None => 4 end in
  let rainPenalty :=
    match weather with
    | Some w => if 0 <? precipitation w then 12 else 0
    | None => 0
    end in
  Math_round
    (clamp (season * 72 + overallRiskScore * 0.22 + windBoost + dryBoost - rainPenalty)
       0 100).

Definition monthScale (month : float) : float :=
  if (2 <=? month) && (month <=? 4) then 1
  else if month =? 5 then 0.78
  else if (8 <=? month) && (month <=? 10) then 0.55
  else 0.35.

Definition effectiveSuitability (suitability month : float) : float :=
  clamp (suitability * monthScale month) 0.15 1.

Definition baseline : float := 14.

(** The blend of [adjustMapRiskScore] before clamping and rounding. *)
Definition blend (rawScore suitability month : float) : float :=
  let e := effectiveSuitability suitability month in
  rawScore * e + baseline * (1 - e).

Definition adjustMapRiskScore (rawScore suitability month : float) : float :=
  Math_round (clamp (blend rawScore suitability month) 0 100).

(** ** The component state: symptom log, trend, pollen-type list *)

Definition sum_severity (l : list SymptomLog) : float :=
  fold_left (fun sum item => sum + severity item) l 0.

(** [trend]: [None] is [null]. *)
Definition trend (logs : list SymptomLog) : option float :=
  if (List.length logs <? 6)%nat then None
  else
    let latest := slice logs 0 3 in
    let previous := slice logs 3 6 in
    let latestAvg := sum_severity latest / 3 in
    let previousAvg := sum_severity previous / 3 in
    Some (Number_toFixed1 (latestAvg - previousAvg)).

(** [submitLog]: the update applied to [logs].  [today] is
    [toJstDateString (new Date ())] and [memo] the already trimmed text. *)
Definition submitLog (today : string) (symptomSeverity : float)
    (tookMedicine : bool) (memo : string) (prev : list SymptomLog)
    : list SymptomLog :=
  let item := {| date := today; severity := symptomSeverity;
                 tookMedicine := tookMedicine; memo := memo |} in
  let filtered := filter (fun entry => negb (String.eqb (date entry) today)) prev in
  slice (item :: filtered) 0 30.

(** The object built for one taxon by the [map] callback of
    [pollenTypeStatus]. *)
Definition typeStatus (month : float) (weather : option WeatherSnapshot)
    (overall : float) (type : PollenType) : PollenTypeStatus :=
  let score := estimatePollenTypeScore type month weather overall in
  {| ptype := type; pscore := score; plevel := riskLevel score |}.

Definition pollenTypeStatus (now : Date) (todayRisk : option RiskResult)
    (weather : option WeatherSnapshot) : list PollenTypeStatus :=
  let month := getMonth now + 1 in
  let overall := match todayRisk with Some r => score r | None => 40 end in
  sort (fun a b => pscore b - pscore a)
    (map (typeStatus month weather overall) pollenCatalog).

(** ** Reading the answers of the weather service *)

(** [array.length] and an index, as numbers. *)
Definition Number_of_nat (n : nat) : float := Number_of_Z (Z.of_nat n).

(** [parseNumber (value, fallback)].  [num] is [Number (value)], the number
    the argument converts to: [NaN] for [undefined] (a field the answer
    lacks, an array read past its end) and for text that is no number. *)
Definition parseNumber (num fallback : float) : float :=
  if is_finite num then num else fallback.

(** The object [current] of the forecast answer and of the air-quality
    answer, each field as [Number] reads it ([NaN] when it is absent, so
    the record of four [NaN]s stands for an answer without [current]). *)
Record CurrentWeather : Set := {
  temperature_2m : float;
  relative_humidity_2m : float;
  wind_speed_10m : float;
  current_precipitation : float
}.

Record CurrentAir : Set := {
  current_pm10 : float;
  current_pm2_5 : float
}.

(** A value that should be an array: absent or [null], an array, or any
    other value. *)
Inductive JsArray (A : Set) : Set :=
| Nullish
| Array (items : list A)
| NotArray.
Arguments Nullish {A}.
Arguments Array {A} items.
Arguments NotArray {A}.

(** The object [daily] of the forecast answer.  [daily.time] holds day
    strings.  The three arrays of numbers are read by index only, each
    entry through [Number], so each is the list of its entries as [Number]
    reads them (empty when the array is absent).  An answer without
    [daily] is the record of [Nullish] and three empty lists. *)
Record DailyForecast : Set := {
  daily_time : JsArray string;
  temperature_2m_max : list float;
  wind_speed_10m_max : list float;
  precipitation_probability_max : list float
}.

Record WeatherData : Set := {
  data_current : CurrentWeather;
  data_daily : DailyForecast
}.

(** The value [await res.json ()] resolves to: [null], or a value that is
    read through its fields ([data], with [NaN] for a field it lacks). *)
Inductive Json (A : Set) : Set :=
| JsonNull
| JsonValue (data : A).
Arguments JsonNull {A}.
Arguments JsonValue {A} data.

(** A response: its flag [ok], and what [res.json ()] settles to ([None]
    when it rejects, the body being no JSON).  A promise is given by what
    it settles to, [None] for a rejection. *)
Record Response (A : Set) : Set := {
  res_ok : bool;
  res_json : option (Json A)
}.
Arguments res_ok {A} _.
Arguments res_json {A} _.

(** [Promise.all] of two promises: rejected when one of them is. *)
Definition Promise_all {A B : Type} (first : option A) (second : option B)
    : option (A * B) :=
  match first, second with
  | Some a, Some b => Some (a, b)
  | _, _ => None
  end.

Record ForecastDay : Set := {
  fdate : string;
  fscore : float;
  flevel : RiskLevel
}.

(** The state [loadRisk] writes ([null] is [None]). *)
Record RiskState : Set := {
  st_weather : option WeatherSnapshot;
  st_todayRisk : option RiskResult;
  st_forecast : list ForecastDay;
  st_isLoading : bool;
  st_error : option string
}.

(** Statements run on the state: a run completes with a value or throws,
    and leaves the state its setters have written. *)
Inductive Completion (A : Type) : Type :=
| Normal (value : A)
| Thrown.
Arguments Normal {A} value.
Arguments Thrown {A}.

Definition Run (A : Type) : Type := RiskState -> Completion A * RiskState.

Definition ret {A : Type} (value : A) : Run A := fun st => (Normal value, st).

Definition throw {A : Type} : Run A := fun st => (Thrown, st).

Definition bind {A B : Type} (m : Run A) (f : A -> Run B) : Run B :=
  fun st =>
    match m st with
    | (Normal value, st') => f value st'
    | (Thrown, st') => (Thrown, st')
    end.

Declare Scope run_scope.
Delimit Scope run_scope with run.
Notation "x <- m ;; k" := (bind m (fun x => k))
  (at level 61, m at next level, right associativity) : run_scope.
Notation "m ;; k" := (bind m (fun _ => k))
  (at level 61, right associativity) : run_scope.

(** [try { body } catch { handler } finally { finalizer }]. *)
Definition try_catch_finally (body handler finalizer : Run unit) : Run unit :=
  fun st =>
    match body st with
    | (Normal _, st') => finalizer st'
    | (Thrown, st') => bind handler (fun _ => finalizer) st'
    end.

(** [await promise]: the value, or the rejection thrown. *)
Definition await {A : Type} (promise : option A) : Run A :=
  match promise with
  | Some value => ret value
  | None => throw
  end.

(** Reading a property of [value]: a [TypeError] on [null]. *)
Definition properties {A : Set} (value : Json A) : Run A :=
  match value with
  | JsonValue data => ret data
  | JsonNull => throw
  end.

(** [value ?? []]. *)
Definition or_empty {A : Set} (value : JsArray A) : JsArray A :=
  match value with
  | Nullish => Array []
  | _ => value
  end.

(** [array[index]] read as a number: [undefined] past the end. *)
Definition at_index (array : list float) (index : nat) : float :=
  nth index array nan.

(** [array.map ((item, index) => ...)]. *)
Fixpoint map_index {A B : Type} (f : A -> nat -> B) (index : nat) (l : list A) : list B :=
  match l with
  | [] => []
  | item :: l' => f item index :: map_index f (S index) l'
  end.

(** [times.map (callback)]: a value that is no array has no [map]. *)
Definition Array_map {A : Set} {B : Type} (times : JsArray A) (callback : A -> nat -> B)
    : Run (list B) :=
  match times with
  | Array items => ret (map_index callback 0 items)
  | _ => throw
  end.

Definition setWeather (snapshot : WeatherSnapshot) : Run unit :=
  fun st =>
    (Normal tt,
     {| st_weather := Some snapshot; st_todayRisk := st_todayRisk st;
        st_forecast := st_forecast st; st_isLoading := st_isLoading st;
        st_error := st_error st |}).

Definition setTodayRisk (risk : RiskResult) : Run unit :=
  fun st =>
    (Normal tt,
     {| st_weather := st_weather st; st_todayRisk := Some risk;
        st_forecast := st_forecast st; st_isLoading := st_isLoading st;
        st_error := st_error st |}).

Definition setForecast (forecastData : list ForecastDay) : Run unit :=
  fun st =>
    (Normal tt,
     {| st_weather := st_weather st; st_todayRisk := st_todayRisk st;
        st_forecast := forecastData; st_isLoading := st_isLoading st;
        st_error := st_error st |}).

Definition setIsLoading (loading : bool) : Run unit :=
  fun st =>
    (Normal tt,
     {| st_weather := st_weather st; st_todayRisk := st_todayRisk st;
        st_forecast := st_forecast st; st_isLoading := loading;
        st_error := st_error st |}).

Definition setError (message : option string) : Run unit :=
  fun st =>
    (Normal tt,
     {| st_weather := st_weather st; st_todayRisk := st_todayRisk st;
        st_forecast := st_forecast st; st_isLoading := st_isLoading st;
        st_error := message |}).

(** The object [snapshot] that [loadRisk] builds from the two answers. *)
Definition loadRisk_snapshot (current : CurrentWeather) (air : CurrentAir)
    : WeatherSnapshot :=
  {| temperature := parseNumber (temperature_2m current) 12;
     humidity := parseNumber (relative_humidity_2m current) 50;
     wind := parseNumber (wind_speed_10m current) 2;
     precipitation := parseNumber (current_precipitation current) 0;
     pm10 := parseNumber (current_pm10 air) 20;
     pm25 := parseNumber (current_pm2_5 air) 10 |}.

(** The argument of [setTodayRisk]; [now] is [new Date ()]. *)
Definition loadRisk_todayRisk (now : Date) (snapshot : WeatherSnapshot) : RiskResult :=
  estimateRisk
    {| in_date := now;
       in_temperature := temperature snapshot;
       in_humidity := humidity snapshot;
       in_wind := wind snapshot;
       in_precipitation := precipitation snapshot;
       in_pm10 := pm10 snapshot;
       in_pm25 := pm25 snapshot |}.

(** The callback of [times.map]; [newDate] is the constructor
    [new Date (date)] on the day strings of the answer. *)
Definition loadRisk_forecastDay (newDate : string -> Date) (snapshot : WeatherSnapshot)
    (daily : DailyForecast) (date : string) (index : nat) : ForecastDay :=
  let maxTemps := temperature_2m_max daily in
  let maxWinds := wind_speed_10m_max daily in
  let precipProb := precipitation_probability_max daily in
  let result :=
    estimateRisk
      {| in_date := newDate date;
         in_temperature := parseNumber (at_index maxTemps index) (temperature snapshot);
         in_humidity := humidity snapshot;
         in_wind := parseNumber (at_index maxWinds index) (wind snapshot);
         in_precipitation :=
           if 40 <=? parseNumber (at_index precipProb index) 0 then 1 else 0;
         in_pm10 := pm10 snapshot;
         in_pm25 := pm25 snapshot |} in
  {| fdate := date; fscore := score result; flevel := level result |}.

(** The message of the [catch] branch. *)
Definition loadRisk_failure : string :=
  "気象データの取得に失敗しました。少し時間をおいて再試行してください。".

(** One run of [loadRisk], from the state it starts in to the state it
    leaves.  [weatherFetch] and [airFetch] are what the two [fetch]
    promises settle to. *)
Definition loadRisk (now : Date) (newDate : string -> Date)
    (weatherFetch : option (Response WeatherData))
    (airFetch : option (Response CurrentAir)) (st : RiskState) : RiskState :=
  snd
    ((setIsLoading true ;;
      setError None ;;
      try_catch_finally
        (responses <- await (Promise_all weatherFetch airFetch) ;;
         let weatherRes := fst responses in
         let airRes := snd responses in
         (if negb (res_ok weatherRes) || negb (res_ok airRes) then throw else ret tt) ;;
         weatherData <- await (res_json weatherRes) ;;
         airData <- await (res_json airRes) ;;
         weather <- properties weatherData ;;
         air <- properties airData ;;
         let snapshot := loadRisk_snapshot (data_current weather) air in
         setWeather snapshot ;;
         setTodayRisk (loadRisk_todayRisk now snapshot) ;;
         let times := or_empty (daily_time (data_daily weather)) in
         forecastData <-
           Array_map times (loadRisk_forecastDay newDate snapshot (data_daily weather)) ;;
         setForecast forecastData)
        (setError (Some loadRisk_failure))
        (setIsLoading false))%run st).

(** ** The location selector *)

Record LocationOption : Set := {
  loc_id : string;
  loc_name : string;
  loc_lat : float;
  loc_lon : float
}.

Definition defaultLocations : list LocationOption :=
  [ {| loc_id := "tokyo";   loc_name := "東京";   loc_lat := 35.6764; loc_lon := 139.65 |};
    {| loc_id := "osaka";   loc_name := "大阪";   loc_lat := 34.6937; loc_lon := 135.5023 |};
    {| loc_id := "nagoya";  loc_name := "名古屋"; loc_lat := 35.1815; loc_lon := 136.9066 |};
    {| loc_id := "sapporo"; loc_name := "札幌";   loc_lat := 43.0618; loc_lon := 141.3545 |};
    {| loc_id := "fukuoka"; loc_name := "福岡";   loc_lat := 33.5902; loc_lon := 130.4017 |} ].

(** The location built from a position fix. *)
Definition gpsLocation (lat lon : float) : LocationOption :=
  {| loc_id := "current-location"; loc_name := "現在地"; loc_lat := lat; loc_lon := lon |}.

Definition options (customLocation : option LocationOption) : list LocationOption :=
  match customLocation with
  | Some custom => custom :: defaultLocations
  | None => defaultLocations
  end.

(** [options.find (...) ?? options[0]]; [None] is [undefined]. *)
Definition selectedLocation (customLocation : option LocationOption)
    (selectedId : string) : option LocationOption :=
  match find (fun item => String.eqb (loc_id item) selectedId) (options customLocation) with
  | Some item => Some item
  | None => nth_error (options customLocation) 0
  end.

(** ** The daily checklist *)

Inductive DailyActionKey : Set := mask | glasses | laundryInside | shower | roomClean.

Definition DailyActionKey_eqb (a b : DailyActionKey) : bool :=
  match a, b with
  | mask, mask | glasses, glasses | laundryInside, laundryInside
  | shower, shower | roomClean, roomClean => true
  | _, _ => false
  end.

(** The keys of [actionItems] (labels omitted). *)
Definition actionItems : list DailyActionKey :=
  [mask; glasses; laundryInside; shower; roomClean].

(** A [Record<DailyActionKey, boolean>]: the value under each key. *)
Definition ActionState : Set := DailyActionKey -> bool.

Definition defaultActionState : ActionState := fun _ => false.

(** [Object.values (actions)], in the key order of [defaultActionState]. *)
Definition Object_values (actions : ActionState) : list bool :=
  map actions [mask; glasses; laundryInside; shower; roomClean].

Definition completionRate (actions : ActionState) : float :=
  let done := List.length (filter (fun value => value) (Object_values actions)) in
  Math_round ((Number_of_nat done / Number_of_nat (List.length actionItems)) * 100).

(** [toggleAction]: the update [{ ...prev, [key]: !prev[key] }]. *)
Definition toggleAction (key : DailyActionKey) (prev : ActionState) : ActionState :=
  fun k => if DailyActionKey_eqb k key then negb (prev key) else prev k.

(** ** The symptom summary *)

(** [weeklyAverage]: [None] is [null]. *)
Definition weeklyAverage (logs : list SymptomLog) : option float :=
  if (List.length logs =? 0)%nat then None
  else
    let list := slice logs 0 7 in
    let avg := sum_severity list / Number_of_nat (List.length list) in
    Some (Number_toFixed1 avg).

(** The three texts of the line "3日比較": ["--"], ["+d（悪化傾向）"] and
    ["d（改善傾向）"]. *)
Inductive TrendText : Set := NoTrend | Worsening | Improving.

Definition trendText (trend : option float) : TrendText :=
  match trend with
  | None => NoTrend
  | Some delta => if 0 <? delta then Worsening else Improving
  end.

(** ** Pollen types to watch *)

(** The column [name] of [pollenCatalog]. *)
Definition name (type : PollenType) : string :=
  match id type with
  | cedar => "スギ"
  | cypress => "ヒノキ"
  | grass => "イネ科"
  | ragweed => "ブタクサ"
  | birch => "シラカンバ"
  end.

(** [list.join (separator)]. *)
Fixpoint join (separator : string) (list : list string) : string :=
  match list with
  | [] => EmptyString
  | [item] => item
  | item :: rest => String.append item (String.append separator (join separator rest))
  end.

(** The entries [highAttentionPollen] names, before [map] and [join]. *)
Definition highAttention (status : list PollenTypeStatus) : list PollenTypeStatus :=
  slice (filter (fun item => 35 <=? pscore item) status) 0 2.

Definition highAttentionPollen (status : list PollenTypeStatus) : string :=
  let list := map (fun item => name (ptype item)) (highAttention status) in
  if (0 <? List.length list)%nat then join "・" list
  else "現時点では目立つ種類は少なめ".

(** ** The national map *)

Record MapCity : Set := {
  city_id : string;
  city_name : string;
  city_lat : float;
  city_lon : float;
  region : string;
  pollenSuitability : float
}.

Definition mapCities : list MapCity :=
  [ {| city_id := "sapporo"; city_name := "札幌"; city_lat := 43.0618;
       city_lon := 141.3545; region := "北海道"; pollenSuitability := 0.64 |};
    {| city_id := "sendai"; city_name := "仙台"; city_lat := 38.2682;
       city_lon := 140.8694; region := "東北"; pollenSuitability := 0.95 |};
    {| city_id := "tokyo"; city_name := "東京"; city_lat := 35.6764;
       city_lon := 139.65; region := "関東"; pollenSuitability := 1 |};
    {| city_id := "niigata"; city_name := "新潟"; city_lat := 37.9161;
       city_lon := 139.0364; region := "甲信越"; pollenSuitability := 0.9 |};
    {| city_id := "nagoya"; city_name := "名古屋"; city_lat := 35.1815;
       city_lon := 136.9066; region := "中部"; pollenSuitability := 0.93 |};
    {| city_id := "osaka"; city_name := "大阪"; city_lat := 34.6937;
       city_lon := 135.5023; region := "関西"; pollenSuitability := 0.88 |};
    {| city_id := "hiroshima"; city_name := "広島"; city_lat := 34.3853;
       city_lon := 132.4553; region := "中国"; pollenSuitability := 0.84 |};
    {| city_id := "kochi"; city_name := "高知"; city_lat := 33.5597;
       city_lon := 133.5311; region := "四国"; pollenSuitability := 0.82 |};
    {| city_id := "fukuoka"; city_name := "福岡"; city_lat := 33.5902;
       city_lon := 130.4017; region := "九州"; pollenSuitability := 0.78 |};
    {| city_id := "kagoshima"; city_name := "鹿児島"; city_lat := 31.5966;
       city_lon := 130.5571; region := "南九州"; pollenSuitability := 0.66 |};
    {| city_id := "naha"; city_name := "那覇"; city_lat := 26.2125;
       city_lon := 127.6811; region := "沖縄"; pollenSuitability := 0.22 |} ].

(** [MapCity & { score; level; temperature; humidity; wind; precipitation }]. *)
Record CityRiskPoint : Set := {
  city : MapCity;
  city_score : float;
  city_level : RiskLevel;
  city_temperature : float;
  city_humidity : float;
  city_wind : float;
  city_precipitation : float
}.

(** A fulfilled request for one city: the answer, and the two readings of
    [new Date ()] its callback makes. *)
Record CityAnswer : Set := {
  answer_current : CurrentWeather;
  answer_date : Date;
  answer_month : Date
}.

(** The callback of [mapCities.map] in [loadMapRisk], after the answer
    has arrived. *)
Definition cityRiskPoint (city : MapCity) (answer : CityAnswer) : CityRiskPoint :=
  let current := answer_current answer in
  let temperature := parseNumber (temperature_2m current) 12 in
  let humidity := parseNumber (relative_humidity_2m current) 50 in
  let wind := parseNumber (wind_speed_10m current) 2 in
  let precipitation := parseNumber (current_precipitation current) 0 in
  let risk :=
    estimateRisk
      {| in_date := answer_date answer;
         in_temperature := temperature;
         in_humidity := humidity;
         in_wind := wind;
         in_precipitation := precipitation;
         in_pm10 := 24;
         in_pm25 := 13 |} in
  let adjustedScore :=
    adjustMapRiskScore (score risk) (pollenSuitability city)
      (getMonth (answer_month answer) + 1) in
  let level := riskLevel adjustedScore in
  {| city := city;
     city_score := adjustedScore;
     city_level := level;
     city_temperature := temperature;
     city_humidity := humidity;
     city_wind := wind;
     city_precipitation := precipitation |}.

(** [Promise.allSettled]: for each city the point, or [None] for a
    rejected request ([outcome city = None]: the request failed, was not
    [ok], or its body was no JSON). *)
Definition settled (outcome : MapCity -> option CityAnswer) : list (option CityRiskPoint) :=
  map (fun city => option_map (cityRiskPoint city) (outcome city)) mapCities.

(** The values of the fulfilled results, in order. *)
Fixpoint fulfilled {A : Type} (results : list (option A)) : list A :=
  match results with
  | [] => []
  | Some value :: rest => value :: fulfilled rest
  | None :: rest => fulfilled rest
  end.

Definition succeeded (outcome : MapCity -> option CityAnswer) : list CityRiskPoint :=
  sort (fun a b => city_score b - city_score a) (fulfilled (settled outcome)).

(** The map part of the component state ([null] is [None]). *)
Record MapState : Set := {
  mapRisks : list CityRiskPoint;
  mapError : option string;
  activeMapCityId : option string
}.

(** [loadMapRisk]: the state after the requests have settled. *)
Definition loadMapRisk (outcome : MapCity -> option CityAnswer) (st : MapState) : MapState :=
  let succeeded := succeeded outcome in
  match succeeded with
  | [] =>
      {| mapRisks := mapRisks st;
         mapError :=
           Some "花粉マップの取得に失敗しました。少し時間をおいて再試行してください。"%string;
         activeMapCityId := activeMapCityId st |}
  | first :: _ =>
      {| mapRisks := succeeded;
         mapError :=
           if (List.length succeeded <? List.length mapCities)%nat
           then Some "一部地域の取得に失敗しました。表示できた地域のみ反映しています。"%string
           else None;
         activeMapCityId :=
           Some (match activeMapCityId st with
                 | Some prev =>
                     if negb (String.eqb prev EmptyString)
                        && existsb (fun c => String.eqb (city_id (city c)) prev) succeeded
                     then prev
                     else city_id (city first)
                 | None => city_id (city first)
                 end) |}
  end.

Definition activeMapCity (st : MapState) : option CityRiskPoint :=
  match activeMapCityId st with
  | None => None
  | Some activeId =>
      if String.eqb activeId EmptyString then None
      else find (fun c => String.eqb (city_id (city c)) activeId) (mapRisks st)
  end.

Definition mapAverageScore (mapRisks : list CityRiskPoint) : option float :=
  if (List.length mapRisks =? 0)%nat then None
  else
    let total := fold_left (fun sum c => sum + city_score c) mapRisks 0 in
    Some (Math_round (total / Number_of_nat (List.length mapRisks))).

Definition mapHighestCity (mapRisks : list CityRiskPoint) : option CityRiskPoint :=
  nth_error mapRisks 0.

(** ** Map coordinates *)

Record MapBounds : Set := {
  latMin : float;
  latMax : float;
  lonMin : float;
  lonMax : float
}.

Definition mapBounds : MapBounds :=
  {| latMin := 24; latMax := 46; lonMin := 127; lonMax := 146 |}.

(** The object [{ x, y }]. *)
Record Percent : Set := { percent_x : float; percent_y : float }.

Definition geoToPercent (lat lon : float) : Percent :=
  let x := ((lon - lonMin mapBounds) / (lonMax mapBounds - lonMin mapBounds)) * 100 in
  let y := ((latMax mapBounds - lat) / (latMax mapBounds - latMin mapBounds)) * 100 in
  {| percent_x := clamp x 0 100; percent_y := clamp y 0 100 |}.

(** ** Inputs used in statements and examples *)

(** A valid request: every reading is a finite number. *)
Definition finite_input (input : RiskInput) : Prop :=
  is_finite (in_temperature input) = true /\
  is_finite (in_humidity input) = true /\
  is_finite (in_wind input) = true /\
  is_finite (in_precipitation input) = true /\
  is_finite (in_pm10 input) = true /\
  is_finite (in_pm25 input) = true.

Definition finite_snapshot (w : WeatherSnapshot) : Prop :=
  is_finite (temperature w) = true /\ is_finite (humidity w) = true /\
  is_finite (wind w) = true /\ is_finite (precipitation w) = true /\
  is_finite (pm10 w) = true /\ is_finite (pm25 w) = true.

Definition finite_weather (weather : option WeatherSnapshot) : Prop :=
  match weather with Some w => finite_snapshot w | None => True end.

Definition finite_risk (todayRisk : option RiskResult) : Prop :=
  match todayRisk with Some r => is_finite (score r) = true | None => True end.

(** The same request with one reading replaced. *)
Definition with_wind (input : RiskInput) (w : float) : RiskInput :=
  {| in_date := in_date input; in_temperature := in_temperature input;
     in_humidity := in_humidity input; in_wind := w;
     in_precipitation := in_precipitation input;
     in_pm10 := in_pm10 input; in_pm25 := in_pm25 input |}.

Definition with_humidity (input : RiskInput) (h : float) : RiskInput :=
  {| in_date := in_date input; in_temperature := in_temperature input;
     in_humidity := h; in_wind := in_wind input;
     in_precipitation := in_precipitation input;
     in_pm10 := in_pm10 input; in_pm25 := in_pm25 input |}.

Definition with_precipitation (input : RiskInput) (p : float) : RiskInput :=
  {| in_date := in_date input; in_temperature := in_temperature input;
     in_humidity := in_humidity input; in_wind := in_wind input;
     in_precipitation := p;
     in_pm10 := in_pm10 input; in_pm25 := in_pm25 input |}.

(** March ([getMonth () = 2]) and the snapshot of the two worked examples. *)
Definition march : Date := {| getMonth := 2 |}.

Definition example_input (precip : float) : RiskInput :=
  {| in_date := march; in_temperature := 20; in_humidity := 40; in_wind := 5;
     in_precipitation := precip; in_pm10 := 30; in_pm25 := 15 |}.

(** A cold, calm January day. *)
Definition january_input (precip : float) : RiskInput :=
  {| in_date := {| getMonth := 0 |}; in_temperature := 5; in_humidity := 60;
     in_wind := 2.5; in_precipitation := precip; in_pm10 := 20; in_pm25 := 10 |}.

(** The fallback snapshot of [loadRisk]. *)
Definition calm_day : WeatherSnapshot :=
  {| temperature := 12; humidity := 50; wind := 2; precipitation := 0;
     pm10 := 20; pm25 := 10 |}.

(** The level thresholds, on an integer score. *)
Definition levelOf (n : Z) : RiskLevel :=
  if (75 <=? n)%Z then VeryHigh
  else if (55 <=? n)%Z then High
  else if (35 <=? n)%Z then SlightlyHigh
  else Low.

Definition RiskLevel_eqb (a b : RiskLevel) : bool :=
  match a, b with
  | Low, Low | SlightlyHigh, SlightlyHigh | High, High | VeryHigh, VeryHigh => true
  | _, _ => false
  end.

(** ** The log as a state machine *)

(** Submitting the form whose state is the fields of [item], on the day
    [date item]. *)
Definition submitEntry (prev : list SymptomLog) (item : SymptomLog) : list SymptomLog :=
  submitLog (date item) (severity item) (tookMedicine item) (memo item) prev.

(** A run of submissions, oldest first. *)
Definition submitAll (items prev : list SymptomLog) : list SymptomLog :=
  fold_left submitEntry items prev.

(** The predicate of the [filter] in [submitLog]. *)
Definition other_date (today : string) (entry : SymptomLog) : bool :=
  negb (String.eqb (date entry) today).

Fixpoint distinct (l : list string) : bool :=
  match l with
  | [] => true
  | x :: l' => negb (existsb (String.eqb x) l') && distinct l'
  end.

(** The entry of the n-th day of March 2026, severity 4. *)
Definition march_entry (n : nat) : SymptomLog :=
  {| date := String.append "2026-03-"
               (String (Ascii.ascii_of_nat (48 + n / 10))
                  (String (Ascii.ascii_of_nat (48 + n mod 10)) EmptyString));
     severity := 4; tookMedicine := false; memo := EmptyString |}.

Definition march_entries : list SymptomLog := map march_entry (seq 1 31).

(** An entry of severity [s]. *)
Definition sev (s : float) : SymptomLog :=
  {| date := EmptyString; severity := s; tookMedicine := false; memo := EmptyString |}.

(** Three days of severity 5, 4 and 4 after three days of severity 3. *)
Definition worse_week : list SymptomLog := map sev [5; 4; 4; 3; 3; 3].

Local Open Scope Z_scope.

(** ** Exact values of binary64 numbers

    Every finite binary64 number is a whole multiple of [2^-1074], and the
    exact product of two of them a whole multiple of [2^-2148].  The value
    of a number is therefore kept as an integer count of units of
    [2^-2148]: [scaled x = x * 2^2148].  The infinities count as
    [+-2^3172], one binade above the largest finite number. *)

Definition bias : Z := 2148.

Definition huge : Z := 2 ^ 3172.

Definition SFval (x : spec_float) : Z :=
  match x with
  | S754_finite s m e => cond_Zopp s (Zpos m * 2 ^ (e + bias))
  | S754_infinity s => cond_Zopp s huge
  | _ => 0
  end.

Definition scaled (x : float) : Z := SFval (Prim2SF x).

Definition is_nan_SF (x : spec_float) : bool :=
  match x with S754_nan => true | _ => false end.

Definition finite_SF (x : spec_float) : bool :=
  match x with S754_zero _ | S754_finite _ _ _ => true | _ => false end.

(** [fle x y]: neither is [NaN] and [x <= y]. *)
Definition fle (x y : float) : Prop :=
  is_nan x = false /\ is_nan y = false /\ scaled x <= scaled y.

(** A number that is not [NaN] is finite or an infinity. *)
Inductive shape (x : float) : Prop :=
| shape_fin : is_finite x = true -> shape x
| shape_inf : forall s, Prim2SF x = S754_infinity s -> shape x.

(** Rounding to nearest, ties to even, of a positive count [n] of units:
    [cexp n] is the exponent of the last place kept (53 significant bits,
    never below the subnormal grid [2^1074] units), [rne n c] the nearest
    multiple of [2^c], as a count of such multiples. *)
Definition cexp (n : Z) : Z := Z.max (Z.log2 n - 52) 1074.

Definition rne (n c : Z) : Z :=
  let q := n / 2 ^ c in
  match 2 * (n mod 2 ^ c) ?= 2 ^ c with
  | Lt => q
  | Eq => if Z.even q then q else q + 1
  | Gt => q + 1
  end.

Definition rnd_pos (n : Z) : Z := rne n (cexp n) * 2 ^ cexp n.

(** The binary64 result for an exact value of [n] units, overflow to an
    infinity included. *)
Definition RND (n : Z) : Z :=
  match n with
  | Z0 => 0
  | Zpos _ => Z.min huge (rnd_pos n)
  | Zneg p => - Z.min huge (rnd_pos (Zpos p))
  end.

(** What the shifts of [binary_round_aux] have computed after [k] steps:
    the quotient by [2^k] and the position of the remainder. *)
Definition new_loc (rem k : Z) : location :=
  if rem =? 0 then loc_Exact else loc_Inexact (2 * rem ?= 2 ^ k).

Definition shr_inv (m k : Z) (r : shr_record) : Prop :=
  shr_m r = m / 2 ^ k /\ loc_of_shr_record r = new_loc (m mod 2 ^ k) k.

(** [Math.round] on a value of [V] units: [floor (V / 2^2148 + 1/2)]. *)
Definition round_index (V : Z) : Z := (2 * V + 2 ^ bias) / 2 ^ (bias + 1).

(** ** Finite checks by evaluation *)

Definition range (n : nat) : list Z := map Z.of_nat (seq 0 n).

Definition upto100 : list Z := range 101.

(** For suitability 0 in February to April and every integer raw score
    [r] in 0..100: the result lies between [r] and 14, and is 14 exactly
    for [11 <= r <= 17]. *)
Definition integer_scores_hit_baseline : bool :=
  forallb (fun month =>
    forallb (fun r =>
      let result := adjustMapRiskScore (Number_of_Z r) 0 month in
      (Number_of_Z (Z.min r 14) <=? result)%float
      && (result <=? Number_of_Z (Z.max r 14))%float
      && Bool.eqb (Leibniz.eqb result 14) ((11 <=? r) && (r <=? 17))) upto100)
    [2; 3; 4]%float.

(** The mean difference [d / 3] of two severity sums rounded to one
    decimal, in tenths: the integer nearest to [10 * d / 3] (no tie occurs
    for an integer [d]). *)
Definition nearest_tenths (d : Z) : Z := (20 * d + 3) / 6.

(** The binary64 value nearest to [n / 10]. *)
Definition decimal_tenths (n : Z) : float := Number_of_tenths (n <? 0) (Z.abs n).

(** Sums of three severities of the 0-10 scale are computed exactly. *)
Definition severity_sums_exact : bool :=
  forallb (fun a => forallb (fun b => forallb (fun c =>
    Leibniz.eqb (0 + Number_of_Z a + Number_of_Z b + Number_of_Z c)%float
                (Number_of_Z (a + b + c)))
    (range 11)) (range 11)) (range 11).

(** On two such sums the trend is the decimal nearest to the exact mean
    difference. *)
Definition trend_of_sums_exact : bool :=
  forallb (fun s1 => forallb (fun s2 =>
    Leibniz.eqb (Number_toFixed1 (Number_of_Z s1 / 3 - Number_of_Z s2 / 3)%float)
                (decimal_tenths (nearest_tenths (s1 - s2))))
    (range 31)) (range 31).

(** An entry whose severity is the integer [s] of the 0-10 scale. *)
Definition has_severity (e : SymptomLog) (s : Z) : Prop :=
  0 <= s <= 10 /\ severity e = Number_of_Z s.

(** ** Orders on levels and on requests *)

(** The levels in increasing order. *)
Definition levelRank (l : RiskLevel) : Z :=
  match l with Low => 0 | SlightlyHigh => 1 | High => 2 | VeryHigh => 3 end.

(** [milder i1 i2]: the same month, and no reading of [i1] is more adverse
    than that of [i2]: not warmer, not windier, not drier, not dustier, and
    raining if [i2] is. *)
Definition milder (i1 i2 : RiskInput) : Prop :=
  getMonth (in_date i1) = getMonth (in_date i2) /\
  (in_temperature i1 <=? in_temperature i2)%float = true /\
  (in_wind i1 <=? in_wind i2)%float = true /\
  (in_humidity i2 <=? in_humidity i1)%float = true /\
  (in_pm25 i1 <=? in_pm25 i2)%float = true /\
  (in_pm10 i1 <=? in_pm10 i2)%float = true /\
  ((0 <? in_precipitation i2)%float = true -> (0 <? in_precipitation i1)%float = true).

(** A reading other than the precipitation is [NaN]. *)
Definition nan_reading (input : RiskInput) : Prop :=
  is_nan (in_temperature input) = true \/ is_nan (in_wind input) = true \/
  is_nan (in_humidity input) = true \/ is_nan (in_pm25 input) = true \/
  is_nan (in_pm10 input) = true.

(** A score that is an integer of [0..100] with the level of the
    thresholds. *)
Definition graded (score : float) (level : RiskLevel) : Prop :=
  exists n : Z, 0 <= n <= 100 /\ score = Number_of_Z n /\ level = levelOf n.

(** ** States of [loadRisk] *)

(** A state whose readings are finite and whose scores are graded. *)
Definition graded_state (st : RiskState) : Prop :=
  finite_weather (st_weather st) /\
  match st_todayRisk st with
  | Some risk => graded (score risk) (level risk)
  | None => True
  end /\
  Forall (fun day => graded (fscore day) (flevel day)) (st_forecast st).

(** The state before the first run. *)
Definition no_risk : RiskState :=
  {| st_weather := None; st_todayRisk := None; st_forecast := [];
     st_isLoading := false; st_error := None |}.

(** A response that is [ok] with the JSON value [data]. *)
Definition ok_with {A : Set} (data : A) : option (Response A) :=
  Some {| res_ok := true; res_json := Some (JsonValue data) |}.

(** An answer without readings. *)
Definition no_current : CurrentWeather :=
  {| temperature_2m := nan; relative_humidity_2m := nan; wind_speed_10m := nan;
     current_precipitation := nan |}.

Definition no_air : CurrentAir := {| current_pm10 := nan; current_pm2_5 := nan |}.

(** ** Calendar months *)

(** The months [1..12]. *)
Definition calendar : list Z := map Z.succ (range 12).

(** The distance of two months around the year. *)
Definition circular (a b : Z) : Z := Z.min (Z.abs (a - b)) (12 - Z.abs (a - b)).

(** The distance from month [m] to the nearest month of a season (12 for
    a season without months). *)
Definition seasonGap (m : Z) (season : list Z) : Z :=
  fold_right (fun s d => Z.min (circular s m) d) 12 season.

(** The ramp of [seasonalFactor], on that distance. *)
Definition factorOfGap (d : Z) : float :=
  if d =? 0 then 1%float else if d =? 1 then 0.44%float
  else if d =? 2 then 0.2%float else 0%float.

(** The snapshot with the rain removed. *)
Definition without_rain (w : WeatherSnapshot) : WeatherSnapshot :=
  {| temperature := temperature w; humidity := humidity w; wind := wind w;
     precipitation := 0; pm10 := pm10 w; pm25 := pm25 w |}.

(** ** Means of whole numbers *)

(** The sum of a list of integers. *)
Definition total (scores : list Z) : Z := fold_right Z.add 0 scores.

(** The mean of a list of integers times [unit], rounded to the nearest
    integer, halves upwards. *)
Definition half_up_mean (unit : Z) (scores : list Z) : Z :=
  let n := Z.of_nat (List.length scores) in
  (2 * unit * total scores + n) / (2 * n).

(** The list of the severities of the log entries. *)
Definition severities (logs : list SymptomLog) (scores : list Z) : Prop :=
  map severity logs = map Number_of_Z scores /\ Forall (fun s => 0 <= s <= 10) scores.

(** ** States of the map *)

(** The requests that were fulfilled. *)
Definition answered (outcome : MapCity -> option CityAnswer) : list MapCity :=
  filter (fun c => match outcome c with Some _ => true | None => false end) mapCities.

(** The map before the first refresh. *)
Definition no_map : MapState :=
  {| mapRisks := []; mapError := None; activeMapCityId := None |}.

(** An answer received in March. *)
Definition answer_of (current : CurrentWeather) : CityAnswer :=
  {| answer_current := current; answer_date := march; answer_month := march |}.

(** An outcome in which only the cities of [ids] answer, all with the
    same readings. *)
Definition only (ids : list string) (current : CurrentWeather)
    (c : MapCity) : option CityAnswer :=
  if existsb (String.eqb (city_id c)) ids then Some (answer_of current) else None.

Definition mild_day : CurrentWeather :=
  {| temperature_2m := 18; relative_humidity_2m := 45; wind_speed_10m := 4;
     current_precipitation := 0 |}.

(** ** The checklist *)

(** The number of actions ticked. *)
Definition doneCount (actions : ActionState) : Z :=
  Z.of_nat (List.length (filter (fun value => value) (Object_values actions))).

(** ** Division

    The quotient of two positive values [n / d] is in general no whole
    count of units.  [sticky n d] is a whole count that rounds like it:
    the integer part of the quotient, made odd when the division leaves a
    remainder. *)
Definition sticky (n d : Z) : Z :=
  if n mod d =? 0 then n / d else 2 * (n / d / 2) + 1.

(** The same on both sides of zero. *)
Definition quotient (n d : Z) : Z :=
  match n with
  | Z0 => 0
  | Zpos _ => sticky n d
  | Zneg p => - sticky (Zpos p) d
  end.

(** The position of a remainder as two more bits of the mantissa. *)
Definition loc_code (l : location) : Z :=
  match l with
  | loc_Exact => 0
  | loc_Inexact Lt => 1
  | loc_Inexact Eq => 2
  | loc_Inexact Gt => 3
  end.

(** The position of the remainder [r] of a division by [m]. *)
Definition div_loc (r m : Z) : location :=
  if r =? 0 then loc_Exact else loc_Inexact (2 * r ?= m).

(** * Binary64 arithmetic

    The primitive operations are specified by the Standard Library
    ([FloatAxioms]) through the functions of [SpecFloat].  This part derives
    from those functions what the proofs about the engine need: the value
    of a sum, difference or product is the exact value rounded by [RND];
    [RND] is monotone and leaves binary64 values unchanged; comparisons
    compare values. *)

(** ** Powers of two and digit counts *)

Lemma pow2_pos (k : Z) : 0 <= k -> 0 < 2 ^ k.
Proof. intros. apply Z.pow_pos_nonneg; lia. Qed.

Lemma pow2_le (a b : Z) : 0 <= a <= b -> 2 ^ a <= 2 ^ b.
Proof. intros. apply Z.pow_le_mono_r; lia. Qed.

Lemma pow2_lt (a b : Z) : 0 <= a < b -> 2 ^ a < 2 ^ b.
Proof. intros. apply Z.pow_lt_mono_r; lia. Qed.

Lemma pow2_divide (a b : Z) : 0 <= a <= b -> (2 ^ a | 2 ^ b).
Proof.
  intros H. exists (2 ^ (b - a)). rewrite <- Z.pow_add_r by lia. f_equal. lia.
Qed.

Lemma log2_bounds (m : Z) : 0 < m -> 2 ^ Z.log2 m <= m < 2 ^ (Z.log2 m + 1).
Proof. intros. pose proof (Z.log2_spec m H). unfold Z.succ in *. lia. Qed.

Lemma div_pow2_lt (m n d : Z) :
  0 <= n -> 0 <= d -> 0 <= m < 2 ^ (d + n) -> m / 2 ^ n < 2 ^ d.
Proof.
  intros Hn Hd Hm. apply Z.div_lt_upper_bound; [now apply pow2_pos|].
  rewrite <- Z.pow_add_r by lia. replace (n + d) with (d + n) by lia. lia.
Qed.

Lemma div_pow2_ge (m n d : Z) :
  0 <= n -> 0 <= d -> 2 ^ (d + n) <= m -> 2 ^ d <= m / 2 ^ n.
Proof.
  intros Hn Hd Hm. apply Z.div_le_lower_bound; [now apply pow2_pos|].
  rewrite <- Z.pow_add_r by lia. replace (n + d) with (d + n) by lia. lia.
Qed.

Lemma huge_eq : huge = 2 ^ 3172.
Proof. reflexivity. Qed.

Lemma huge_pos : 0 < huge.
Proof. rewrite huge_eq. apply pow2_pos. lia. Qed.

Global Opaque huge.

(** A mantissa below [2^53] at an exponent of at most 971 stays below
    [huge]; a mantissa of at least [2^52] at 972 or more reaches it. *)
Lemma below_huge (m e : Z) :
  0 <= m < 2 ^ 53 -> - bias <= e <= 971 -> m * 2 ^ (e + bias) < huge.
Proof.
  intros Hm He. rewrite huge_eq. unfold bias in *.
  replace 3172 with (53 + 3119) by lia. rewrite (Z.pow_add_r 2 53 3119) by lia.
  assert (H1 : 2 ^ (e + 2148) <= 2 ^ 3119) by (apply pow2_le; lia).
  assert (H2 : 0 < 2 ^ (e + 2148)) by (apply pow2_pos; lia).
  generalize dependent (2 ^ (e + 2148)). generalize dependent (2 ^ 3119).
  generalize dependent (2 ^ 53). intros. nia.
Qed.

Lemma above_huge (m e : Z) :
  2 ^ 52 <= m -> 972 <= e -> huge <= m * 2 ^ (e + bias).
Proof.
  intros Hm He. rewrite huge_eq. unfold bias in *.
  replace 3172 with (52 + 3120) by lia. rewrite (Z.pow_add_r 2 52 3120) by lia.
  assert (H1 : 2 ^ 3120 <= 2 ^ (e + 2148)) by (apply pow2_le; lia).
  assert (H2 : 0 < 2 ^ 3120) by (apply pow2_pos; lia).
  assert (H3 : 0 < 2 ^ 52) by (apply pow2_pos; lia).
  generalize dependent (2 ^ (e + 2148)). generalize dependent (2 ^ 3120).
  generalize dependent (2 ^ 52). intros. nia.
Qed.

(** The digit count of [SpecFloat] is the binary logarithm plus one. *)
Lemma digits2_pos_log2 (p : positive) :
  Zpos (digits2_pos p) = Z.log2 (Zpos p) + 1.
Proof.
  induction p as [p IH|p IH|]; cbn [digits2_pos]; try reflexivity.
  - rewrite Pos2Z.inj_succ, IH.
    change (Zpos p~1) with (2 * Zpos p + 1).
    rewrite Z.log2_succ_double by lia. lia.
  - rewrite Pos2Z.inj_succ, IH.
    change (Zpos p~0) with (2 * Zpos p).
    rewrite Z.log2_double by lia. lia.
Qed.

Lemma Zdigits2_log2 (k : Z) : 0 < k -> Zdigits2 k = Z.log2 k + 1.
Proof. destruct k; try lia. intros _. apply digits2_pos_log2. Qed.

Lemma Zdigits2_small (k : Z) : 0 <= k < 2 ^ 53 -> Zdigits2 k <= 53.
Proof.
  intros [H0 H1]. destruct (Z.eq_dec k 0) as [->|Hn]; [cbn; lia|].
  rewrite Zdigits2_log2 by lia.
  assert (Z.log2 k < 53) by (apply Z.log2_lt_pow2; lia). lia.
Qed.

Lemma fexp_eq (x : Z) : fexp prec emax x = Z.max (x - 53) (-1074).
Proof. reflexivity. Qed.

(** ** The right shifts of [binary_round_aux] *)

Lemma iter_pos_inv {A} (f : A -> A) (P : Z -> A -> Prop) :
  (forall k y, 0 <= k -> P k y -> P (k + 1) (f y)) ->
  forall p k y, 0 <= k -> P k y -> P (k + Zpos p) (iter_pos f p y).
Proof.
  intros step. induction p as [p IH|p IH|]; intros k y Hk Hy; cbn [iter_pos].
  - replace (k + Zpos p~1) with (k + 1 + Zpos p + Zpos p) by lia.
    apply IH; [lia|]. apply IH; [lia|]. now apply step.
  - replace (k + Zpos p~0) with (k + Zpos p + Zpos p) by lia.
    apply IH; [lia|]. now apply IH.
  - now apply step.
Qed.

Lemma shr_1_m (r : shr_record) : 0 <= shr_m r -> shr_m (shr_1 r) = shr_m r / 2.
Proof.
  destruct r as [m rb sb]; cbn [shr_m]; intros Hm.
  destruct m as [|[p|p|]|p]; cbn [shr_1 shr_m]; try reflexivity; try lia.
  - change (Zpos p~1) with (1 + 2 * Zpos p). rewrite Z.mul_comm, Z.div_add by lia.
    reflexivity.
  - change (Zpos p~0) with (2 * Zpos p). rewrite Z.mul_comm, Z.div_mul by lia.
    reflexivity.
Qed.

Lemma shr_1_r (r : shr_record) : 0 <= shr_m r -> shr_r (shr_1 r) = Z.odd (shr_m r).
Proof.
  destruct r as [m rb sb]; cbn [shr_m]; intros Hm.
  destruct m as [|[p|p|]|p]; cbn [shr_1 shr_r]; try reflexivity; lia.
Qed.

Lemma shr_1_s (r : shr_record) : shr_s (shr_1 r) = shr_r r || shr_s r.
Proof.
  destruct r as [m rb sb]. destruct m as [|[p|p|]|[p|p|]]; reflexivity.
Qed.

Lemma loc_exact_iff (r : shr_record) :
  loc_of_shr_record r = loc_Exact <-> shr_r r || shr_s r = false.
Proof. destruct r as [m [|] [|]]; cbn; split; congruence. Qed.

(** One more shift keeps the invariant. *)
Lemma shr_1_inv (m k : Z) (r : shr_record) :
  0 <= m -> 0 <= k -> shr_inv m k r -> shr_inv m (k + 1) (shr_1 r).
Proof.
  intros Hm Hk [Hq Hl].
  assert (Hp : 0 < 2 ^ k) by (apply Z.pow_pos_nonneg; lia).
  assert (Hq0 : 0 <= shr_m r) by (rewrite Hq; apply Z.div_pos; lia).
  assert (E : 2 ^ (k + 1) = 2 ^ k * 2) by (rewrite Z.pow_add_r by lia; reflexivity).
  assert (Hrem : m mod 2 ^ (k + 1) = m mod 2 ^ k + 2 ^ k * ((m / 2 ^ k) mod 2)).
  { rewrite E. apply Z.rem_mul_r; lia. }
  pose proof (Z.mod_pos_bound m (2 ^ k) Hp) as Hb.
  split.
  - rewrite shr_1_m, Hq, E by assumption. rewrite Z.div_div by lia. reflexivity.
  - pose proof (shr_1_r r Hq0) as Hr. pose proof (shr_1_s r) as Hs.
    pose proof (loc_exact_iff r) as Hex. rewrite Hl in Hex.
    rewrite Hq in Hr. rewrite (Zmod_odd (m / 2 ^ k)) in Hrem.
    destruct (shr_1 r) as [m' rb' sb']. cbn [shr_r shr_s] in Hr, Hs.
    unfold new_loc in *. rewrite Hrem.
    destruct (Z.eqb_spec (m mod 2 ^ k) 0) as [Hz|Hz].
    + assert (Hs' : sb' = false) by (rewrite Hs; now apply Hex).
      clear Hs. subst sb'. rewrite Hz. destruct (Z.odd (m / 2 ^ k)); subst rb'; cbn [loc_of_shr_record].
      * replace (0 + 2 ^ k * 1 =? 0) with false by (symmetry; apply Z.eqb_neq; lia).
        f_equal. symmetry. apply Z.compare_eq_iff. lia.
      * replace (0 + 2 ^ k * 0 =? 0) with true by (symmetry; apply Z.eqb_eq; lia).
        reflexivity.
    + assert (Hs' : sb' = true).
      { rewrite Hs. destruct (shr_r r || shr_s r); [reflexivity|].
        destruct Hex as [_ Hex]. specialize (Hex eq_refl). discriminate. }
      clear Hs. subst sb'. destruct (Z.odd (m / 2 ^ k)); subst rb'; cbn [loc_of_shr_record].
      * replace (m mod 2 ^ k + 2 ^ k * 1 =? 0) with false by (symmetry; apply Z.eqb_neq; lia).
        f_equal. symmetry. apply Z.compare_gt_iff. lia.
      * replace (m mod 2 ^ k + 2 ^ k * 0 =? 0) with false by (symmetry; apply Z.eqb_neq; lia).
        f_equal. symmetry. apply Z.compare_lt_iff. lia.
Qed.

Lemma shr_inv_0 (m : Z) : shr_inv m 0 (Build_shr_record m false false).
Proof.
  split; cbn [shr_m loc_of_shr_record].
  - now rewrite Z.pow_0_r, Z.div_1_r.
  - unfold new_loc. now rewrite Z.pow_0_r, Z.mod_1_r.
Qed.

Lemma shr_iter (m : Z) (p : positive) :
  0 <= m -> shr_inv m (Zpos p) (iter_pos shr_1 p (Build_shr_record m false false)).
Proof.
  intros Hm.
  apply (iter_pos_inv shr_1 (shr_inv m) (fun k y Hk => shr_1_inv m k y Hm Hk) p 0);
    [lia | apply shr_inv_0].
Qed.

(** [shr_fexp] on an exact value: the exponent is raised to [fexp] when
    that is larger, and the record holds the quotient and the position of
    what has been shifted out. *)
Lemma shr_fexp_exact (k e : Z) :
  0 <= k ->
  exists r,
    shr_fexp prec emax k e loc_Exact
      = (r, Z.max e (fexp prec emax (Zdigits2 k + e))) /\
    shr_inv k (Z.max e (fexp prec emax (Zdigits2 k + e)) - e) r.
Proof.
  intros Hk. unfold shr_fexp, shr. cbn [shr_record_of_loc].
  set (f := fexp prec emax (Zdigits2 k + e)).
  destruct (f - e) as [|p|p] eqn:E.
  - exists (Build_shr_record k false false). split.
    + f_equal. lia.
    + replace (Z.max e f - e) with 0 by lia. apply shr_inv_0.
  - exists (iter_pos shr_1 p (Build_shr_record k false false)). split.
    + f_equal. lia.
    + replace (Z.max e f - e) with (Zpos p) by lia. now apply shr_iter.
  - exists (Build_shr_record k false false). split.
    + f_equal. lia.
    + replace (Z.max e f - e) with 0 by lia. apply shr_inv_0.
Qed.

(** ** Rounding to nearest even on scaled values *)

Lemma rne_bounds (n c : Z) : n / 2 ^ c <= rne n c <= n / 2 ^ c + 1.
Proof.
  unfold rne. destruct (2 * (n mod 2 ^ c) ?= 2 ^ c); [destruct (Z.even _)| |]; lia.
Qed.

Lemma rne_scale (x n a : Z) : 0 <= n -> 0 <= a -> rne (x * 2 ^ a) (n + a) = rne x n.
Proof.
  intros Hn Ha. unfold rne.
  pose proof (pow2_pos n Hn). pose proof (pow2_pos a Ha).
  rewrite Z.pow_add_r by lia.
  rewrite Z.div_mul_cancel_r by lia.
  rewrite Z.mul_mod_distr_r by lia.
  replace (2 * (x mod 2 ^ n * 2 ^ a)) with (2 * (x mod 2 ^ n) * 2 ^ a) by ring.
  rewrite <- Zmult_compare_compat_r by lia. reflexivity.
Qed.

Lemma rne_nonneg (n c : Z) : 0 <= n -> 0 <= c -> 0 <= rne n c.
Proof.
  intros Hn Hc. pose proof (rne_bounds n c).
  assert (0 <= n / 2 ^ c) by (apply Z.div_pos; [lia|now apply pow2_pos]). lia.
Qed.

(** Rounding at a fixed exponent is monotone. *)
Lemma rne_mono (a b c : Z) : 0 <= c -> a <= b -> rne a c <= rne b c.
Proof.
  intros Hc Hab. pose proof (pow2_pos c Hc) as Hp.
  pose proof (Z.div_le_mono a b (2 ^ c) Hp Hab) as Hq.
  pose proof (rne_bounds a c). pose proof (rne_bounds b c).
  destruct (Z.eq_dec (a / 2 ^ c) (b / 2 ^ c)) as [E|E]; [|lia].
  assert (Hr : a mod 2 ^ c <= b mod 2 ^ c).
  { rewrite !Z.mod_eq by lia. rewrite E. lia. }
  unfold rne. rewrite E.
  destruct (Z.compare_spec (2 * (a mod 2 ^ c)) (2 ^ c));
    destruct (Z.compare_spec (2 * (b mod 2 ^ c)) (2 ^ c));
    try destruct (Z.even (b / 2 ^ c)); lia.
Qed.

(** [round_nearest_even] on the outcome of the shifts is [rne]. *)
Lemma round_nearest_even_rne (m n : Z) (r : shr_record) :
  shr_inv m n r -> round_nearest_even (shr_m r) (loc_of_shr_record r) = rne m n.
Proof.
  intros [Hq Hl]. rewrite Hq, Hl. unfold new_loc, rne.
  destruct (Z.eqb_spec (m mod 2 ^ n) 0) as [Hz|Hz]; cbn [round_nearest_even].
  - rewrite Hz.
    destruct (Z.compare_spec (2 * 0) (2 ^ n)) as [E|E|E]; try reflexivity.
    + assert (2 ^ n = 0) by lia.
      destruct (Z.even (m / 2 ^ n)) eqn:Ev; [reflexivity|].
      exfalso. rewrite H, Z.div_0_r in Ev. discriminate.
    + exfalso. pose proof (Z.pow_nonneg 2 n). lia.
  - destruct (2 * (m mod 2 ^ n) ?= 2 ^ n); reflexivity.
Qed.

Lemma cexp_ge (n : Z) : 1074 <= cexp n.
Proof. unfold cexp. lia. Qed.

Lemma cexp_mono (a b : Z) : a <= b -> cexp a <= cexp b.
Proof. intros H. unfold cexp. pose proof (Z.log2_le_mono a b H). lia. Qed.

Lemma cexp_scaled (m : positive) (e : Z) :
  - bias <= e ->
  cexp (Zpos m * 2 ^ (e + bias)) = fexp prec emax (Zpos (digits2_pos m) + e) + bias.
Proof.
  intros He. unfold cexp. unfold bias in *.
  rewrite Z.log2_mul_pow2 by lia.
  rewrite fexp_eq, digits2_pos_log2. lia.
Qed.

Lemma rnd_pos_scaled (m : positive) (e : Z) :
  - bias <= e ->
  e <= fexp prec emax (Zpos (digits2_pos m) + e) ->
  rnd_pos (Zpos m * 2 ^ (e + bias))
  = rne (Zpos m) (fexp prec emax (Zpos (digits2_pos m) + e) - e)
    * 2 ^ (fexp prec emax (Zpos (digits2_pos m) + e) + bias).
Proof.
  intros He Hf. unfold rnd_pos. rewrite cexp_scaled by assumption.
  set (f := fexp prec emax (Zpos (digits2_pos m) + e)) in *.
  replace (f + bias) with (f - e + (e + bias)) at 1 by lia.
  rewrite rne_scale by lia. reflexivity.
Qed.

Lemma rnd_pos_nonneg (n : Z) : 0 <= n -> 0 <= rnd_pos n.
Proof.
  intros Hn. unfold rnd_pos. pose proof (cexp_ge n).
  apply Z.mul_nonneg_nonneg; [apply rne_nonneg; lia|].
  apply Z.lt_le_incl, pow2_pos. lia.
Qed.

Lemma rnd_pos_le_pow (n d : Z) :
  0 < n -> n < 2 ^ d -> cexp n <= d -> rnd_pos n <= 2 ^ d.
Proof.
  intros Hn Hd Hc. unfold rnd_pos. pose proof (cexp_ge n) as Hc0.
  pose proof (pow2_pos (cexp n) ltac:(lia)) as Hp.
  pose proof (rne_bounds n (cexp n)) as Hb.
  assert (E : 2 ^ d = 2 ^ (d - cexp n) * 2 ^ cexp n).
  { rewrite <- Z.pow_add_r by lia. f_equal. lia. }
  assert (n / 2 ^ cexp n < 2 ^ (d - cexp n)).
  { apply div_pow2_lt; try lia. replace (d - cexp n + cexp n) with d by lia. lia. }
  rewrite E. apply Z.mul_le_mono_nonneg_r; lia.
Qed.

Lemma rnd_pos_ge_pow (n : Z) :
  0 < n -> cexp n <= Z.log2 n -> 2 ^ Z.log2 n <= rnd_pos n.
Proof.
  intros Hn Hc. unfold rnd_pos. pose proof (cexp_ge n) as Hc0.
  pose proof (pow2_pos (cexp n) ltac:(lia)) as Hp.
  pose proof (rne_bounds n (cexp n)) as Hb.
  pose proof (log2_bounds n Hn) as Hl.
  assert (E : 2 ^ Z.log2 n = 2 ^ (Z.log2 n - cexp n) * 2 ^ cexp n).
  { rewrite <- Z.pow_add_r by lia. f_equal. lia. }
  assert (2 ^ (Z.log2 n - cexp n) <= n / 2 ^ cexp n).
  { apply div_pow2_ge; try lia.
    replace (Z.log2 n - cexp n + cexp n) with (Z.log2 n) by lia. lia. }
  rewrite E. apply Z.mul_le_mono_nonneg_r; lia.
Qed.

(** Rounding is monotone across exponents too: a value of a lower binade
    rounds to at most the power of two that starts the next one. *)
Lemma rnd_pos_mono (a b : Z) : 0 < a -> a <= b -> rnd_pos a <= rnd_pos b.
Proof.
  intros Ha Hab.
  pose proof (cexp_mono a b Hab) as Hc. pose proof (cexp_ge a) as Hca.
  destruct (Z.eq_dec (cexp a) (cexp b)) as [E|E].
  - unfold rnd_pos. rewrite E. apply Z.mul_le_mono_nonneg_r.
    + apply Z.lt_le_incl, pow2_pos. lia.
    + apply rne_mono; lia.
  - assert (Hlb : cexp b = Z.log2 b - 52) by (unfold cexp in *; lia).
    assert (Hla : Z.log2 a < Z.log2 b) by (unfold cexp in *; lia).
    pose proof (Z.log2_nonneg a). pose proof (log2_bounds a Ha) as Hba.
    apply Z.le_trans with (2 ^ Z.log2 b).
    + apply rnd_pos_le_pow; try lia.
      eapply Z.lt_le_trans; [apply Hba|]. apply pow2_le. lia.
    + apply rnd_pos_ge_pow; lia.
Qed.

(** A value whose bits below the last place are zero is not changed. *)
Lemma rnd_pos_exact (n : Z) : 0 < n -> (2 ^ cexp n | n) -> rnd_pos n = n.
Proof.
  intros Hn [q Hq]. unfold rnd_pos, rne. pose proof (cexp_ge n).
  pose proof (pow2_pos (cexp n) ltac:(lia)) as Hp.
  generalize dependent (cexp n). intros c Hq Hc Hp. subst n.
  rewrite Z.mod_mul, Z.div_mul by lia.
  replace (2 * 0 ?= 2 ^ c) with Lt by (symmetry; apply Z.compare_lt_iff; lia).
  reflexivity.
Qed.

Lemma RND_mono (a b : Z) : a <= b -> RND a <= RND b.
Proof.
  intros Hab. pose proof huge_pos as Hh.
  destruct a as [|pa|pa], b as [|pb|pb]; cbn [RND]; try lia.
  - pose proof (rnd_pos_nonneg (Zpos pb)). lia.
  - pose proof (rnd_pos_mono (Zpos pa) (Zpos pb)). lia.
  - pose proof (rnd_pos_nonneg (Zpos pa)). lia.
  - pose proof (rnd_pos_nonneg (Zpos pa)). pose proof (rnd_pos_nonneg (Zpos pb)). lia.
  - pose proof (rnd_pos_mono (Zpos pb) (Zpos pa)). lia.
Qed.

Lemma RND_opp (a : Z) : RND (- a) = - RND a.
Proof. destruct a; cbn [RND Z.opp]; lia. Qed.

(** A multiple of [2^k] that has at most 53 significant bits above [2^k]
    is a binary64 value: rounding leaves it unchanged. *)
Lemma RND_exact (N k : Z) :
  1074 <= k -> (2 ^ k | N) -> Z.abs N < 2 ^ (k + 53) -> Z.abs N < huge -> RND N = N.
Proof.
  intros Hk Hd Hb Hh.
  assert (P : forall n, 0 < n -> (2 ^ k | n) -> n < 2 ^ (k + 53) -> rnd_pos n = n).
  { intros n Hn Hdn Hbn. apply rnd_pos_exact; [assumption|].
    apply Z.divide_trans with (2 ^ k); [|assumption].
    assert (Z.log2 n < k + 53) by (apply Z.log2_lt_pow2; lia).
    assert (E : k = (k - cexp n) + cexp n) by lia.
    pose proof (cexp_ge n). unfold cexp in *.
    exists (2 ^ (k - Z.max (Z.log2 n - 52) 1074)).
    rewrite <- Z.pow_add_r by lia. f_equal. lia. }
  destruct N as [|p|p]; cbn [RND]; [reflexivity| |].
  - rewrite P; try assumption; lia.
  - rewrite P; try lia. now apply Z.divide_opp_r in Hd.
Qed.

Lemma cond_Zopp_RND (s : bool) (n : Z) :
  0 < n -> cond_Zopp s (Z.min huge (rnd_pos n)) = RND (cond_Zopp s n).
Proof. intros Hn. destruct n; try lia. now destruct s. Qed.

(** ** [binary_round_aux], [binary_round] and [binary_normalize] round
    the exact value *)

(** The heart of the matter: on an exact positive value [m * 2^e] whose
    mantissa does not need widening, [binary_round_aux] returns the number
    of value [rnd_pos], or the infinity when that is out of range. *)
Lemma bra_exact_spec (s : bool) (m : positive) (e : Z) :
  - bias <= e ->
  e <= fexp prec emax (Zpos (digits2_pos m) + e) ->
  binary_round_aux prec emax s (Zpos m) e loc_Exact <> S754_nan /\
  SFval (binary_round_aux prec emax s (Zpos m) e loc_Exact)
  = cond_Zopp s (Z.min huge (rnd_pos (Zpos m * 2 ^ (e + bias)))).
Proof.
  intros He Hf. rewrite rnd_pos_scaled by assumption.
  unfold binary_round_aux.
  destruct (shr_fexp_exact (Zpos m) e ltac:(lia)) as (r1 & E1 & I1).
  cbn [Zdigits2] in E1, I1.
  set (f := fexp prec emax (Zpos (digits2_pos m) + e)) in *.
  replace (Z.max e f) with f in * by lia.
  rewrite E1, (round_nearest_even_rne _ _ _ I1).
  set (k := rne (Zpos m) (f - e)).
  pose proof (rne_bounds (Zpos m) (f - e)) as Hkb. fold k in Hkb.
  pose proof (log2_bounds (Zpos m) ltac:(lia)) as Hlog.
  assert (Hfe : f = Z.max (Z.log2 (Zpos m) + 1 + e - 53) (-1074)).
  { unfold f. rewrite fexp_eq, digits2_pos_log2. reflexivity. }
  assert (Hq0 : 0 <= Zpos m / 2 ^ (f - e)) by (apply Z.div_pos; [lia|apply pow2_pos; lia]).
  assert (Hq1 : Zpos m / 2 ^ (f - e) < 2 ^ 53).
  { apply div_pow2_lt; try lia. split; [lia|].
    eapply Z.lt_le_trans; [apply Hlog|]. apply pow2_le. pose proof (Z.log2_nonneg (Zpos m)). lia. }
  assert (Hk0 : 0 <= k) by lia.
  destruct (shr_fexp_exact k f Hk0) as (r2 & E2 & I2).
  rewrite E2. destruct I2 as [Hm2 _].
  assert (Hf1074 : -1074 <= f) by lia.
  assert (H53 : 2 ^ 53 = 2 * 2 ^ 52) by reflexivity.
  assert (Hp52 : 0 < 2 ^ 52) by (apply pow2_pos; lia).
  (* the second shift is by zero or by one position *)
  assert (Hcase : (k < 2 ^ 53 /\ Z.max f (fexp prec emax (Zdigits2 k + f)) = f)
                  \/ (k = 2 ^ 53 /\ Z.max f (fexp prec emax (Zdigits2 k + f)) = f + 1)).
  { destruct (Z.eq_dec k (2 ^ 53)) as [Ek|Ek].
    - right. split; [assumption|]. rewrite Ek, fexp_eq.
      rewrite Zdigits2_log2 by lia. rewrite Z.log2_pow2 by lia. lia.
    - left. split; [lia|]. rewrite fexp_eq.
      pose proof (Zdigits2_small k ltac:(lia)). lia. }
  (* mantissa at least 2^52 when the exponent is above the minimum *)
  assert (Hnorm : -1074 < f -> 2 ^ 52 <= k).
  { intros Hgt. assert (En : f - e = Z.log2 (Zpos m) - 52) by lia.
    assert (2 ^ 52 <= Zpos m / 2 ^ (f - e)); [|lia].
    apply div_pow2_ge; try lia. rewrite En.
    replace (52 + (Z.log2 (Zpos m) - 52)) with (Z.log2 (Zpos m)) by lia. lia. }
  destruct Hcase as [[Hlt Hmax]|[Heq Hmax]]; rewrite Hmax in *.
  - replace (f - f) with 0 in Hm2 by lia. rewrite Z.pow_0_r, Z.div_1_r in Hm2.
    rewrite Hm2. destruct k as [|pk|pk] eqn:Ek; try lia.
    + split; [discriminate|]. cbn [SFval]. rewrite Z.mul_0_l.
      pose proof huge_pos. rewrite Z.min_r by lia. now destruct s.
    + destruct (Z.leb_spec f (emax - prec)) as [Hle|Hgt];
        (split; [discriminate|]); cbn [SFval]; f_equal.
      * change (emax - prec) with 971 in Hle.
        pose proof (below_huge (Zpos pk) f ltac:(lia) ltac:(unfold bias; lia)). lia.
      * change (emax - prec) with 971 in Hgt.
        pose proof (above_huge (Zpos pk) f ltac:(lia) ltac:(lia)). lia.
  - replace (f + 1 - f) with 1 in Hm2 by lia.
    rewrite Heq in Hm2. change (2 ^ 53 / 2 ^ 1) with (2 ^ 52) in Hm2.
    rewrite Hm2. destruct (2 ^ 52) as [|p52|p52] eqn:E52; try lia.
    assert (Hval : Zpos p52 * 2 ^ (f + 1 + bias) = k * 2 ^ (f + bias)).
    { rewrite Heq, H53, <- E52. replace (f + 1 + bias) with (1 + (f + bias)) by lia.
      rewrite Z.pow_add_r by (unfold bias; lia). change (2 ^ 1) with 2. ring. }
    destruct (Z.leb_spec (f + 1) (emax - prec)) as [Hle|Hgt];
      (split; [discriminate|]); cbn [SFval]; f_equal.
    + change (emax - prec) with 971 in Hle. rewrite <- Hval.
      pose proof (below_huge (Zpos p52) (f + 1) ltac:(lia) ltac:(unfold bias; lia)). lia.
    + change (emax - prec) with 971 in Hgt. rewrite <- Hval.
      pose proof (above_huge (Zpos p52) (f + 1) ltac:(lia) ltac:(lia)). lia.
Qed.

Lemma pos_iter_xO (m d : positive) : Zpos (Pos.iter xO m d) = Zpos m * 2 ^ Zpos d.
Proof.
  induction d as [|d IH] using Pos.peano_ind.
  - cbn [Pos.iter]. change (2 ^ 1) with 2. lia.
  - rewrite Pos.iter_succ, Pos2Z.inj_succ, Z.pow_succ_r by lia.
    change (Zpos (Pos.iter xO m d)~0) with (2 * Zpos (Pos.iter xO m d)).
    rewrite IH. ring.
Qed.

Lemma shl_align_spec (m : positive) (e e' : Z) :
  snd (shl_align m e e') = Z.min e e' /\
  Zpos (fst (shl_align m e e')) = Zpos m * 2 ^ (e - Z.min e e').
Proof.
  unfold shl_align. destruct (e' - e) as [|d|d] eqn:E; cbn [fst snd].
  - split; [lia|]. replace (e - Z.min e e') with 0 by lia. lia.
  - split; [lia|]. replace (e - Z.min e e') with 0 by lia. lia.
  - split; [lia|]. rewrite pos_iter_xO. f_equal. f_equal. lia.
Qed.

Lemma scale_split (m e z : Z) :
  - bias <= z <= e -> m * 2 ^ (e - z) * 2 ^ (z + bias) = m * 2 ^ (e + bias).
Proof.
  intros H. rewrite <- Z.mul_assoc, <- Z.pow_add_r by (unfold bias in *; lia).
  f_equal. f_equal. lia.
Qed.

(** [binary_round] and [binary_normalize] round the exact value. *)
Lemma binary_round_spec (s : bool) (m : positive) (e : Z) :
  - bias <= e ->
  binary_round prec emax s m e <> S754_nan /\
  SFval (binary_round prec emax s m e) = RND (cond_Zopp s (Zpos m * 2 ^ (e + bias))).
Proof.
  intros He. unfold binary_round.
  set (f := fexp prec emax (Zpos (digits2_pos m) + e)).
  pose proof (shl_align_spec m e f) as [Hs Hfst].
  destruct (shl_align m e f) as [mz ez]. cbn [fst snd] in Hs, Hfst.
  assert (Hf : -1074 <= f) by (unfold f; rewrite fexp_eq; lia).
  assert (Hd : Zpos (digits2_pos mz) + ez = Zpos (digits2_pos m) + e).
  { rewrite !digits2_pos_log2, Hfst, Z.log2_mul_pow2 by lia. lia. }
  assert (Hv : Zpos mz * 2 ^ (ez + bias) = Zpos m * 2 ^ (e + bias)).
  { rewrite Hfst, Hs. apply scale_split. unfold bias in *. lia. }
  destruct (bra_exact_spec s mz ez) as [Hn Hval].
  - unfold bias in *. lia.
  - rewrite Hd. fold f. lia.
  - split; [assumption|]. rewrite Hval, Hv. apply cond_Zopp_RND.
    apply Z.mul_pos_pos; [lia|]. apply pow2_pos. unfold bias in *. lia.
Qed.

Lemma binary_normalize_spec (M e : Z) :
  - bias <= e ->
  binary_normalize prec emax M e false <> S754_nan /\
  SFval (binary_normalize prec emax M e false) = RND (M * 2 ^ (e + bias)).
Proof.
  intros He. destruct M as [|p|p]; cbn [binary_normalize].
  - split; [discriminate|reflexivity].
  - apply (binary_round_spec false p e He).
  - destruct (binary_round_spec true p e He) as [Hn Hv]. split; [assumption|].
    rewrite Hv. f_equal. cbn [cond_Zopp]. lia.
Qed.

(** ** Valid numbers, comparison, and the three operations *)

Lemma valid_finite_inv (s : bool) (m : positive) (e : Z) :
  valid_binary (S754_finite s m e) = true ->
  e = fexp prec emax (Zpos (digits2_pos m) + e) /\ -1074 <= e <= 971 /\
  Zpos m < 2 ^ 53 /\ (-1074 < e -> 2 ^ 52 <= Zpos m).
Proof.
  cbn [SpecFloat.valid_binary]. unfold bounded, canonical_mantissa.
  rewrite andb_true_iff, Z.eqb_eq, Z.leb_le. change (emax - prec) with 971.
  rewrite fexp_eq, digits2_pos_log2. intros [Hc He].
  pose proof (log2_bounds (Zpos m) ltac:(lia)) as Hl.
  pose proof (Z.log2_nonneg (Zpos m)).
  repeat split; try lia.
  - eapply Z.lt_le_trans; [apply Hl|]. apply pow2_le. lia.
  - intros Hgt. eapply Z.le_trans; [|apply Hl]. apply pow2_le. lia.
Qed.

Lemma SFval_finite_bound (s : bool) (m : positive) (e : Z) :
  valid_binary (S754_finite s m e) = true ->
  0 < Zpos m * 2 ^ (e + bias) < huge.
Proof.
  intros Hv. destruct (valid_finite_inv s m e Hv) as (_ & He & Hm & _).
  split.
  - apply Z.mul_pos_pos; [lia|]. apply pow2_pos. unfold bias. lia.
  - apply below_huge; unfold bias; lia.
Qed.

Lemma SFval_bound (x : spec_float) :
  valid_binary x = true -> - huge <= SFval x <= huge.
Proof.
  pose proof huge_pos. destruct x as [s|s| |s m e]; cbn [SFval]; intros Hv; try lia.
  - destruct s; cbn; lia.
  - pose proof (SFval_finite_bound s m e Hv). destruct s; cbn [cond_Zopp]; lia.
Qed.

Lemma SFval_finite_lt (x : spec_float) :
  valid_binary x = true -> finite_SF x = true -> - huge < SFval x < huge.
Proof.
  pose proof huge_pos. destruct x as [s|s| |s m e]; cbn [SFval finite_SF]; intros Hv Hf;
    try discriminate; try lia.
  pose proof (SFval_finite_bound s m e Hv). destruct s; cbn [cond_Zopp]; lia.
Qed.

(** Binary64 values are fixed points of [RND]. *)
Lemma RND_valid (x : spec_float) :
  valid_binary x = true -> finite_SF x = true -> RND (SFval x) = SFval x.
Proof.
  destruct x as [s|s| |s m e]; cbn [SFval finite_SF]; intros Hv Hf;
    try discriminate; try reflexivity.
  pose proof (SFval_finite_bound s m e Hv) as Hb.
  destruct (valid_finite_inv s m e Hv) as (Hc & He & _).
  rewrite <- cond_Zopp_RND by lia. f_equal.
  rewrite rnd_pos_exact; [lia|lia|].
  rewrite cexp_scaled by (unfold bias; lia). rewrite <- Hc.
  exists (Zpos m). reflexivity.
Qed.

(** [SFcompare] on valid numbers compares the values. *)
Lemma SFcompare_val (x y : spec_float) :
  valid_binary x = true -> valid_binary y = true ->
  is_nan_SF x = false -> is_nan_SF y = false ->
  SFcompare x y = Some (SFval x ?= SFval y).
Proof.
  intros Hx Hy Nx Ny. pose proof huge_pos as Hh.
  assert (L : forall a b, a < b -> Lt = (a ?= b)) by (intros; symmetry; now apply Z.compare_lt_iff).
  assert (G : forall a b, b < a -> Gt = (a ?= b)) by (intros; symmetry; now apply Z.compare_gt_iff).
  destruct x as [sx|sx| |sx mx ex]; try discriminate;
  destruct y as [sy|sy| |sy my ey]; try discriminate; cbn [SFcompare SFval]; f_equal.
  - destruct sy; cbn [cond_Zopp]; [apply G|apply L]; lia.
  - pose proof (SFval_finite_bound sy my ey Hy).
    destruct sy; cbn [cond_Zopp]; [apply G|apply L]; lia.
  - destruct sx; cbn [cond_Zopp]; [apply L|apply G]; lia.
  - destruct sx, sy; cbn [cond_Zopp]; rewrite ?Z.compare_refl; try reflexivity;
      try (apply L; lia); apply G; lia.
  - pose proof (SFval_finite_bound sy my ey Hy).
    destruct sx, sy; cbn [cond_Zopp]; [apply L|apply L|apply G|apply G]; lia.
  - pose proof (SFval_finite_bound sx mx ex Hx).
    destruct sx; cbn [cond_Zopp]; [apply L|apply G]; lia.
  - pose proof (SFval_finite_bound sx mx ex Hx).
    destruct sx, sy; cbn [cond_Zopp]; [apply G|apply L|apply G|apply L]; lia.
  - pose proof (SFval_finite_bound sx mx ex Hx) as Bx.
    pose proof (SFval_finite_bound sy my ey Hy) as By.
    destruct (valid_finite_inv sx mx ex Hx) as (_ & Hex & Hmx & Hnx).
    destruct (valid_finite_inv sy my ey Hy) as (_ & Hey & Hmy & Hny).
    assert (Hlt : forall m1 e1 m2 e2 : Z,
               -1074 <= e1 -> e1 < e2 -> 0 < m1 < 2 ^ 53 -> 2 ^ 52 <= m2 ->
               m1 * 2 ^ (e1 + bias) < m2 * 2 ^ (e2 + bias)).
    { intros m1 e1 m2 e2 H1 H2 H3 H4. unfold bias.
      replace (e2 + 2148) with ((e2 - e1) + (e1 + 2148)) by lia.
      rewrite (Z.pow_add_r 2 (e2 - e1) (e1 + 2148)) by lia.
      assert (HA : 0 < 2 ^ (e1 + 2148)) by (apply pow2_pos; lia).
      assert (HB : 2 ^ 1 <= 2 ^ (e2 - e1)) by (apply pow2_le; lia).
      change (2 ^ 1) with 2 in HB.
      assert (HP : 2 ^ 53 = 2 * 2 ^ 52) by reflexivity.
      assert (HQ : 0 < 2 ^ 52) by (apply pow2_pos; lia).
      apply Z.lt_le_trans with (2 ^ 53 * 2 ^ (e1 + 2148)).
      - apply Z.mul_lt_mono_pos_r; lia.
      - rewrite Z.mul_assoc. apply Z.mul_le_mono_nonneg_r; [lia|].
        rewrite HP. generalize dependent (2 ^ (e2 - e1)). generalize dependent (2 ^ 52).
        intros. nia. }
    assert (Heq : forall m1 m2 e : Z, -1074 <= e ->
               (m1 * 2 ^ (e + bias) ?= m2 * 2 ^ (e + bias)) = (m1 ?= m2)).
    { intros. symmetry. apply Zmult_compare_compat_r.
      apply Z.lt_gt, pow2_pos. unfold bias. lia. }
    destruct sx, sy; cbn [cond_Zopp]; try (apply L; lia); try (apply G; lia).
    + destruct (Z.compare_spec ex ey) as [E|E|E].
      * subst ey. change (Pos.compare_cont Eq mx my) with (Pos.compare mx my).
        rewrite Z.compare_opp, Heq by lia. cbn [Z.compare].
        symmetry. apply Pos.compare_antisym.
      * apply G. pose proof (Hlt (Zpos mx) ex (Zpos my) ey). lia.
      * apply L. pose proof (Hlt (Zpos my) ey (Zpos mx) ex). lia.
    + destruct (Z.compare_spec ex ey) as [E|E|E].
      * subst ey. change (Pos.compare_cont Eq mx my) with (Pos.compare mx my).
        rewrite Heq by lia. reflexivity.
      * apply L. pose proof (Hlt (Zpos mx) ex (Zpos my) ey). lia.
      * apply G. pose proof (Hlt (Zpos my) ey (Zpos mx) ex). lia.
Qed.

Lemma SFcompare_refl (x : spec_float) :
  valid_binary x = true -> is_nan_SF x = false -> SFcompare x x = Some Eq.
Proof. intros V N. rewrite SFcompare_val by assumption. now rewrite Z.compare_refl. Qed.

Lemma aligned_val (s : bool) (m : positive) (e z : Z) :
  - bias <= z <= e ->
  cond_Zopp s (Zpos (fst (shl_align m e z))) * 2 ^ (z + bias)
  = cond_Zopp s (Zpos m * 2 ^ (e + bias)).
Proof.
  intros H. destruct (shl_align_spec m e z) as [_ Hf]. rewrite Hf.
  replace (Z.min e z) with z by lia.
  destruct s; cbn [cond_Zopp]; rewrite <- (scale_split (Zpos m) e z) by lia; ring.
Qed.

(** Sum, difference and product of finite numbers: never [NaN], and the
    value is the exact result rounded. *)
Lemma SFadd_spec (x y : spec_float) :
  valid_binary x = true -> valid_binary y = true ->
  finite_SF x = true -> finite_SF y = true ->
  is_nan_SF (SFadd prec emax x y) = false /\
  SFval (SFadd prec emax x y) = RND (SFval x + SFval y).
Proof.
  intros Vx Vy Fx Fy.
  destruct x as [sx|sx| |sx mx ex]; try discriminate;
  destruct y as [sy|sy| |sy my ey]; try discriminate.
  - split; [now destruct sx, sy|]. now destruct sx, sy.
  - split; [reflexivity|]. cbn [SFadd]. rewrite Z.add_0_l.
    symmetry. now apply RND_valid.
  - split; [reflexivity|]. cbn [SFadd]. cbn [SFval]. rewrite Z.add_0_r.
    symmetry. now apply (RND_valid (S754_finite sx mx ex)).
  - cbn [SFadd].
    destruct (valid_finite_inv sx mx ex Vx) as (_ & Hex & _).
    destruct (valid_finite_inv sy my ey Vy) as (_ & Hey & _).
    set (ez := Z.min ex ey).
    destruct (binary_normalize_spec
                (cond_Zopp sx (Zpos (fst (shl_align mx ex ez)))
                 + cond_Zopp sy (Zpos (fst (shl_align my ey ez)))) ez) as [Hn Hv].
    { unfold bias, ez. lia. }
    split.
    + destruct (binary_normalize _ _ _ _ _); try reflexivity. now elim Hn.
    + rewrite Hv. f_equal. rewrite Z.mul_add_distr_r.
      rewrite !aligned_val by (unfold bias, ez; lia). reflexivity.
Qed.

Lemma SFsub_spec (x y : spec_float) :
  valid_binary x = true -> valid_binary y = true ->
  finite_SF x = true -> finite_SF y = true ->
  is_nan_SF (SFsub prec emax x y) = false /\
  SFval (SFsub prec emax x y) = RND (SFval x - SFval y).
Proof.
  intros Vx Vy Fx Fy.
  destruct x as [sx|sx| |sx mx ex]; try discriminate;
  destruct y as [sy|sy| |sy my ey]; try discriminate.
  - split; [now destruct sx, sy|]. now destruct sx, sy.
  - split; [reflexivity|]. cbn [SFsub].
    pose proof (RND_valid (S754_finite sy my ey) Vy Fy) as E.
    cbn [SFval] in *. rewrite Z.sub_0_l, RND_opp, E. destruct sy; cbn [negb cond_Zopp]; lia.
  - split; [reflexivity|]. cbn [SFsub]. cbn [SFval]. rewrite Z.sub_0_r.
    symmetry. now apply (RND_valid (S754_finite sx mx ex)).
  - cbn [SFsub].
    destruct (valid_finite_inv sx mx ex Vx) as (_ & Hex & _).
    destruct (valid_finite_inv sy my ey Vy) as (_ & Hey & _).
    set (ez := Z.min ex ey).
    destruct (binary_normalize_spec
                (cond_Zopp sx (Zpos (fst (shl_align mx ex ez)))
                 - cond_Zopp sy (Zpos (fst (shl_align my ey ez)))) ez) as [Hn Hv].
    { unfold bias, ez. lia. }
    split.
    + destruct (binary_normalize _ _ _ _ _); try reflexivity. now elim Hn.
    + rewrite Hv. f_equal. rewrite Z.mul_sub_distr_r.
      rewrite !aligned_val by (unfold bias, ez; lia). reflexivity.
Qed.

Lemma SFmul_spec (x y : spec_float) :
  valid_binary x = true -> valid_binary y = true ->
  finite_SF x = true -> finite_SF y = true ->
  is_nan_SF (SFmul prec emax x y) = false /\
  SFval (SFmul prec emax x y) = RND (SFval x * SFval y / 2 ^ bias).
Proof.
  intros Vx Vy Fx Fy.
  assert (Hb : 0 < 2 ^ bias) by (apply pow2_pos; unfold bias; lia).
  destruct x as [sx|sx| |sx mx ex]; try discriminate;
  destruct y as [sy|sy| |sy my ey]; try discriminate;
    try (split; [reflexivity|]; cbn [SFmul SFval];
         rewrite ?Z.mul_0_l, ?Z.mul_0_r, Z.div_0_l by lia; reflexivity).
  cbn [SFmul].
  destruct (valid_finite_inv sx mx ex Vx) as (_ & Hex & Hmx & Hnx).
  destruct (valid_finite_inv sy my ey Vy) as (_ & Hey & Hmy & Hny).
  destruct (bra_exact_spec (xorb sx sy) (mx * my) (ex + ey)) as [Hn Hv].
  { unfold bias. lia. }
  { rewrite fexp_eq, digits2_pos_log2.
    pose proof (Z.log2_mul_below (Zpos mx) (Zpos my) ltac:(lia) ltac:(lia)) as Hl.
    change (Zpos mx * Zpos my) with (Zpos (mx * my)) in Hl.
    pose proof (Z.log2_nonneg (Zpos mx)). pose proof (Z.log2_nonneg (Zpos my)).
    assert (Hlx : -1074 < ex -> 52 <= Z.log2 (Zpos mx)).
    { intros H1. apply Z.log2_le_pow2; [lia|]. now apply Hnx. }
    assert (Hly : -1074 < ey -> 52 <= Z.log2 (Zpos my)).
    { intros H1. apply Z.log2_le_pow2; [lia|]. now apply Hny. }
    lia. }
  split.
  - destruct (binary_round_aux _ _ _ _ _ _); try reflexivity. now elim Hn.
  - rewrite Hv. cbn [SFval].
    assert (Hpos : 0 < Zpos (mx * my) * 2 ^ (ex + ey + bias)).
    { apply Z.mul_pos_pos; [lia|]. apply pow2_pos. unfold bias. lia. }
    rewrite cond_Zopp_RND by assumption. f_equal.
    assert (E : Zpos mx * 2 ^ (ex + bias) * (Zpos my * 2 ^ (ey + bias))
                = Zpos (mx * my) * 2 ^ (ex + ey + bias) * 2 ^ bias).
    { assert (P : 2 ^ (ex + ey + bias) * 2 ^ bias = 2 ^ (ex + bias) * 2 ^ (ey + bias)).
      { rewrite <- !Z.pow_add_r by (unfold bias; lia). f_equal. lia. }
      rewrite Pos2Z.inj_mul, <- (Z.mul_assoc _ (2 ^ (ex + ey + bias))), P. ring. }
    destruct sx, sy; cbn [cond_Zopp xorb];
      rewrite ?Z.mul_opp_l, ?Z.mul_opp_r, ?Z.opp_involutive, E;
      rewrite <- ?Z.mul_opp_l, Z.div_mul by lia; reflexivity.
Qed.

(** * Primitive floats *)

Lemma is_nan_spec (x : float) : is_nan x = is_nan_SF (Prim2SF x).
Proof.
  unfold is_nan. rewrite eqb_spec. unfold SFeqb.
  pose proof (Prim2SF_valid x) as V.
  destruct (is_nan_SF (Prim2SF x)) eqn:N.
  - destruct (Prim2SF x); try discriminate. reflexivity.
  - now rewrite SFcompare_refl.
Qed.

Lemma is_finite_spec (x : float) : is_finite x = finite_SF (Prim2SF x).
Proof.
  unfold is_finite, is_infinity. rewrite is_nan_spec, eqb_spec, abs_spec.
  change (Prim2SF infinity) with (S754_infinity false).
  destruct (Prim2SF x) as [s|s| |s m e]; reflexivity.
Qed.

Lemma finite_not_nan (x : float) : is_finite x = true -> is_nan x = false.
Proof.
  rewrite is_finite_spec, is_nan_spec. now destruct (Prim2SF x).
Qed.

Lemma scaled_bound (x : float) : - huge <= scaled x <= huge.
Proof. apply SFval_bound, Prim2SF_valid. Qed.

Lemma scaled_finite (x : float) : is_finite x = true -> - huge < scaled x < huge.
Proof. rewrite is_finite_spec. apply SFval_finite_lt, Prim2SF_valid. Qed.

Lemma finite_of_bound (x : float) :
  is_nan x = false -> - huge < scaled x < huge -> is_finite x = true.
Proof.
  rewrite is_finite_spec, is_nan_spec. unfold scaled.
  destruct (Prim2SF x) as [s|s| |s m e]; cbn [SFval is_nan_SF finite_SF]; try easy.
  destruct s; cbn [cond_Zopp]; lia.
Qed.

Lemma scaled_grid (x : float) : (2 ^ 1074 | scaled x).
Proof.
  unfold scaled. pose proof (Prim2SF_valid x) as V.
  destruct (Prim2SF x) as [s|s| |s m e]; cbn [SFval]; try apply Z.divide_0_r.
  - destruct s; cbn [cond_Zopp]; [apply Z.divide_opp_r|]; rewrite huge_eq;
      apply pow2_divide; lia.
  - destruct (valid_finite_inv s m e V) as (_ & He & _).
    destruct s; cbn [cond_Zopp]; [apply Z.divide_opp_r|];
      apply Z.divide_mul_r, pow2_divide; unfold bias; lia.
Qed.

Lemma scaled_multiple (x : float) :
  is_finite x = true -> 0 < scaled x -> (2 ^ cexp (scaled x) | scaled x).
Proof.
  rewrite is_finite_spec. unfold scaled. pose proof (Prim2SF_valid x) as V.
  destruct (Prim2SF x) as [s|s| |s m e]; cbn [SFval finite_SF]; try lia; try discriminate.
  intros _ Hpos. pose proof (SFval_finite_bound s m e V).
  destruct s; cbn [cond_Zopp] in *; [lia|].
  destruct (valid_finite_inv false m e V) as (Hc & He & _).
  rewrite cexp_scaled by (unfold bias; lia). rewrite <- Hc.
  exists (Zpos m). reflexivity.
Qed.

Lemma RND_scaled (x : float) : is_finite x = true -> RND (scaled x) = scaled x.
Proof. rewrite is_finite_spec. apply RND_valid, Prim2SF_valid. Qed.

(** Comparisons of numbers other than [NaN] compare the values. *)
Lemma compare_val (x y : float) :
  is_nan x = false -> is_nan y = false ->
  SFcompare (Prim2SF x) (Prim2SF y) = Some (scaled x ?= scaled y).
Proof.
  rewrite !is_nan_spec. intros. apply SFcompare_val; auto using Prim2SF_valid.
Qed.

Lemma ltb_val (x y : float) :
  is_nan x = false -> is_nan y = false -> (x <? y)%float = (scaled x <? scaled y).
Proof.
  intros Nx Ny. rewrite ltb_spec. unfold SFltb. rewrite compare_val by assumption.
  unfold Z.ltb. now destruct (scaled x ?= scaled y).
Qed.

Lemma leb_val (x y : float) :
  is_nan x = false -> is_nan y = false -> (x <=? y)%float = (scaled x <=? scaled y).
Proof.
  intros Nx Ny. rewrite leb_spec. unfold SFleb. rewrite compare_val by assumption.
  unfold Z.leb. now destruct (scaled x ?= scaled y).
Qed.

Lemma eqb_val (x y : float) :
  is_nan x = false -> is_nan y = false -> (x =? y)%float = (scaled x =? scaled y).
Proof.
  intros Nx Ny. rewrite eqb_spec. unfold SFeqb. rewrite compare_val by assumption.
  destruct (Z.eqb_spec (scaled x) (scaled y)) as [E|E].
  - now rewrite E, Z.compare_refl.
  - destruct (Z.compare_spec (scaled x) (scaled y)); try reflexivity. contradiction.
Qed.

Lemma eqb_true_val (x y : float) :
  (x =? y)%float = true -> is_nan x = false /\ is_nan y = false /\ scaled x = scaled y.
Proof.
  intros H. rewrite eqb_spec in H. unfold SFeqb in H.
  assert (Nx : is_nan x = false).
  { rewrite is_nan_spec. destruct (Prim2SF x); try reflexivity. discriminate. }
  assert (Ny : is_nan y = false).
  { rewrite is_nan_spec. destruct (Prim2SF x), (Prim2SF y); try reflexivity; discriminate. }
  repeat split; try assumption. rewrite compare_val in H by assumption.
  apply Z.compare_eq. now destruct (scaled x ?= scaled y).
Qed.

Lemma fle_leb (x y : float) : fle x y <-> (x <=? y)%float = true.
Proof.
  split.
  - intros (Nx & Ny & H). rewrite leb_val by assumption. now apply Z.leb_le.
  - intros H. rewrite leb_spec in H. unfold SFleb in H.
    assert (Nx : is_nan x = false).
    { rewrite is_nan_spec. destruct (Prim2SF x); try reflexivity. discriminate. }
    assert (Ny : is_nan y = false).
    { rewrite is_nan_spec. destruct (Prim2SF x), (Prim2SF y); try reflexivity; discriminate. }
    repeat split; try assumption.
    rewrite compare_val in H by assumption. apply Z.leb_le. unfold Z.leb.
    now destruct (scaled x ?= scaled y).
Qed.

Lemma fle_refl (x : float) : is_nan x = false -> fle x x.
Proof. intros. repeat split; auto. lia. Qed.

Lemma fle_trans (x y z : float) : fle x y -> fle y z -> fle x z.
Proof. intros (?&?&?) (?&?&?). repeat split; auto. lia. Qed.

Lemma fle_finite (lo x hi : float) :
  fle lo x -> fle x hi -> is_finite lo = true -> is_finite hi = true ->
  is_finite x = true.
Proof.
  intros (_ & Nx & H1) (_ & _ & H2) Fl Fh. apply finite_of_bound; [assumption|].
  pose proof (scaled_finite lo Fl). pose proof (scaled_finite hi Fh). lia.
Qed.

(** The primitive operations on finite operands. *)
Lemma add_val (x y : float) :
  is_finite x = true -> is_finite y = true ->
  is_nan (x + y) = false /\ scaled (x + y) = RND (scaled x + scaled y).
Proof.
  rewrite !is_finite_spec, is_nan_spec. unfold scaled. rewrite add_spec.
  intros. apply SFadd_spec; auto using Prim2SF_valid.
Qed.

Lemma sub_val (x y : float) :
  is_finite x = true -> is_finite y = true ->
  is_nan (x - y) = false /\ scaled (x - y) = RND (scaled x - scaled y).
Proof.
  rewrite !is_finite_spec, is_nan_spec. unfold scaled. rewrite sub_spec.
  intros. apply SFsub_spec; auto using Prim2SF_valid.
Qed.

Lemma mul_val (x y : float) :
  is_finite x = true -> is_finite y = true ->
  is_nan (x * y) = false /\ scaled (x * y) = RND (scaled x * scaled y / 2 ^ bias).
Proof.
  rewrite !is_finite_spec, is_nan_spec. unfold scaled. rewrite mul_spec.
  intros. apply SFmul_spec; auto using Prim2SF_valid.
Qed.

Lemma shape_of (x : float) : is_nan x = false -> shape x.
Proof.
  rewrite is_nan_spec. intros N. destruct (Prim2SF x) as [s|s| |s m e] eqn:E;
    try discriminate.
  - apply shape_fin. now rewrite is_finite_spec, E.
  - now apply (shape_inf x s).
  - apply shape_fin. now rewrite is_finite_spec, E.
Qed.

Lemma scaled_inf (x : float) (s : bool) :
  Prim2SF x = S754_infinity s -> scaled x = cond_Zopp s huge /\ is_nan x = false.
Proof. intros E. unfold scaled. rewrite is_nan_spec, E. split; reflexivity. Qed.

Lemma inf_cases (x : float) (s : bool) :
  Prim2SF x = S754_infinity s ->
  (s = true /\ scaled x = - huge) \/ (s = false /\ scaled x = huge).
Proof.
  intros E. destruct (scaled_inf x s E) as [V _]. destruct s; [left|right]; auto.
Qed.

(** An infinite first operand with a finite second one. *)
Lemma add_inf (x y : float) (s : bool) :
  Prim2SF x = S754_infinity s -> is_finite y = true ->
  Prim2SF (x + y) = S754_infinity s.
Proof.
  rewrite is_finite_spec, add_spec. intros -> F.
  now destruct (Prim2SF y).
Qed.

Lemma sub_inf (x y : float) (s : bool) :
  Prim2SF x = S754_infinity s -> is_finite y = true ->
  Prim2SF (x - y) = S754_infinity s.
Proof.
  rewrite is_finite_spec, sub_spec. intros -> F.
  now destruct (Prim2SF y).
Qed.

Lemma mul_inf (x y : float) (s : bool) :
  Prim2SF x = S754_infinity s -> is_finite y = true -> 0 < scaled y ->
  Prim2SF (x * y) = S754_infinity s.
Proof.
  rewrite is_finite_spec, mul_spec. unfold scaled. intros -> F P.
  destruct (Prim2SF y) as [sy|sy| |sy my ey]; try discriminate; cbn [SFval] in P; try lia.
  destruct sy; cbn [cond_Zopp] in P; [lia|]. cbn. now destruct s.
Qed.

(** ** Monotonicity and exactness of [+], [-] and [*] *)

(** Monotonicity of a binary operation, from its value on finite operands
    and its result on an infinite first operand. *)
Section Mono.

Variable op : float -> float -> float.

Variable ex : Z -> Z -> Z.

Hypothesis op_val : forall x y, is_finite x = true -> is_finite y = true ->
  is_nan (op x y) = false /\ scaled (op x y) = RND (ex (scaled x) (scaled y)).

Hypothesis op_inf : forall x y s, Prim2SF x = S754_infinity s -> is_finite y = true ->
  Prim2SF (op x y) = S754_infinity s.

Lemma op_not_nan (x y : float) :
  is_nan x = false -> is_finite y = true -> is_nan (op x y) = false.
Proof.
  intros Nx Fy. destruct (shape_of x Nx) as [Fx|s Ex].
  - now apply op_val.
  - now apply (scaled_inf _ s), op_inf.
Qed.

Lemma op_mono (x1 x2 y1 y2 : float) :
  (forall a1 a2 b1 b2, a1 <= a2 -> scaled y1 <= b1 <= scaled y1 -> scaled y2 <= b2 <= scaled y2 ->
     ex a1 b1 <= ex a2 b2) ->
  fle x1 x2 -> is_finite y1 = true -> is_finite y2 = true ->
  fle (op x1 y1) (op x2 y2).
Proof.
  intros Hex (N1 & N2 & Hx) F1 F2.
  pose proof (op_not_nan x1 y1 N1 F1) as R1. pose proof (op_not_nan x2 y2 N2 F2) as R2.
  repeat split; try assumption.
  pose proof (scaled_bound (op x1 y1)) as B1. pose proof (scaled_bound (op x2 y2)) as B2.
  destruct (shape_of x1 N1) as [Fx1|s1 E1], (shape_of x2 N2) as [Fx2|s2 E2].
  - destruct (op_val x1 y1 Fx1 F1) as [_ ->]. destruct (op_val x2 y2 Fx2 F2) as [_ ->].
    apply RND_mono, Hex; lia.
  - pose proof (scaled_finite x1 Fx1).
    destruct (inf_cases x2 s2 E2) as [[-> V]|[-> V]]; [lia|].
    destruct (scaled_inf _ _ (op_inf x2 y2 false E2 F2)) as [-> _]. cbn [cond_Zopp]. lia.
  - pose proof (scaled_finite x2 Fx2).
    destruct (inf_cases x1 s1 E1) as [[-> V]|[-> V]]; [|lia].
    destruct (scaled_inf _ _ (op_inf x1 y1 true E1 F1)) as [-> _]. cbn [cond_Zopp]. lia.
  - pose proof huge_pos.
    destruct (inf_cases x1 s1 E1) as [[-> V1]|[-> V1]];
      destruct (inf_cases x2 s2 E2) as [[-> V2]|[-> V2]]; try lia.
    + destruct (scaled_inf _ _ (op_inf x1 y1 true E1 F1)) as [-> _].
      destruct (scaled_inf _ _ (op_inf x2 y2 true E2 F2)) as [-> _]. lia.
    + destruct (scaled_inf _ _ (op_inf x1 y1 true E1 F1)) as [-> _]. cbn [cond_Zopp]. lia.
    + destruct (scaled_inf _ _ (op_inf x1 y1 false E1 F1)) as [-> _].
      destruct (scaled_inf _ _ (op_inf x2 y2 false E2 F2)) as [-> _]. lia.
Qed.

End Mono.

Lemma add_not_nan (x y : float) :
  is_nan x = false -> is_finite y = true -> is_nan (x + y) = false.
Proof. apply (op_not_nan PrimFloat.add Z.add add_val add_inf). Qed.

Lemma add_not_nan_l (x y : float) :
  is_finite x = true -> is_nan y = false -> is_nan (x + y) = false.
Proof.
  intros Fx Ny. destruct (shape_of y Ny) as [Fy|s Ey].
  - now apply add_val.
  - rewrite is_nan_spec, add_spec, Ey. rewrite is_finite_spec in Fx.
    now destruct (Prim2SF x).
Qed.

Lemma sub_not_nan (x y : float) :
  is_nan x = false -> is_finite y = true -> is_nan (x - y) = false.
Proof. apply (op_not_nan PrimFloat.sub Z.sub sub_val sub_inf). Qed.

Lemma add_mono (x1 x2 y1 y2 : float) :
  fle x1 x2 -> fle y1 y2 -> is_finite y1 = true -> is_finite y2 = true ->
  fle (x1 + y1) (x2 + y2).
Proof.
  intros Hx (_ & _ & Hy) F1 F2.
  apply (op_mono PrimFloat.add Z.add add_val add_inf); try assumption. intros. lia.
Qed.

Lemma sub_mono (x1 x2 y1 y2 : float) :
  fle x1 x2 -> fle y2 y1 -> is_finite y1 = true -> is_finite y2 = true ->
  fle (x1 - y1) (x2 - y2).
Proof.
  intros Hx (_ & _ & Hy) F1 F2.
  apply (op_mono PrimFloat.sub Z.sub sub_val sub_inf); try assumption. intros. lia.
Qed.

Lemma sub_le_self (x c : float) :
  is_nan x = false -> is_finite c = true -> 0 <= scaled c -> fle (x - c) x.
Proof.
  intros Nx Fc Pc. repeat split; try assumption; [now apply sub_not_nan|].
  destruct (shape_of x Nx) as [Fx|s Ex].
  - destruct (sub_val x c Fx Fc) as [_ ->]. rewrite <- (RND_scaled x Fx) at 2.
    apply RND_mono. lia.
  - unfold scaled. rewrite (sub_inf x c s Ex Fc), Ex. lia.
Qed.

Lemma mul_pos_val (c : float) :
  is_finite c = true -> 0 < scaled c ->
  forall x y, is_finite x = true -> is_finite y = true ->
    is_nan (x * c) = false /\ scaled (x * c) = RND (scaled x * scaled c / 2 ^ bias).
Proof. intros Fc Pc x _ Fx _. now apply mul_val. Qed.

Lemma mul_not_nan (x c : float) :
  is_nan x = false -> is_finite c = true -> 0 < scaled c -> is_nan (x * c) = false.
Proof.
  intros Nx Fc Pc.
  apply (op_not_nan (fun a _ => a * c)%float (fun a _ => a * scaled c / 2 ^ bias)
           (mul_pos_val c Fc Pc) (fun a _ s E _ => mul_inf a c s E Fc Pc) x c Nx Fc).
Qed.

Lemma mul_mono (x1 x2 c : float) :
  fle x1 x2 -> is_finite c = true -> 0 < scaled c -> fle (x1 * c) (x2 * c).
Proof.
  intros Hx Fc Pc.
  apply (op_mono (fun a _ => a * c)%float (fun a _ => a * scaled c / 2 ^ bias)
           (mul_pos_val c Fc Pc) (fun a _ s E _ => mul_inf a c s E Fc Pc) x1 x2 c c);
    try assumption.
  intros a1 a2 _ _ Ha _ _. apply Z.div_le_mono; [apply pow2_pos; unfold bias; lia|].
  apply Z.mul_le_mono_nonneg_r; lia.
Qed.

Lemma mul_mono_l (c x1 x2 : float) :
  is_finite c = true -> 0 < scaled c -> is_finite x1 = true -> is_finite x2 = true ->
  fle x1 x2 -> fle (c * x1) (c * x2).
Proof.
  intros Fc Pc F1 F2 (_ & _ & H).
  destruct (mul_val c x1 Fc F1) as [N1 V1]. destruct (mul_val c x2 Fc F2) as [N2 V2].
  repeat split; try assumption. rewrite V1, V2. apply RND_mono.
  apply Z.div_le_mono; [apply pow2_pos; unfold bias; lia|].
  apply Z.mul_le_mono_nonneg_l; lia.
Qed.

(** Subtraction is exact when both operands sit on a common grid [2^k] on
    which the difference has at most 53 bits. *)
Lemma sub_grid (x c : float) (k : Z) :
  is_finite x = true -> is_finite c = true -> 1074 <= k ->
  (2 ^ k | scaled x) -> (2 ^ k | scaled c) ->
  Z.abs (scaled x - scaled c) < 2 ^ (k + 53) -> Z.abs (scaled x - scaled c) < huge ->
  is_finite (x - c) = true /\ scaled (x - c) = scaled x - scaled c.
Proof.
  intros Fx Fc Hk Dx Dc Hb Hh. destruct (sub_val x c Fx Fc) as [N V].
  rewrite RND_exact with (k := k) in V; try assumption.
  - split; [|assumption]. apply finite_of_bound; [assumption|]. lia.
  - now apply Z.divide_sub_r.
Qed.

(** The comparator [b.score - a.score] is negative exactly when
    [b.score < a.score]: a difference of finite numbers never rounds to
    zero or changes sign. *)
Lemma sub_neg_iff (a b : float) :
  is_finite a = true -> is_finite b = true ->
  (a - b <? 0)%float = (scaled a <? scaled b).
Proof.
  intros Fa Fb. destruct (sub_val a b Fa Fb) as [N V].
  rewrite ltb_val by (assumption || reflexivity). rewrite V. change (scaled 0) with 0.
  assert (P : 0 < 2 ^ 1074) by (apply pow2_pos; lia).
  assert (H0 : RND 0 = 0) by reflexivity.
  destruct (Z.ltb_spec (scaled a) (scaled b)) as [H|H].
  - apply Z.ltb_lt.
    assert (D : (2 ^ 1074 | scaled a - scaled b)) by (apply Z.divide_sub_r; apply scaled_grid).
    destruct D as [q Hq].
    assert (Hle : scaled a - scaled b <= - 2 ^ 1074) by nia.
    apply RND_mono in Hle.
    assert (E : RND (- 2 ^ 1074) = - 2 ^ 1074).
    { apply (RND_exact _ 1074); rewrite ?Z.abs_opp, ?Z.abs_eq by lia.
      - lia.
      - apply Z.divide_opp_r, Z.divide_refl.
      - apply pow2_lt. lia.
      - rewrite huge_eq. apply pow2_lt. lia. }
    lia.
  - apply Z.ltb_ge. rewrite <- H0. apply RND_mono. lia.
Qed.

(** * The JavaScript built-ins *)

Lemma Math_max_val (a b : float) :
  is_nan a = false -> is_nan b = false ->
  is_nan (Math_max a b) = false /\ scaled (Math_max a b) = Z.max (scaled a) (scaled b).
Proof.
  intros Na Nb. unfold Math_max. rewrite Na, Nb. cbn [orb].
  rewrite !ltb_val by assumption.
  destruct (Z.ltb_spec (scaled a) (scaled b)); [split; [assumption|lia]|].
  destruct (Z.ltb_spec (scaled b) (scaled a)); [split; [assumption|lia]|].
  destruct (get_sign a); split; try assumption; lia.
Qed.

Lemma Math_min_val (a b : float) :
  is_nan a = false -> is_nan b = false ->
  is_nan (Math_min a b) = false /\ scaled (Math_min a b) = Z.min (scaled a) (scaled b).
Proof.
  intros Na Nb. unfold Math_min. rewrite Na, Nb. cbn [orb].
  rewrite !ltb_val by assumption.
  destruct (Z.ltb_spec (scaled a) (scaled b)); [split; [assumption|lia]|].
  destruct (Z.ltb_spec (scaled b) (scaled a)); [split; [assumption|lia]|].
  destruct (get_sign a); split; try assumption; lia.
Qed.

Lemma clamp_val (v lo hi : float) :
  is_nan v = false -> is_nan lo = false -> is_nan hi = false ->
  is_nan (clamp v lo hi) = false /\
  scaled (clamp v lo hi) = Z.min (scaled hi) (Z.max (scaled lo) (scaled v)).
Proof.
  intros Nv Nl Nh. unfold clamp.
  destruct (Math_max_val lo v Nl Nv) as [N1 V1].
  destruct (Math_min_val hi (Math_max lo v) Nh N1) as [N2 V2].
  split; [assumption|]. now rewrite V2, V1.
Qed.

Lemma clamp_finite (v lo hi : float) :
  is_nan v = false -> is_finite lo = true -> is_finite hi = true ->
  is_finite (clamp v lo hi) = true.
Proof.
  intros Nv Fl Fh.
  destruct (clamp_val v lo hi Nv (finite_not_nan _ Fl) (finite_not_nan _ Fh)) as [N V].
  apply finite_of_bound; [assumption|].
  pose proof (scaled_finite lo Fl). pose proof (scaled_finite hi Fh). pose proof (scaled_bound v). lia.
Qed.

Lemma clamp_mono (v1 v2 lo hi : float) :
  fle v1 v2 -> is_finite lo = true -> is_finite hi = true ->
  fle (clamp v1 lo hi) (clamp v2 lo hi).
Proof.
  intros (N1 & N2 & H) Fl Fh.
  destruct (clamp_val v1 lo hi N1 (finite_not_nan _ Fl) (finite_not_nan _ Fh)) as [M1 V1].
  destruct (clamp_val v2 lo hi N2 (finite_not_nan _ Fl) (finite_not_nan _ Fh)) as [M2 V2].
  repeat split; try assumption. lia.
Qed.

Lemma clamp_le_hi (v lo hi : float) :
  is_nan v = false -> is_finite lo = true -> is_finite hi = true ->
  fle (clamp v lo hi) hi.
Proof.
  intros Nv Fl Fh.
  destruct (clamp_val v lo hi Nv (finite_not_nan _ Fl) (finite_not_nan _ Fh)) as [N V].
  repeat split; [assumption|now apply finite_not_nan|lia].
Qed.

Lemma clamp_ge_lo (v lo hi : float) :
  is_nan v = false -> is_finite lo = true -> is_finite hi = true ->
  scaled lo <= scaled hi -> fle lo (clamp v lo hi).
Proof.
  intros Nv Fl Fh Hlh.
  destruct (clamp_val v lo hi Nv (finite_not_nan _ Fl) (finite_not_nan _ Fh)) as [N V].
  repeat split; [now apply finite_not_nan|assumption|lia].
Qed.

(** [clamp v 0 hi] is never [-0]: it is the literal [0] or positive. *)
Lemma clamp_zero_or_pos (v hi : float) :
  is_nan v = false -> is_nan hi = false -> 0 < scaled hi ->
  clamp v 0 hi = 0%float \/ 0 < scaled (clamp v 0 hi).
Proof.
  intros Nv Nh Ph. unfold clamp.
  assert (H0 : Math_max 0 v = 0%float \/ 0 < scaled (Math_max 0 v)).
  { unfold Math_max. rewrite Nv. cbn [orb is_nan]. change (is_nan 0) with false. cbn [orb].
    rewrite !ltb_val by (assumption || reflexivity). change (scaled 0) with 0.
    destruct (Z.ltb_spec 0 (scaled v)); [now right|].
    destruct (Z.ltb_spec (scaled v) 0); [now left|].
    change (get_sign 0) with false. now left. }
  destruct (Math_max_val 0 v eq_refl Nv) as [N1 _].
  unfold Math_min. rewrite Nh, N1. cbn [orb]. rewrite !ltb_val by assumption.
  destruct (Z.ltb_spec (scaled hi) (scaled (Math_max 0 v))); [now right|].
  destruct (Z.ltb_spec (scaled (Math_max 0 v)) (scaled hi)); [assumption|].
  destruct (get_sign hi); [now right|assumption].
Qed.

Lemma range_forall (k : nat) (P : Z -> bool) :
  forallb P (range k) = true -> forall n, 0 <= n < Z.of_nat k -> P n = true.
Proof.
  intros H n Hn. rewrite forallb_forall in H. apply H.
  unfold range. rewrite <- (Z2Nat.id n) by lia. apply in_map, in_seq. lia.
Qed.

Lemma upto100_forall (P : Z -> bool) :
  forallb P upto100 = true -> forall n, 0 <= n <= 100 -> P n = true.
Proof. intros H n Hn. apply (range_forall 101 P H). lia. Qed.

Ltac lit := vm_compute; reflexivity.

(** [Number_of_Z n] is the number [n], for the integers of [0..100]. *)
Lemma Number_of_Z_val (n : Z) :
  0 <= n <= 100 ->
  is_finite (Number_of_Z n) = true /\ scaled (Number_of_Z n) = n * 2 ^ bias.
Proof.
  intros Hn.
  pose proof (upto100_forall
    (fun n => is_finite (Number_of_Z n) && (scaled (Number_of_Z n) =? n * 2 ^ bias))%bool
    ltac:(vm_compute; reflexivity) n Hn) as H.
  cbv beta in H. apply andb_true_iff in H. destruct H as [H1 H2].
  split; [assumption|]. now apply Z.eqb_eq.
Qed.

Lemma leb_Number_of_Z (a b : Z) :
  0 <= a <= 100 -> 0 <= b <= 100 -> a <= b ->
  (Number_of_Z a <=? Number_of_Z b)%float = true.
Proof.
  intros Ha Hb Hab.
  destruct (Number_of_Z_val a Ha) as [Fa Va]. destruct (Number_of_Z_val b Hb) as [Fb Vb].
  rewrite leb_val by now apply finite_not_nan. rewrite Va, Vb. apply Z.leb_le.
  apply Z.mul_le_mono_nonneg_r; [|assumption]. apply Z.lt_le_incl, pow2_pos. unfold bias. lia.
Qed.

Lemma round_index_bounds (V : Z) :
  0 <= V <= 100 * 2 ^ bias -> 0 <= round_index V <= 100.
Proof.
  intros HV. unfold round_index.
  assert (Hb : 0 < 2 ^ bias) by (apply pow2_pos; unfold bias; lia).
  assert (E : 2 ^ (bias + 1) = 2 ^ bias * 2) by (rewrite Z.pow_add_r by (unfold bias; lia); reflexivity).
  rewrite E. split.
  - apply Z.div_pos; lia.
  - assert ((2 * V + 2 ^ bias) / (2 ^ bias * 2) < 101); [|lia].
    apply Z.div_lt_upper_bound; lia.
Qed.

Lemma round_index_mono (V1 V2 : Z) : V1 <= V2 -> round_index V1 <= round_index V2.
Proof.
  intros H. unfold round_index. apply Z.div_le_mono; [|lia].
  apply pow2_pos. unfold bias. lia.
Qed.

Lemma scaled_100 : scaled 100 = 100 * 2 ^ bias.
Proof. vm_compute. reflexivity. Qed.

Lemma scaled_8 : scaled 8 = 8 * 2 ^ bias.
Proof. lit. Qed.

(** [Math.round] on a non-negative finite value that is at most 100. *)
Lemma Math_round_small (x : float) :
  is_finite x = true -> x = 0%float \/ 0 < scaled x -> scaled x <= 100 * 2 ^ bias ->
  Math_round x = Number_of_Z (round_index (scaled x)).
Proof.
  intros Fx [->|Hpos] Hle; [vm_compute; reflexivity|].
  pose proof (Prim2SF_valid x) as V.
  rewrite is_finite_spec in Fx. unfold Math_round. unfold scaled in *.
  destruct (Prim2SF x) as [s|s| |s m e]; try discriminate; cbn [SFval] in *; try lia.
  destruct (valid_finite_inv s m e V) as (_ & He & Hm & Hn).
  assert (Hs : s = false).
  { destruct s; [|reflexivity]. cbn [cond_Zopp] in Hpos.
    pose proof (SFval_finite_bound true m e V). lia. }
  subst s. cbn [cond_Zopp] in *.
  assert (Hb : 0 < 2 ^ bias) by (apply pow2_pos; unfold bias; lia).
  destruct (Z.leb_spec 0 e) as [He0|He0].
  - exfalso.
    assert (2 ^ 52 * 2 ^ bias <= Zpos m * 2 ^ (e + bias)).
    { assert (2 ^ bias <= 2 ^ (e + bias)) by (apply pow2_le; unfold bias; lia).
      apply Z.mul_le_mono_nonneg; lia. }
    assert (100 < 2 ^ 52) by reflexivity. nia.
  - assert (En : round_half_up false m e = round_index (Zpos m * 2 ^ (e + bias))).
    { unfold round_half_up, round_index. cbn [cond_Zopp].
      assert (Hp : 0 < 2 ^ (e + bias)) by (apply pow2_pos; unfold bias; lia).
      assert (Hq : 0 < 2 ^ (1 - e)) by (apply pow2_pos; lia).
      rewrite <- (Z.div_mul_cancel_r _ _ (2 ^ (e + bias))) by lia.
      f_equal.
      - rewrite Z.mul_add_distr_r, <- Z.pow_add_r by (unfold bias; lia).
        replace (- e + (e + bias)) with bias by lia. ring.
      - rewrite <- Z.pow_add_r by (unfold bias; lia). f_equal. lia. }
    rewrite En. destruct (Z.eqb_spec (round_index (Zpos m * 2 ^ (e + bias))) 0) as [E|E].
    + rewrite E. reflexivity.
    + reflexivity.
Qed.

(** [Math.round (clamp v 0 100)] is an integer of [0..100], given by
    [round_index] on the clamped value. *)
Lemma Math_round_clamp (v : float) :
  is_nan v = false ->
  Math_round (clamp v 0 100)
  = Number_of_Z (round_index (Z.min (100 * 2 ^ bias) (Z.max 0 (scaled v)))) /\
  0 <= round_index (Z.min (100 * 2 ^ bias) (Z.max 0 (scaled v))) <= 100.
Proof.
  intros Nv.
  destruct (clamp_val v 0 100 Nv eq_refl eq_refl) as [N V].
  rewrite scaled_100 in V. change (scaled 0) with 0 in V.
  assert (Hb : 0 < 2 ^ bias) by (apply pow2_pos; unfold bias; lia).
  split.
  - rewrite <- V. apply Math_round_small.
    + now apply clamp_finite.
    + apply clamp_zero_or_pos; [assumption|reflexivity|rewrite scaled_100; lia].
    + lia.
  - apply round_index_bounds. lia.
Qed.

Lemma SameValueZero_refl (x : float) : SameValueZero x x = true.
Proof. unfold SameValueZero, is_nan. now destruct (x =? x)%float. Qed.

(** ** The stable sort *)

(** Facts about [JS.sort] for a comparator that orders by an integer key. *)
Section SortFacts.

Context {A : Type} (cmp : A -> A -> float) (key : A -> Z) (ok : A -> Prop).

Hypothesis cmp_key : forall x y, ok x -> ok y -> (cmp y x <? 0)%float = (key x <? key y).

Lemma sort_insert_perm (x : A) (l : list A) : Permutation (sort_insert cmp x l) (x :: l).
Proof.
  induction l as [|y l IH]; cbn [sort_insert]; [reflexivity|].
  destruct (cmp y x <? 0)%float; [|reflexivity].
  rewrite IH. apply perm_swap.
Qed.

Lemma sort_perm (l : list A) : Permutation (sort cmp l) l.
Proof.
  induction l as [|x l IH]; cbn [sort]; [reflexivity|].
  rewrite sort_insert_perm. now constructor.
Qed.

Lemma sort_insert_sorted (x : A) (l : list A) :
  ok x -> Forall ok l ->
  StronglySorted (fun a b => key b <= key a) l ->
  StronglySorted (fun a b => key b <= key a) (sort_insert cmp x l).
Proof.
  intros Hx Hl Hs. induction Hs as [|y l Hs IH Hy]; cbn [sort_insert].
  - repeat constructor.
  - inversion Hl as [|? ? Oy Ol]; subst. rewrite (cmp_key x y Hx Oy).
    destruct (Z.ltb_spec (key x) (key y)) as [H|H].
    + constructor; [now apply IH|].
      eapply Permutation_Forall; [symmetry; apply sort_insert_perm|].
      constructor; [lia|assumption].
    + constructor; [now constructor|].
      constructor; [assumption|].
      eapply Forall_impl; [|exact Hy]. cbv beta. intros. lia.
Qed.

Lemma sort_sorted (l : list A) :
  Forall ok l -> StronglySorted (fun a b => key b <= key a) (sort cmp l).
Proof.
  induction l as [|x l IH]; cbn [sort]; intros H; [constructor|].
  inversion H; subst. apply sort_insert_sorted; auto.
  eapply Permutation_Forall; [symmetry; apply sort_perm|assumption].
Qed.

Lemma sort_insert_filter (p : A -> bool) (x : A) (l : list A) :
  (p x = true -> forall y, In y l -> p y = true -> (cmp y x <? 0)%float = false) ->
  filter p (sort_insert cmp x l) = filter p (x :: l).
Proof.
  intros H. induction l as [|y l IH]; cbn [sort_insert]; [reflexivity|].
  destruct (cmp y x <? 0)%float eqn:E; [|reflexivity].
  cbn [filter]. rewrite IH by (intros Px z Hz; apply H; [assumption|now right]).
  cbn [filter]. destruct (p x) eqn:Px; [|reflexivity].
  destruct (p y) eqn:Py; [|reflexivity].
  rewrite (H eq_refl y (or_introl eq_refl) Py) in E. discriminate.
Qed.

Lemma sort_filter (p : A -> bool) (l : list A) :
  (forall x y, In x l -> In y l -> p x = true -> p y = true ->
               (cmp y x <? 0)%float = false) ->
  filter p (sort cmp l) = filter p l.
Proof.
  induction l as [|x l IH]; cbn [sort]; intros H; [reflexivity|].
  rewrite sort_insert_filter.
  - cbn [filter]. rewrite IH; [reflexivity|].
    intros a b Ha Hb. apply H; now right.
  - intros Px y Hy Py. apply H; try assumption; [now left|right].
    apply (Permutation_in (l := sort cmp l)); [apply sort_perm|assumption].
Qed.

End SortFacts.

(** * The risk score *)

Lemma contrib_not_nan (x c k : float) :
  is_finite x = true -> is_finite c = true -> is_finite k = true -> 0 < scaled k ->
  is_nan ((x - c) * k) = false.
Proof.
  intros. apply mul_not_nan; try assumption. apply sub_not_nan; try assumption.
  now apply finite_not_nan.
Qed.

Lemma contrib_anti_not_nan (x c k : float) :
  is_finite x = true -> is_finite c = true -> is_finite k = true -> 0 < scaled k ->
  is_nan ((c - x) * k) = false.
Proof.
  intros. apply mul_not_nan; try assumption. apply sub_not_nan; try assumption.
  now apply finite_not_nan.
Qed.

(** A clamped contribution [clamp ((x - c) * k) lo hi] (or with [c - x])
    is finite, and monotone (antitone) in [x] for a positive factor [k]. *)
Lemma contrib_finite (x c k lo hi : float) :
  is_finite x = true -> is_finite c = true -> is_finite k = true -> 0 < scaled k ->
  is_finite lo = true -> is_finite hi = true ->
  is_finite (clamp ((x - c) * k) lo hi) = true.
Proof.
  intros Fx Fc Fk Pk Fl Fh. apply clamp_finite; try assumption.
  apply mul_not_nan; try assumption. apply sub_not_nan; try assumption.
  now apply finite_not_nan.
Qed.

Lemma contrib_anti_finite (x c k lo hi : float) :
  is_finite x = true -> is_finite c = true -> is_finite k = true -> 0 < scaled k ->
  is_finite lo = true -> is_finite hi = true ->
  is_finite (clamp ((c - x) * k) lo hi) = true.
Proof.
  intros Fx Fc Fk Pk Fl Fh. apply clamp_finite; try assumption.
  apply mul_not_nan; try assumption. apply sub_not_nan; try assumption.
  now apply finite_not_nan.
Qed.

Lemma contrib_mono (x1 x2 c k lo hi : float) :
  fle x1 x2 -> is_finite c = true -> is_finite k = true -> 0 < scaled k ->
  is_finite lo = true -> is_finite hi = true ->
  fle (clamp ((x1 - c) * k) lo hi) (clamp ((x2 - c) * k) lo hi).
Proof.
  intros Hx Fc Fk Pk Fl Fh. apply clamp_mono; try assumption.
  apply mul_mono; try assumption.
  apply sub_mono; try assumption. apply fle_refl. now apply finite_not_nan.
Qed.

Lemma contrib_anti (x1 x2 c k lo hi : float) :
  fle x1 x2 -> is_finite x1 = true -> is_finite x2 = true ->
  is_finite c = true -> is_finite k = true -> 0 < scaled k ->
  is_finite lo = true -> is_finite hi = true ->
  fle (clamp ((c - x2) * k) lo hi) (clamp ((c - x1) * k) lo hi).
Proof.
  intros Hx F1 F2 Fc Fk Pk Fl Fh. apply clamp_mono; try assumption.
  apply mul_mono; try assumption.
  apply sub_mono; try assumption. apply fle_refl. now apply finite_not_nan.
Qed.

Ltac contrib :=
  first [apply contrib_finite|apply contrib_anti_finite]; solve [assumption|lit].

Ltac inner :=
  first [apply contrib_not_nan|apply contrib_anti_not_nan]; solve [assumption|lit].

Lemma seasonalBase_finite (month : float) : is_finite (seasonalBase month) = true.
Proof.
  unfold seasonalBase.
  destruct (_ && _)%bool; [reflexivity|]. destruct (_ =? _)%float; [reflexivity|].
  destruct (_ && _)%bool; reflexivity.
Qed.

Lemma seasonalBase_le_48 (month : float) : fle (seasonalBase month) 48.
Proof.
  apply fle_leb. unfold seasonalBase.
  destruct (_ && _)%bool; [reflexivity|]. destruct (_ =? _)%float; [reflexivity|].
  destruct (_ && _)%bool; reflexivity.
Qed.

Lemma weatherTotal_not_nan (input : RiskInput) :
  finite_input input -> is_nan (weatherTotal input) = false.
Proof.
  intros (Ft & Fh & Fw & Fp & F10 & F25). unfold weatherTotal.
  repeat (apply add_not_nan;
          [|first [apply contrib_finite|apply contrib_anti_finite]; solve [assumption|lit]]).
  apply finite_not_nan, seasonalBase_finite.
Qed.

(** The total before the penalties is at most 122, and at least 10 when
    the seasonal base is at least 16. *)
Lemma weatherTotal_upper (input : RiskInput) :
  finite_input input -> scaled (weatherTotal input) <= 122 * 2 ^ bias.
Proof.
  intros (Ft & Fh & Fw & Fp & F10 & F25).
  assert (H : fle (weatherTotal input) (48 + 22 + 20 + 15 + 9 + 8)%float).
  { unfold weatherTotal.
    repeat (apply add_mono; [|apply clamp_le_hi; solve [inner|lit]|contrib|lit]).
    apply seasonalBase_le_48. }
  destruct H as (_ & _ & H).
  assert (E : scaled (48 + 22 + 20 + 15 + 9 + 8)%float = 122 * 2 ^ bias) by lit.
  now rewrite E in H.
Qed.

Lemma weatherTotal_lower (input : RiskInput) :
  finite_input input ->
  (16 <=? seasonalBase (getMonth (in_date input) + 1))%float = true ->
  10 * 2 ^ bias <= scaled (weatherTotal input).
Proof.
  intros (Ft & Fh & Fw & Fp & F10 & F25) Hm. apply fle_leb in Hm.
  assert (H : fle (16 + -6 + 0 + 0 + 0 + 0)%float (weatherTotal input)).
  { unfold weatherTotal.
    repeat (apply add_mono;
            [|apply clamp_ge_lo; solve [inner|lit|vm_compute; discriminate]|lit|contrib]).
    assumption. }
  destruct H as (_ & _ & H).
  assert (E : scaled (16 + -6 + 0 + 0 + 0 + 0)%float = 10 * 2 ^ bias) by lit.
  now rewrite E in H.
Qed.

Lemma penalty_not_nan (b : bool) (s c : float) :
  is_nan s = false -> is_finite c = true -> is_nan (if b then s - c else s)%float = false.
Proof. intros. destruct b; [now apply sub_not_nan|assumption]. Qed.

Lemma penalty_mono (b : bool) (s1 s2 c : float) :
  fle s1 s2 -> is_finite c = true ->
  fle (if b then s1 - c else s1)%float (if b then s2 - c else s2)%float.
Proof.
  intros H Fc. destruct b; [|assumption].
  apply sub_mono; try assumption. apply fle_refl. now apply finite_not_nan.
Qed.

Lemma runningTotal_not_nan (input : RiskInput) :
  finite_input input -> is_nan (runningTotal input) = false.
Proof.
  intros H. unfold runningTotal.
  apply penalty_not_nan; [|lit]. apply penalty_not_nan; [|lit].
  now apply weatherTotal_not_nan.
Qed.

(** The final clamp and [Math.round] are monotone. *)
Lemma score_mono (i1 i2 : RiskInput) :
  fle (runningTotal i1) (runningTotal i2) ->
  (score (estimateRisk i1) <=? score (estimateRisk i2))%float = true.
Proof.
  intros (N1 & N2 & H). unfold estimateRisk. cbn [score].
  destruct (Math_round_clamp _ N1) as [-> B1]. destruct (Math_round_clamp _ N2) as [-> B2].
  apply leb_Number_of_Z; try assumption. apply round_index_mono. lia.
Qed.

Lemma RiskLevel_eqb_eq (a b : RiskLevel) : RiskLevel_eqb a b = true -> a = b.
Proof. destruct a, b; (reflexivity || discriminate). Qed.

Lemma riskLevel_Number_of_Z (n : Z) :
  0 <= n <= 100 -> riskLevel (Number_of_Z n) = levelOf n.
Proof.
  intros Hn. apply RiskLevel_eqb_eq.
  apply (upto100_forall (fun n => RiskLevel_eqb (riskLevel (Number_of_Z n)) (levelOf n)));
    [vm_compute; reflexivity|assumption].
Qed.

(** ** Range, level, examples and monotonicity *)

(** C1: for every date and all finite readings, the score returned by
    [estimateRisk] is an integer [n] with [0 <= n <= 100], and the level is
    the one the thresholds give for [n]: [n >= 75] the highest,
    [55 <= n < 75] high, [35 <= n < 55] slightly high, [n < 35] low. *)
Theorem estimateRisk_score_level (input : RiskInput) :
  finite_input input ->
  exists n : Z,
    0 <= n <= 100 /\
    score (estimateRisk input) = Number_of_Z n /\
    level (estimateRisk input) = levelOf n.
Proof.
  intros H. pose proof (runningTotal_not_nan input H) as N.
  destruct (Math_round_clamp (runningTotal input) N) as [E B].
  eexists. split; [exact B|]. unfold estimateRisk. cbn [score level].
  rewrite E. split; [reflexivity|]. now apply riskLevel_Number_of_Z.
Qed.

(** The worked example is such an input. *)
Lemma estimateRisk_score_level_witness :
  finite_input (example_input 0) /\
  exists n : Z, 0 <= n <= 100 /\ score (estimateRisk (example_input 0)) = Number_of_Z n /\
    level (estimateRisk (example_input 0)) = levelOf n.
Proof.
  assert (H : finite_input (example_input 0)) by (repeat split; reflexivity).
  split; [exact H|]. exact (estimateRisk_score_level (example_input 0) H).
Defined.

(** C3: the two worked examples of the specification.  In March, at 20
    degrees, humidity 40, wind 5, pm10 30 and pm25 15, the score is 76 at
    the highest level without rain, and 60 at the high level with 2 mm of
    rain. *)
Theorem estimateRisk_examples :
  score (estimateRisk (example_input 0)) = 76%float /\
  level (estimateRisk (example_input 0)) = VeryHigh /\
  score (estimateRisk (example_input 2)) = 60%float /\
  level (estimateRisk (example_input 2)) = High.
Proof. repeat split; vm_compute; reflexivity. Qed.

(** C7: with everything else fixed and finite, a larger wind speed never
    gives a smaller score; the wind contribution itself is never negative. *)
Theorem estimateRisk_wind_monotone (input : RiskInput) (w1 w2 : float) :
  finite_input input -> is_finite w1 = true -> is_finite w2 = true ->
  (w1 <=? w2)%float = true ->
  (0 <=? clamp ((w1 - 2) * 2.9) 0 20)%float = true /\
  (score (estimateRisk (with_wind input w1))
   <=? score (estimateRisk (with_wind input w2)))%float = true.
Proof.
  intros (Ft & Fh & Fw & Fp & F10 & F25) F1 F2 Hw. apply fle_leb in Hw. split.
  { apply fle_leb, clamp_ge_lo; solve [inner|lit|vm_compute; discriminate]. }
  apply score_mono. unfold runningTotal.
  cbn [with_wind in_date in_temperature in_humidity in_wind in_precipitation in_pm10
         in_pm25].
  apply penalty_mono; [|lit]. apply penalty_mono; [|lit].
  unfold weatherTotal.
  cbn [with_wind in_date in_temperature in_humidity in_wind in_precipitation in_pm10
         in_pm25].
  repeat (apply add_mono; [|apply fle_refl, finite_not_nan; contrib|contrib|contrib]).
  apply add_mono; [|apply contrib_mono; solve [assumption|lit]|contrib|contrib].
  apply fle_refl. apply add_not_nan; [|contrib].
  apply finite_not_nan, seasonalBase_finite.
Qed.

(** Wind 1 against wind 5 on the worked example. *)
Lemma estimateRisk_wind_monotone_witness :
  (1 <=? 5)%float = true /\
  (score (estimateRisk (with_wind (example_input 0) 1))
   <=? score (estimateRisk (with_wind (example_input 0) 5)))%float = true.
Proof.
  split; [reflexivity|].
  apply (estimateRisk_wind_monotone (example_input 0) 1 5); try reflexivity.
  repeat split; reflexivity.
Defined.

(** C10: with everything else fixed and finite, a larger humidity never
    gives a larger score. *)
Theorem estimateRisk_humidity_antitone (input : RiskInput) (h1 h2 : float) :
  finite_input input -> is_finite h1 = true -> is_finite h2 = true ->
  (h1 <=? h2)%float = true ->
  (score (estimateRisk (with_humidity input h2))
   <=? score (estimateRisk (with_humidity input h1)))%float = true.
Proof.
  intros (Ft & Fh & Fw & Fp & F10 & F25) F1 F2 Hh. apply fle_leb in Hh.
  apply score_mono.
  assert (Hw : fle (weatherTotal (with_humidity input h2))
                   (weatherTotal (with_humidity input h1))).
  { unfold weatherTotal.
    cbn [with_humidity in_date in_temperature in_humidity in_wind in_precipitation
           in_pm10 in_pm25].
    repeat (apply add_mono; [|apply fle_refl, finite_not_nan; contrib|contrib|contrib]).
    apply add_mono; [|apply contrib_anti; solve [assumption|lit]|contrib|contrib].
    apply fle_refl. repeat (apply add_not_nan; [|contrib]).
    apply finite_not_nan, seasonalBase_finite. }
  unfold runningTotal.
  cbn [with_humidity in_date in_temperature in_humidity in_wind in_precipitation
         in_pm10 in_pm25].
  set (r2 := (if (0 <? in_precipitation input)%float
              then (weatherTotal (with_humidity input h2) - 16)%float
              else weatherTotal (with_humidity input h2))).
  set (r1 := (if (0 <? in_precipitation input)%float
              then (weatherTotal (with_humidity input h1) - 16)%float
              else weatherTotal (with_humidity input h1))).
  assert (Hr : fle r2 r1) by (apply penalty_mono; [assumption|lit]).
  destruct Hh as (N1 & N2 & Hh).
  rewrite !leb_val by (assumption || reflexivity).
  destruct (Z.leb_spec (scaled 70) (scaled h1)) as [L1|L1];
    destruct (Z.leb_spec (scaled 70) (scaled h2)) as [L2|L2]; try lia.
  - apply sub_mono; [assumption|apply fle_refl; reflexivity|lit|lit].
  - apply fle_trans with r2; [|assumption].
    apply sub_le_self; [apply Hr|lit|vm_compute; discriminate].
  - assumption.
Qed.

(** Humidity 40 against humidity 75 on the worked example. *)
Lemma estimateRisk_humidity_antitone_witness :
  (40 <=? 75)%float = true /\
  (score (estimateRisk (with_humidity (example_input 0) 75))
   <=? score (estimateRisk (with_humidity (example_input 0) 40)))%float = true.
Proof.
  split; [reflexivity|].
  apply (estimateRisk_humidity_antitone (example_input 0) 40 75); try reflexivity.
  repeat split; reflexivity.
Defined.

(** ** The rain penalty *)

(** The rain penalty on a total of at least 8 (and at most 122) is exact:
    the total, 16, 6 and the differences all sit on the grid of the total. *)
Lemma rain_penalty_exact_total (input : RiskInput) (p : float) :
  finite_input input -> (0 <? p)%float = true ->
  8 * 2 ^ bias <= scaled (weatherTotal input) ->
  scaled (runningTotal (with_precipitation input p))
  = scaled (runningTotal (with_precipitation input 0)) - 16 * 2 ^ bias.
Proof.
  intros Hfin Hp Hlo.
  pose proof (weatherTotal_upper input Hfin) as Hup.
  pose proof (weatherTotal_not_nan input Hfin) as Nn.
  unfold runningTotal.
  cbn [with_precipitation in_date in_temperature in_humidity in_wind in_precipitation
         in_pm10 in_pm25].
  change (weatherTotal (with_precipitation input p)) with (weatherTotal input).
  change (weatherTotal (with_precipitation input 0)) with (weatherTotal input).
  rewrite Hp. change (0 <? 0)%float with false. cbv iota.
  set (s := weatherTotal input) in *. set (X := scaled s) in *.
  assert (HB : 0 < 2 ^ bias) by (apply pow2_pos; unfold bias; lia).
  assert (E3 : 2 ^ (bias + 3) = 8 * 2 ^ bias)
    by (rewrite Z.pow_add_r by (unfold bias; lia); change (2 ^ 3) with 8; ring).
  assert (E7 : 2 ^ (bias + 7) = 128 * 2 ^ bias)
    by (rewrite Z.pow_add_r by (unfold bias; lia); change (2 ^ 7) with 128; ring).
  assert (E4 : 2 ^ (bias + 4) = 16 * 2 ^ bias)
    by (rewrite Z.pow_add_r by (unfold bias; lia); change (2 ^ 4) with 16; ring).
  assert (HX : 0 < X) by lia.
  pose proof (log2_bounds X HX) as HL.
  assert (Hl3 : bias + 3 <= Z.log2 X) by (apply Z.log2_le_pow2; lia).
  assert (Hl7 : Z.log2 X < bias + 7) by (apply Z.log2_lt_pow2; lia).
  assert (Hh : 2 ^ (bias + 8) <= huge).
  { rewrite huge_eq. apply pow2_le. unfold bias. lia. }
  assert (E8 : 2 ^ (bias + 8) = 256 * 2 ^ bias)
    by (rewrite Z.pow_add_r by (unfold bias; lia); change (2 ^ 8) with 256; ring).
  assert (Fs : is_finite s = true) by (apply finite_of_bound; [assumption|fold X; lia]).
  set (k := cexp X).
  assert (Hk : k = Z.log2 X - 52) by (unfold k, cexp, bias in *; lia).
  assert (Hk53 : 2 ^ (k + 53) = 2 ^ (Z.log2 X + 1)) by (f_equal; lia).
  assert (Hk16 : 2 ^ (bias + 4) <= 2 ^ (k + 53)) by (apply pow2_le; unfold bias in *; lia).
  assert (Dx : (2 ^ k | X)) by (apply scaled_multiple; assumption).
  assert (DB : forall c, (2 ^ k | c * 2 ^ bias)).
  { intros c. apply Z.divide_mul_r, pow2_divide. unfold bias in *. lia. }
  assert (V16 : scaled 16 = 16 * 2 ^ bias) by lit.
  assert (V6 : scaled 6 = 6 * 2 ^ bias) by lit.
  assert (K0 : 1074 <= k) by (unfold bias in *; lia).
  assert (G1 : is_finite (s - 16) = true /\ scaled (s - 16) = X - 16 * 2 ^ bias).
  { rewrite <- V16. apply (sub_grid s 16 k); try assumption; try reflexivity.
    - rewrite V16. apply DB.
    - rewrite V16. fold X. lia.
    - rewrite V16. fold X. lia. }
  destruct G1 as [F1 X1].
  destruct (70 <=? in_humidity input)%float; [|exact X1].
  assert (G2 : scaled (s - 6) = X - 6 * 2 ^ bias).
  { rewrite <- V6. apply (sub_grid s 6 k); try assumption; try reflexivity.
    - rewrite V6. apply DB.
    - rewrite V6. fold X. lia.
    - rewrite V6. fold X. lia. }
  assert (G3 : scaled (s - 16 - 6) = X - 16 * 2 ^ bias - 6 * 2 ^ bias).
  { rewrite <- V6, <- X1. apply (sub_grid (s - 16) 6 k); try assumption; try reflexivity.
    - rewrite X1. apply Z.divide_sub_r; [assumption|apply DB].
    - rewrite V6. apply DB.
    - rewrite V6, X1. lia.
    - rewrite V6, X1. lia. }
  rewrite G3, G2. lia.
Qed.

Lemma base_of_month (d : Date) :
  In (getMonth d) [1; 2; 3; 4; 5; 6; 7; 8]%float ->
  (16 <=? seasonalBase (getMonth d + 1))%float = true.
Proof.
  cbn [In]. intros H. decompose [or] H; try contradiction;
    match goal with E : _ = getMonth d |- _ => rewrite <- E end; lit.
Qed.




(** * Pollen types *)

(** C4: for the season February to April, [seasonalFactor] is 1 in March
    (and, for any season, in every month of the season), 0.44 in January
    and May, 0.2 in December and June, and 0 in August. *)
Theorem seasonalFactor_ramp :
  seasonalFactor 3 [2; 3; 4]%float = 1%float /\
  (forall (months : list float) (m : float),
     In m months -> seasonalFactor m months = 1%float) /\
  seasonalFactor 1 [2; 3; 4]%float = 0.44%float /\
  seasonalFactor 5 [2; 3; 4]%float = 0.44%float /\
  seasonalFactor 12 [2; 3; 4]%float = 0.2%float /\
  seasonalFactor 6 [2; 3; 4]%float = 0.2%float /\
  seasonalFactor 8 [2; 3; 4]%float = 0%float.
Proof.
  split; [reflexivity|]. split; [|repeat split; reflexivity].
  intros months m Hm. unfold seasonalFactor, includes.
  replace (existsb (fun y => SameValueZero y m) months) with true; [reflexivity|].
  symmetry. apply existsb_exists. exists m. split; [assumption|apply SameValueZero_refl].
Qed.

(** April is in season. *)
Lemma seasonalFactor_ramp_witness :
  In 4%float [2; 3; 4]%float /\ seasonalFactor 4 [2; 3; 4]%float = 1%float.
Proof.
  split; [simpl; auto|].
  apply seasonalFactor_ramp. simpl. auto.
Defined.

Lemma season72_finite (currentMonth : float) (months : list float) :
  is_finite (seasonalFactor currentMonth months * 72) = true.
Proof.
  unfold seasonalFactor.
  destruct (includes _ _); [reflexivity|]. destruct (existsb _ _); [reflexivity|].
  destruct (existsb _ _); reflexivity.
Qed.

(** The score of a taxon is an integer of [0..100]. *)
Lemma estimatePollenTypeScore_range (type : PollenType) (month : float)
    (weather : option WeatherSnapshot) (overall : float) :
  finite_weather weather -> is_finite overall = true ->
  exists n : Z, 0 <= n <= 100 /\
    estimatePollenTypeScore type month weather overall = Number_of_Z n.
Proof.
  intros Hw Ho. unfold estimatePollenTypeScore.
  match goal with |- context [Math_round (clamp ?v 0 100)] =>
    assert (N : is_nan v = false) end.
  { apply sub_not_nan.
    - apply add_not_nan; [apply add_not_nan|].
      + apply add_not_nan_l; [apply season72_finite|].
        apply mul_not_nan; [now apply finite_not_nan|lit|lit].
      + destruct weather as [w|]; [|reflexivity].
        destruct Hw as (Ft & Fh & Fw & Fp & F10 & F25). contrib.
      + destruct weather as [w|]; [|reflexivity].
        destruct Hw as (Ft & Fh & Fw & Fp & F10 & F25). contrib.
    - destruct weather as [w|]; [|reflexivity].
      destruct (0 <? precipitation w)%float; reflexivity. }
  destruct (Math_round_clamp _ N) as [E B]. eexists. split; [exact B|exact E].
Qed.

Lemma typeStatus_finite (month : float) (weather : option WeatherSnapshot)
    (overall : float) (l : list PollenType) :
  finite_weather weather -> is_finite overall = true ->
  Forall (fun a => is_finite (pscore a) = true) (map (typeStatus month weather overall) l).
Proof.
  intros Hw Ho. apply Forall_forall. intros a Ha. apply in_map_iff in Ha.
  destruct Ha as (t & <- & _). cbn [typeStatus pscore].
  destruct (estimatePollenTypeScore_range t month weather overall Hw Ho) as (n & Hn & ->).
  now apply Number_of_Z_val.
Qed.

Lemma overall_finite (todayRisk : option RiskResult) :
  finite_risk todayRisk ->
  is_finite (match todayRisk with Some r => score r | None => 40%float end) = true.
Proof. destruct todayRisk; [trivial|reflexivity]. Qed.

(** C9: for a finite snapshot and a finite overall score, the list built
    by [pollenTypeStatus] is a rearrangement of the catalog entries with
    their scores, sorted by descending score, and the taxa that share a
    score appear in the order in which the catalog declares them. *)
Theorem pollenTypeStatus_sorted_stable (now : Date) (todayRisk : option RiskResult)
    (weather : option WeatherSnapshot) :
  finite_weather weather -> finite_risk todayRisk ->
  let month := (getMonth now + 1)%float in
  let overall := match todayRisk with Some r => score r | None => 40%float end in
  let declared := map (typeStatus month weather overall) pollenCatalog in
  let result := pollenTypeStatus now todayRisk weather in
  Permutation result declared /\
  StronglySorted (fun a b => (pscore b <=? pscore a)%float = true) result /\
  forall v : float,
    filter (fun a => (pscore a =? v)%float) result
    = filter (fun a => (pscore a =? v)%float) declared.
Proof.
  intros Hw Hr month overall declared result.
  pose proof (typeStatus_finite month weather overall pollenCatalog Hw
                (overall_finite todayRisk Hr)) as Hfin.
  fold declared in Hfin. rewrite Forall_forall in Hfin.
  assert (Hcmp : forall x y : PollenTypeStatus,
             is_finite (pscore x) = true -> is_finite (pscore y) = true ->
             (pscore x - pscore y <? 0)%float = (scaled (pscore x) <? scaled (pscore y))).
  { intros x y Fx Fy. now apply sub_neg_iff. }
  unfold result, pollenTypeStatus. fold month overall declared.
  split; [apply sort_perm|]. split.
  - pose proof (sort_sorted (fun a b => pscore b - pscore a)%float
                  (fun a => scaled (pscore a)) (fun a => is_finite (pscore a) = true)
                  Hcmp declared ltac:(now apply Forall_forall)) as S.
    assert (Hall : Forall (fun a => is_finite (pscore a) = true)
                     (sort (fun a b => pscore b - pscore a)%float declared)).
    { eapply Permutation_Forall; [symmetry; apply sort_perm|now apply Forall_forall]. }
    revert Hall. induction S as [|a l S IH Ha]; intros Hall; constructor.
    + apply IH. exact (Forall_inv_tail Hall).
    + pose proof (Forall_inv Hall) as Fa. pose proof (Forall_inv_tail Hall) as Fl.
      cbv beta in Fa. rewrite Forall_forall in Ha, Fl. apply Forall_forall.
      intros b Hb. apply fle_leb.
      repeat split; try (apply finite_not_nan; auto). now apply Ha.
  - intros v. apply sort_filter. intros x y Hx Hy Px Py.
    rewrite Hcmp by (apply Hfin; assumption).
    apply eqb_true_val in Px, Py. apply Z.ltb_ge. lia.
Qed.

(** On a calm March day cedar and cypress tie at 81 and stay in catalog
    order. *)
Lemma pollenTypeStatus_sorted_stable_witness :
  map (fun a => id (ptype a))
    (filter (fun a => (pscore a =? 81)%float) (pollenTypeStatus march None (Some calm_day)))
  = [cedar; cypress].
Proof.
  destruct (pollenTypeStatus_sorted_stable march None (Some calm_day)) as (_ & _ & H).
  - repeat split; reflexivity.
  - exact I.
  - rewrite H. reflexivity.
Defined.


(** * The map score *)

Lemma monthScale_cases (month : float) :
  is_finite (monthScale month) = true /\ 0 < scaled (monthScale month).
Proof.
  unfold monthScale.
  destruct (_ && _)%bool; [split; lit|]. destruct (_ =? _)%float; [split; lit|].
  destruct (_ && _)%bool; split; lit.
Qed.

Lemma effectiveSuitability_range (suitability month : float) :
  is_nan suitability = false ->
  fle 0.15 (effectiveSuitability suitability month) /\
  fle (effectiveSuitability suitability month) 1.
Proof.
  intros Ns. destruct (monthScale_cases month) as [Fm Pm]. unfold effectiveSuitability.
  assert (N : is_nan (suitability * monthScale month) = false) by now apply mul_not_nan.
  split; [apply clamp_ge_lo|apply clamp_le_hi]; try assumption; try reflexivity.
  vm_compute. discriminate.
Qed.

(** The blend is never [NaN]: the effective suitability lies in
    [0.15, 1], so no product is [0 * Infinity] and the sum is not
    [Infinity - Infinity]. *)
Lemma blend_not_nan (rawScore suitability month : float) :
  is_nan rawScore = false -> is_nan suitability = false ->
  is_nan (blend rawScore suitability month) = false.
Proof.
  intros Nr Ns. unfold blend.
  destruct (effectiveSuitability_range suitability month Ns) as [Hlo Hhi].
  set (e := effectiveSuitability suitability month) in *.
  assert (Fe : is_finite e = true) by (apply (fle_finite 0.15 e 1); auto).
  assert (Pe : 0 < scaled e).
  { destruct Hlo as (_ & _ & H). assert (0 < scaled 0.15) by lit. lia. }
  assert (F1e : is_finite (1 - e) = true).
  { apply (fle_finite (1 - 1) (1 - e) (1 - 0.15)); try reflexivity;
      apply sub_mono; try assumption; try reflexivity; apply fle_refl; reflexivity. }
  apply add_not_nan; [now apply mul_not_nan|].
  apply (fle_finite (baseline * (1 - 1)) _ (baseline * (1 - 0.15))); try reflexivity;
    apply mul_mono_l; try assumption; try reflexivity;
    apply sub_mono; try assumption; try reflexivity; apply fle_refl; reflexivity.
Qed.

(** C2, as stated, fails: with suitability 0 in March a raw score of 15 is
    mapped to exactly the baseline 14, though 15 is not 14. *)
Lemma adjustMapRiskScore_baseline_15 :
  adjustMapRiskScore 15 0 3 = 14%float /\ (15 =? 14)%float = false.
Proof. split; reflexivity. Qed.

(** C2 (amended): for every raw score and suitability other than [NaN],
    [adjustMapRiskScore] returns an integer of [0..100].  For suitability 0
    in February, March or April the effective suitability is the floor
    0.15, and for every integer raw score [r] of [0..100] the result lies
    between [r] and the baseline 14 and equals 14 exactly when
    [11 <= r <= 17]. *)
Theorem adjustMapRiskScore_range (rawScore suitability month : float) :
  is_nan rawScore = false -> is_nan suitability = false ->
  (exists n : Z, 0 <= n <= 100 /\
     adjustMapRiskScore rawScore suitability month = Number_of_Z n) /\
  (In month [2; 3; 4]%float -> effectiveSuitability 0 month = 0.15%float) /\
  (In month [2; 3; 4]%float -> forall r : Z, 0 <= r <= 100 ->
     let result := adjustMapRiskScore (Number_of_Z r) 0 month in
     (Number_of_Z (Z.min r 14) <=? result)%float = true /\
     (result <=? Number_of_Z (Z.max r 14))%float = true /\
     (result = 14%float <-> 11 <= r <= 17)).
Proof.
  intros Nr Ns. split; [|split].
  - destruct (Math_round_clamp _ (blend_not_nan rawScore suitability month Nr Ns)) as [E B].
    eexists. split; [exact B|exact E].
  - cbn [In]. intros H. decompose [or] H; try contradiction; subst month; lit.
  - cbn [In]. intros H r Hr.
    assert (T : integer_scores_hit_baseline = true) by lit.
    unfold integer_scores_hit_baseline in T. rewrite forallb_forall in T.
    assert (Hm : In month [2; 3; 4]%float) by exact H.
    specialize (T month Hm). pose proof (upto100_forall _ T r Hr) as P. cbv beta zeta in P.
    apply andb_true_iff in P. destruct P as [P P3].
    apply andb_true_iff in P. destruct P as [P1 P2].
    apply eqb_prop in P3. cbv zeta. split; [assumption|]. split; [assumption|].
    rewrite <- Leibniz.eqb_spec, P3, andb_true_iff, !Z.leb_le. tauto.
Qed.

(** Naha's suitability 0.22 on a raw score of 76, and the raw score 17
    at suitability 0. *)
Lemma adjustMapRiskScore_range_witness :
  (exists n : Z, 0 <= n <= 100 /\ adjustMapRiskScore 76 0.22 3 = Number_of_Z n) /\
  effectiveSuitability 0 3 = 0.15%float /\
  (adjustMapRiskScore (Number_of_Z 17) 0 3 = 14%float <-> 11 <= 17 <= 17).
Proof.
  destruct (adjustMapRiskScore_range 76 0.22 3 eq_refl eq_refl) as (H1 & H2 & H3).
  assert (Hm : In 3%float [2; 3; 4]%float) by (simpl; auto).
  split; [exact H1|]. split; [exact (H2 Hm)|].
  apply (H3 Hm 17). lia.
Defined.

(** * The trend *)

Lemma sum3 (a b c : Z) :
  0 <= a <= 10 -> 0 <= b <= 10 -> 0 <= c <= 10 ->
  (0 + Number_of_Z a + Number_of_Z b + Number_of_Z c)%float = Number_of_Z (a + b + c).
Proof.
  intros Ha Hb Hc. apply Leibniz.eqb_spec.
  assert (T : severity_sums_exact = true) by (vm_compute; reflexivity).
  unfold severity_sums_exact in T.
  pose proof (range_forall 11 _ T a ltac:(lia)) as Ta. cbv beta in Ta.
  pose proof (range_forall 11 _ Ta b ltac:(lia)) as Tb. cbv beta in Tb.
  exact (range_forall 11 _ Tb c ltac:(lia)).
Qed.

Lemma trend_of_sums (s1 s2 : Z) :
  0 <= s1 <= 30 -> 0 <= s2 <= 30 ->
  Number_toFixed1 (Number_of_Z s1 / 3 - Number_of_Z s2 / 3)%float
  = decimal_tenths (nearest_tenths (s1 - s2)).
Proof.
  intros H1 H2. apply Leibniz.eqb_spec.
  assert (T : trend_of_sums_exact = true) by (vm_compute; reflexivity).
  unfold trend_of_sums_exact in T.
  pose proof (range_forall 31 _ T s1 ltac:(lia)) as T1. cbv beta in T1.
  exact (range_forall 31 _ T1 s2 ltac:(lia)).
Qed.

(** On two sums of three severities the trend is [n / 10] for the integer
    [n] nearest to ten times the exact mean difference. *)
Lemma trend_of_sums_tenths (s1 s2 : Z) :
  0 <= s1 <= 30 -> 0 <= s2 <= 30 ->
  Number_toFixed1 (Number_of_Z s1 / 3 - Number_of_Z s2 / 3)%float
  = (Number_of_Z (nearest_tenths (s1 - s2)) / 10)%float.
Proof.
  intros H1 H2. apply Leibniz.eqb_spec.
  assert (T : forallb (fun s1 => forallb (fun s2 =>
    Leibniz.eqb (Number_toFixed1 (Number_of_Z s1 / 3 - Number_of_Z s2 / 3)%float)
                (Number_of_Z (nearest_tenths (s1 - s2)) / 10)%float)
    (range 31)) (range 31) = true) by lit.
  pose proof (range_forall 31 _ T s1 ltac:(lia)) as T1. cbv beta in T1.
  exact (range_forall 31 _ T1 s2 ltac:(lia)).
Qed.

(** [nearest_tenths d] is within a half of [10 * d / 3]. *)
Lemma nearest_tenths_nearest (d : Z) : Z.abs (20 * d - 6 * nearest_tenths d) <= 3.
Proof.
  unfold nearest_tenths.
  pose proof (Z.div_mod (20 * d + 3) 6 ltac:(lia)) as E.
  pose proof (Z.mod_pos_bound (20 * d + 3) 6 ltac:(lia)) as B.
  lia.
Qed.

(** C6: with fewer than 6 entries the trend is [null]; with at least 6 it
    is the mean severity of the first three entries minus the mean
    severity of the next three, rounded to one decimal by [toFixed(1)].
    For severities of the 0-10 integer scale, with [d] the sum of the
    first three minus the sum of the next three, it is the number
    [n / 10] for the integer [n] nearest to [10 * d / 3], ten times the
    exact difference of the means. *)
Theorem trend_spec (logs : list SymptomLog) :
  ((List.length logs < 6)%nat -> trend logs = None) /\
  ((6 <= List.length logs)%nat ->
     trend logs
     = Some (Number_toFixed1
               (sum_severity (firstn 3 logs) / 3
                - sum_severity (firstn 3 (skipn 3 logs)) / 3)%float)) /\
  (forall e0 e1 e2 e3 e4 e5 rest s0 s1 s2 s3 s4 s5,
     logs = e0 :: e1 :: e2 :: e3 :: e4 :: e5 :: rest ->
     has_severity e0 s0 -> has_severity e1 s1 -> has_severity e2 s2 ->
     has_severity e3 s3 -> has_severity e4 s4 -> has_severity e5 s5 ->
     exists n : Z,
       Z.abs (20 * ((s0 + s1 + s2) - (s3 + s4 + s5)) - 6 * n) <= 3 /\
       trend logs = Some (Number_of_Z n / 10)%float).
Proof.
  split; [|split].
  - intros H. unfold trend. apply Nat.ltb_lt in H. now rewrite H.
  - intros H. unfold trend. apply Nat.ltb_ge in H. now rewrite H.
  - intros e0 e1 e2 e3 e4 e5 rest s0 s1 s2 s3 s4 s5 -> [R0 E0] [R1 E1] [R2 E2]
      [R3 E3] [R4 E4] [R5 E5].
    exists (nearest_tenths ((s0 + s1 + s2) - (s3 + s4 + s5))).
    split; [apply nearest_tenths_nearest|].
    unfold trend. cbn [List.length Nat.ltb Nat.leb slice Nat.sub skipn firstn].
    unfold sum_severity. cbn [fold_left].
    rewrite E0, E1, E2, E3, E4, E5, !sum3 by assumption.
    rewrite trend_of_sums_tenths by lia. reflexivity.
Qed.

(** 5, 4, 4 after 3, 3, 3: the means differ by a third more than 1, shown
    as 1.3; without the sixth entry there is no trend. *)
Lemma trend_spec_witness :
  trend worse_week = Some 1.3%float /\ trend (firstn 5 worse_week) = None.
Proof.
  destruct (trend_spec worse_week) as (_ & _ & H).
  destruct (H _ _ _ _ _ _ [] 5 4 4 3 3 3 eq_refl) as (n & Hn & E);
    try (split; [lia|reflexivity]).
  assert (N : n = 13) by lia. rewrite N in E.
  split; [exact E|].
  apply (trend_spec (firstn 5 worse_week)). simpl. lia.
Defined.

(** * The symptom log *)

Lemma submitLog_eq (today : string) (sev : float) (med : bool) (memo : string)
    (prev : list SymptomLog) :
  submitLog today sev med memo prev
  = {| date := today; severity := sev; tookMedicine := med; memo := memo |}
      :: firstn 29 (filter (other_date today) prev).
Proof. reflexivity. Qed.

Lemma In_firstn {A} (n : nat) (l : list A) (x : A) : In x (firstn n l) -> In x l.
Proof. intros H. rewrite <- (firstn_skipn n l). apply in_or_app. now left. Qed.

Lemma filter_other_date_In (today : string) (l : list SymptomLog) (e : SymptomLog) :
  In e (filter (other_date today) l) -> date e <> today.
Proof.
  intros H. apply filter_In in H. destruct H as [_ H]. unfold other_date in H.
  apply negb_true_iff, String.eqb_neq in H. exact H.
Qed.

Lemma filter_other_date_id (today : string) (l : list SymptomLog) :
  ~ In today (map date l) -> filter (other_date today) l = l.
Proof.
  induction l as [|e l IH]; cbn [map In filter]; intros H; [reflexivity|].
  unfold other_date at 1.
  destruct (String.eqb_spec (date e) today) as [E|E]; [tauto|].
  cbn [negb]. f_equal. apply IH. tauto.
Qed.

Lemma NoDup_map_sublist (today : string) (l : list SymptomLog) (n : nat) :
  NoDup (map date l) -> NoDup (map date (firstn n (filter (other_date today) l))).
Proof.
  revert n. induction l as [|e l IH]; intros n H; cbn [filter].
  - rewrite firstn_nil. constructor.
  - inversion H as [|? ? Hn Hl]; subst.
    destruct (other_date today e); [|now apply IH].
    destruct n as [|n]; cbn [firstn map]; constructor; [|now apply IH].
    intros Hin. apply Hn. apply in_map_iff in Hin. destruct Hin as (x & Ex & Hx).
    apply in_map_iff. exists x. split; [assumption|].
    apply In_firstn in Hx. apply filter_In in Hx. tauto.
Qed.

Lemma submitAll_snoc (items prev : list SymptomLog) (x : SymptomLog) :
  submitAll (items ++ [x]) prev
  = x :: firstn 29 (filter (other_date (date x)) (submitAll items prev)).
Proof.
  unfold submitAll. rewrite fold_left_app. cbn [fold_left]. unfold submitEntry at 1.
  rewrite submitLog_eq. now destruct x.
Qed.

Lemma submitAll_length (items prev : list SymptomLog) :
  items <> [] -> (List.length (submitAll items prev) <= 30)%nat.
Proof.
  destruct items as [|x items _] using rev_ind; [congruence|]. intros _.
  rewrite submitAll_snoc. cbn [List.length]. rewrite length_firstn. lia.
Qed.

(** After a run of submissions with distinct dates the log starts with
    the submitted entries, newest first, as far as 30 entries reach. *)
Lemma submitAll_prefix (items prev : list SymptomLog) :
  NoDup (map date items) ->
  firstn (List.length items) (submitAll items prev) = firstn 30 (rev items).
Proof.
  induction items as [|x items IH] using rev_ind; intros Hnd; [reflexivity|].
  rewrite map_app in Hnd. cbn [map] in Hnd.
  apply NoDup_remove in Hnd. rewrite app_nil_r in Hnd. destruct Hnd as [Hnd Hx].
  specialize (IH Hnd).
  rewrite submitAll_snoc, rev_app_distr, length_app. cbn [List.length rev app].
  replace (List.length items + 1)%nat with (S (List.length items)) by lia.
  rewrite firstn_cons. change (firstn 30 (x :: rev items)) with (x :: firstn 29 (rev items)).
  f_equal. rewrite firstn_firstn.
  set (st := submitAll items prev) in *.
  rewrite <- (firstn_skipn (List.length items) st), IH, filter_app.
  rewrite filter_other_date_id.
  - rewrite firstn_app, firstn_firstn.
    replace (Nat.min (List.length items) 29 - List.length (firstn 30 (rev items)))%nat
      with 0%nat by (rewrite length_firstn, length_rev; lia).
    rewrite firstn_O, app_nil_r.
    destruct (Nat.le_gt_cases (List.length items) 29) as [Hle|Hgt].
    + rewrite !firstn_all2 by (rewrite ?length_rev; lia). reflexivity.
    + f_equal. lia.
  - intros Hin. apply Hx. apply in_map_iff in Hin. destruct Hin as (e & Ee & He).
    apply in_map_iff. exists e. split; [assumption|].
    apply In_firstn in He. now apply in_rev.
Qed.

Lemma distinct_NoDup (l : list string) : distinct l = true -> NoDup l.
Proof.
  induction l as [|x l IH]; cbn [distinct]; intros H; constructor.
  - apply andb_true_iff in H. destruct H as [H _]. apply negb_true_iff in H.
    intros Hin. assert (E : existsb (String.eqb x) l = true).
    { apply existsb_exists. exists x. split; [assumption|apply String.eqb_refl]. }
    congruence.
  - apply IH. apply andb_true_iff in H. tauto.
Qed.

(** C5: submitting a log puts the new entry first, followed by the prior
    entries of other dates in their order, cut to 30 entries in all; no
    other entry of the result has today's date; dates stay unique if they
    were; and after submissions for 31 distinct dates exactly the 30 most
    recent remain, newest first. *)
Theorem submitLog_history (today : string) (sev : float) (med : bool) (text : string)
    (prev : list SymptomLog) :
  let item := {| date := today; severity := sev; tookMedicine := med; memo := text |} in
  let result := submitLog today sev med text prev in
  result = item :: firstn 29 (filter (other_date today) prev) /\
  (forall e, In e (tl result) -> date e <> today /\ In e prev) /\
  (List.length result <= 30)%nat /\
  (NoDup (map date prev) -> NoDup (map date result)) /\
  (forall items : list SymptomLog,
     NoDup (map date items) -> List.length items = 31%nat ->
     submitAll items prev = firstn 30 (rev items)).
Proof.
  intros item result. unfold result. rewrite submitLog_eq. fold item.
  split; [reflexivity|]. split; [|split; [|split]].
  - cbn [tl]. intros e He. apply In_firstn in He. split.
    + now apply filter_other_date_In in He.
    + apply filter_In in He. tauto.
  - cbn [List.length]. rewrite length_firstn. lia.
  - intros Hnd. cbn [map date]. constructor; [|now apply NoDup_map_sublist].
    intros Hin. apply in_map_iff in Hin. destruct Hin as (e & Ee & He).
    apply In_firstn, filter_other_date_In in He. contradiction.
  - intros items Hnd Hlen.
    rewrite <- (submitAll_prefix items prev Hnd).
    symmetry. apply firstn_all2.
    assert (Hne : items <> []) by (intros ->; discriminate).
    pose proof (submitAll_length items prev Hne). lia.
Qed.

(** The 31 days of March 2026 submitted in turn on a log that held the
    7th: the entries of the 31st down to the 2nd remain. *)
Lemma submitLog_history_witness :
  NoDup (map date march_entries) /\ List.length march_entries = 31%nat /\
  submitAll march_entries [march_entry 7] = firstn 30 (rev march_entries).
Proof.
  assert (Hnd : NoDup (map date march_entries))
    by (apply distinct_NoDup; vm_compute; reflexivity).
  split; [exact Hnd|]. split; [reflexivity|].
  apply (submitLog_history "2026-03-07" 4%float false EmptyString [march_entry 7]);
    [exact Hnd|reflexivity].
Defined.

(** * Further properties of the page

    ** Numbers are determined by their value *)

Lemma is_nan_eq (x : float) : is_nan x = true -> x = nan.
Proof.
  intros H. apply Prim2SF_inj. rewrite is_nan_spec in H.
  destruct (Prim2SF x); try discriminate. reflexivity.
Qed.

(** Two numbers of the same non-zero value are the same number. *)
Lemma scaled_inj (x y : float) :
  is_nan x = false -> is_nan y = false -> scaled x = scaled y -> scaled x <> 0 -> x = y.
Proof.
  intros Nx Ny E Hx. pose proof (compare_val x y Nx Ny) as C.
  rewrite E, Z.compare_refl in C. rewrite E in Hx. unfold scaled in E, Hx.
  apply Prim2SF_inj.
  destruct (Prim2SF x) as [sx|sx| |sx mx ex], (Prim2SF y) as [sy|sy| |sy my ey];
    cbn [SFval] in Hx, E; try congruence; cbn [SFcompare] in C.
  - destruct sx, sy; try discriminate; reflexivity.
  - destruct sx; discriminate.
  - destruct sy; discriminate.
  - destruct sx, sy; try discriminate.
    + destruct (Z.compare_spec ex ey) as [He| |]; try discriminate. subst ey.
      injection C as C. apply (f_equal CompOpp) in C. rewrite CompOpp_involutive in C.
      cbn [CompOpp] in C.
      change (Pos.compare_cont Eq mx my) with (Pos.compare mx my) in C.
      apply Pos.compare_eq in C. now subst.
    + destruct (Z.compare_spec ex ey) as [He| |]; try discriminate. subst ey.
      injection C as C.
      change (Pos.compare_cont Eq mx my) with (Pos.compare mx my) in C.
      apply Pos.compare_eq in C. now subst.
Qed.

(** ** Whole numbers up to 1100 and their sums *)

Lemma Number_of_Z_value (n : Z) :
  0 <= n <= 1100 ->
  is_finite (Number_of_Z n) = true /\ scaled (Number_of_Z n) = n * 2 ^ bias.
Proof.
  intros Hn.
  pose proof (range_forall 1101
    (fun n => is_finite (Number_of_Z n) && (scaled (Number_of_Z n) =? n * 2 ^ bias))%bool
    ltac:(vm_compute; reflexivity) n ltac:(lia)) as H.
  cbv beta in H. apply andb_true_iff in H. destruct H as [H1 H2].
  split; [assumption|]. now apply Z.eqb_eq.
Qed.

(** A sum of whole numbers is computed exactly. *)
Lemma Number_of_Z_add (a b : Z) :
  0 <= a -> 0 <= b -> a + b <= 1100 ->
  (Number_of_Z a + Number_of_Z b)%float = Number_of_Z (a + b).
Proof.
  intros Ha Hb Hab.
  destruct (Number_of_Z_value a ltac:(lia)) as [Fa Va].
  destruct (Number_of_Z_value b ltac:(lia)) as [Fb Vb].
  destruct (Number_of_Z_value (a + b) ltac:(lia)) as [Fc Vc].
  destruct (add_val _ _ Fa Fb) as [N V].
  assert (Hb0 : 0 < 2 ^ bias) by (apply pow2_pos; unfold bias; lia).
  destruct (Z.eq_dec (a + b) 0) as [Z0|NZ].
  - assert (a = 0) by lia. assert (b = 0) by lia. subst. reflexivity.
  - assert (E : scaled (Number_of_Z a + Number_of_Z b) = (a + b) * 2 ^ bias).
    { rewrite V, Va, Vb, <- Z.mul_add_distr_r. apply (RND_exact _ bias).
      - unfold bias. lia.
      - apply Z.divide_factor_r.
      - rewrite Z.abs_eq by nia. rewrite Z.pow_add_r by (unfold bias; lia).
        rewrite Z.mul_comm. apply Z.mul_lt_mono_pos_l; [assumption|].
        assert (2 ^ 11 <= 2 ^ 53) by (apply pow2_le; lia).
        change (2 ^ 11) with 2048 in *. lia.
      - rewrite Z.abs_eq by nia.
        apply Z.lt_le_trans with (2048 * 2 ^ bias); [nia|].
        change 2048 with (2 ^ 11). rewrite <- Z.pow_add_r by (unfold bias; lia).
        rewrite huge_eq. apply pow2_le. unfold bias. lia. }
    apply scaled_inj; [assumption|now apply finite_not_nan|congruence|].
    rewrite E. nia.
Qed.

Lemma succ_range_forall (k : nat) (P : Z -> bool) :
  forallb P (map Z.succ (range k)) = true -> forall n, 1 <= n <= Z.of_nat k -> P n = true.
Proof.
  intros H n Hn. rewrite forallb_forall in H. apply H.
  replace n with (Z.succ (n - 1)) by lia. apply in_map.
  unfold range. rewrite <- (Z2Nat.id (n - 1)) by lia. apply in_map, in_seq. lia.
Qed.

(** ** Sanitised readings *)

Lemma parseNumber_finite (num fallback : float) :
  is_finite fallback = true -> is_finite (parseNumber num fallback) = true.
Proof. intros H. unfold parseNumber. now destruct (is_finite num) eqn:E. Qed.

(** The score of [estimateRisk] on finite readings: an integer of
    [0..100], with the level of the thresholds. *)
Lemma estimateRisk_integer (input : RiskInput) :
  finite_input input ->
  exists n : Z,
    0 <= n <= 100 /\
    score (estimateRisk input) = Number_of_Z n /\
    level (estimateRisk input) = levelOf n.
Proof.
  intros H. pose proof (runningTotal_not_nan input H) as N.
  destruct (Math_round_clamp (runningTotal input) N) as [E B].
  eexists. split; [exact B|]. unfold estimateRisk. cbn [score level].
  rewrite E. split; [reflexivity|]. now apply riskLevel_Number_of_Z.
Qed.

(** The final clamp and [Math.round] are monotone. *)
Lemma round_clamp_mono (v1 v2 : float) :
  fle v1 v2 ->
  (Math_round (clamp v1 0 100) <=? Math_round (clamp v2 0 100))%float = true.
Proof.
  intros (N1 & N2 & H).
  destruct (Math_round_clamp _ N1) as [-> B1]. destruct (Math_round_clamp _ N2) as [-> B2].
  apply leb_Number_of_Z; try assumption. apply round_index_mono. lia.
Qed.

(** * Division

    ** [binary_round_aux] on a value with a remainder *)

(** A mantissa [q] with the position [l] of what lies below it is the
    mantissa [4 * q + loc_code l] shifted by two. *)
Lemma shr_inv_loc (q : Z) (l : location) :
  0 <= q -> shr_inv (4 * q + loc_code l) 2 (shr_record_of_loc q l).
Proof.
  intros Hq. unfold shr_inv. change (2 ^ 2) with 4.
  assert (Hdiv : forall c, 0 <= c < 4 -> (4 * q + c) / 4 = q).
  { intros c Hc. rewrite Z.mul_comm, Z.div_add_l by lia. rewrite Z.div_small by lia. lia. }
  assert (Hmod : forall c, 0 <= c < 4 -> (4 * q + c) mod 4 = c).
  { intros c Hc. rewrite Z.add_comm, Z.mul_comm, Z.mod_add by lia. now apply Z.mod_small. }
  destruct l as [|[| |]]; cbn [loc_code shr_record_of_loc shr_m loc_of_shr_record];
    rewrite Hdiv, Hmod by lia; split; reflexivity.
Qed.

Lemma shr_fexp_loc (q e : Z) (l : location) :
  0 <= q -> e <= fexp prec emax (Zdigits2 q + e) ->
  exists r,
    shr_fexp prec emax q e l = (r, fexp prec emax (Zdigits2 q + e)) /\
    shr_inv (4 * q + loc_code l) (fexp prec emax (Zdigits2 q + e) - e + 2) r.
Proof.
  intros Hq Hn. unfold shr_fexp, shr.
  set (f := fexp prec emax (Zdigits2 q + e)) in *.
  assert (H4 : 0 <= 4 * q + loc_code l) by (destruct l as [|[| |]]; cbn [loc_code]; lia).
  destruct (f - e) as [|p|p] eqn:E; try lia.
  - exists (shr_record_of_loc q l). split; [f_equal; lia|].
    now apply shr_inv_loc.
  - exists (iter_pos shr_1 p (shr_record_of_loc q l)). split; [f_equal; lia|].
    pose proof (iter_pos_inv shr_1 (fun k r => shr_inv (4 * q + loc_code l) (k + 2) r)) as I.
    replace (Zpos p + 2) with (0 + Zpos p + 2) by lia. apply I; [|lia|now apply shr_inv_loc].
    intros k y Hk Hy. replace (k + 1 + 2) with (k + 2 + 1) by lia.
    apply shr_1_inv; try assumption. lia.
Qed.

(** Rounding a mantissa with a remainder is rounding the mantissa
    extended by two bits. *)
Lemma bra_loc (s : bool) (q e : Z) (l : location) :
  0 <= q -> e <= fexp prec emax (Zdigits2 q + e) ->
  fexp prec emax (Zdigits2 (4 * q + loc_code l) + (e - 2)) = fexp prec emax (Zdigits2 q + e) ->
  binary_round_aux prec emax s q e l
  = binary_round_aux prec emax s (4 * q + loc_code l) (e - 2) loc_Exact.
Proof.
  intros Hq Hn Hf.
  assert (H4 : 0 <= 4 * q + loc_code l) by (destruct l as [|[| |]]; cbn [loc_code]; lia).
  destruct (shr_fexp_loc q e l Hq Hn) as (r2 & E2 & I2).
  destruct (shr_fexp_exact (4 * q + loc_code l) (e - 2) H4) as (r1 & E1 & I1).
  rewrite Hf in E1, I1. set (f := fexp prec emax (Zdigits2 q + e)) in *.
  replace (Z.max (e - 2) f) with f in E1, I1 by lia.
  replace (f - (e - 2)) with (f - e + 2) in I1 by lia.
  unfold binary_round_aux. rewrite E1, E2.
  rewrite (round_nearest_even_rne _ _ _ I1), (round_nearest_even_rne _ _ _ I2).
  reflexivity.
Qed.
(** ** Rounding depends on the value only through its cell

    Two values in the same cell of a grid finer than the last place kept
    (the same multiple below, both on the grid or both off it) round to
    the same number. *)
Lemma rne_cell (n n' j c : Z) :
  0 <= j < c -> n / 2 ^ j = n' / 2 ^ j ->
  (n mod 2 ^ j = 0 <-> n' mod 2 ^ j = 0) ->
  rne n c = rne n' c.
Proof.
  intros Hj Hq Hz.
  assert (Hp : 0 < 2 ^ j) by (apply pow2_pos; lia).
  assert (Ht : 0 < 2 ^ (c - j - 1)) by (apply pow2_pos; lia).
  assert (Ec : 2 ^ c = 2 ^ j * (2 * 2 ^ (c - j - 1))).
  { replace c with (j + (1 + (c - j - 1))) at 1 by lia.
    rewrite (Z.pow_add_r 2 j), (Z.pow_add_r 2 1) by lia. reflexivity. }
  assert (Ediv : forall x, x / 2 ^ c = x / 2 ^ j / (2 * 2 ^ (c - j - 1))).
  { intros x. rewrite Ec, Z.div_div by lia. reflexivity. }
  assert (Emod : forall x, x mod 2 ^ c
                   = x mod 2 ^ j + 2 ^ j * ((x / 2 ^ j) mod (2 * 2 ^ (c - j - 1)))).
  { intros x. rewrite Ec. apply Z.rem_mul_r; lia. }
  unfold rne. rewrite (Ediv n), (Ediv n'), (Emod n), (Emod n'), <- Hq.
  set (h := (n / 2 ^ j) mod (2 * 2 ^ (c - j - 1))).
  set (k := n / 2 ^ j / (2 * 2 ^ (c - j - 1))).
  pose proof (Z.mod_pos_bound n (2 ^ j) Hp) as Bt.
  pose proof (Z.mod_pos_bound n' (2 ^ j) Hp) as Bt'.
  rewrite Ec. clear Ec Ediv Emod Hq. clearbody h k.
  set (t := n mod 2 ^ j) in *. set (t' := n' mod 2 ^ j) in *. clearbody t t'.
  set (T := 2 ^ (c - j - 1)) in *. set (P := 2 ^ j) in *. clearbody T P.
  assert (Hc : (2 * (t + P * h) ?= P * (2 * T)) = (2 * (t' + P * h) ?= P * (2 * T))).
  { destruct (Z.lt_trichotomy h T) as [L|[E|G]].
    - transitivity Lt; [|symmetry]; apply Z.compare_lt_iff; nia.
    - subst h. destruct (Z.eq_dec t 0) as [Z0|NZ].
      + assert (t' = 0) by tauto. subst. reflexivity.
      + assert (t' <> 0) by tauto.
        transitivity Gt; [|symmetry]; apply Z.compare_gt_iff; nia.
    - transitivity Gt; [|symmetry]; apply Z.compare_gt_iff; nia. }
  now rewrite Hc.
Qed.

Lemma log2_cell (n j : Z) : 0 <= j -> 1 <= n / 2 ^ j -> Z.log2 n = Z.log2 (n / 2 ^ j) + j.
Proof.
  intros Hj Hq. assert (Hp : 0 < 2 ^ j) by (apply pow2_pos; lia).
  assert (Hn : 0 < n).
  { destruct (Z.le_gt_cases n 0) as [L|G]; [|assumption].
    assert (n / 2 ^ j <= 0) by (apply Z.div_le_upper_bound; lia). lia. }
  pose proof (log2_bounds (n / 2 ^ j) ltac:(lia)) as [B1 B2].
  pose proof (Z.log2_nonneg (n / 2 ^ j)) as L0.
  apply Z.log2_unique; [lia|]. split.
  - rewrite Z.pow_add_r by lia.
    apply Z.le_trans with (n / 2 ^ j * 2 ^ j); [nia|].
    rewrite Z.mul_comm. apply Z.mul_div_le. lia.
  - replace (Z.succ (Z.log2 (n / 2 ^ j) + j)) with (Z.log2 (n / 2 ^ j) + 1 + j) by lia.
    rewrite (Z.pow_add_r 2 (Z.log2 (n / 2 ^ j) + 1) j) by lia.
    pose proof (Z.div_mod n (2 ^ j) ltac:(lia)) as Dm.
    pose proof (Z.mod_pos_bound n (2 ^ j) Hp) as Bm. nia.
Qed.

Lemma cexp_cell (n n' j : Z) :
  0 < n -> 0 < n' -> 0 <= j -> n / 2 ^ j = n' / 2 ^ j ->
  j <= 1074 \/ 1 <= n / 2 ^ j -> cexp n = cexp n'.
Proof.
  intros Hn Hn' Hj Hq Hc. assert (Hp : 0 < 2 ^ j) by (apply pow2_pos; lia).
  destruct (Z.le_gt_cases 1 (n / 2 ^ j)) as [H1|H0].
  - unfold cexp. rewrite (log2_cell n j), (log2_cell n' j), Hq by lia. reflexivity.
  - destruct Hc as [Hc|Hc]; [|lia].
    assert (Hs : forall x, 0 < x -> x / 2 ^ j < 1 -> cexp x = 1074).
    { intros x Hx Hd. assert (x < 2 ^ j).
      { destruct (Z.lt_ge_cases x (2 ^ j)) as [L|G]; [assumption|].
        assert (1 <= x / 2 ^ j) by (apply Z.div_le_lower_bound; lia). lia. }
      assert (Z.log2 x < j) by (apply Z.log2_lt_pow2; lia).
      unfold cexp. lia. }
    rewrite (Hs n), (Hs n') by lia. reflexivity.
Qed.

Lemma rnd_pos_cell (n n' j : Z) :
  0 < n -> 0 < n' -> 0 <= j < cexp n -> n / 2 ^ j = n' / 2 ^ j ->
  (n mod 2 ^ j = 0 <-> n' mod 2 ^ j = 0) ->
  j <= 1074 \/ 1 <= n / 2 ^ j ->
  rnd_pos n = rnd_pos n'.
Proof.
  intros Hn Hn' Hj Hq Hz Hc. unfold rnd_pos.
  rewrite <- (cexp_cell n n' j) by (assumption || lia).
  f_equal. now apply (rne_cell n n' j).
Qed.

(** ** The sticky quotient *)

Lemma sticky_bounds (n d : Z) : n / d <= sticky n d <= n / d + 1.
Proof.
  unfold sticky. destruct (n mod d =? 0); [lia|].
  pose proof (Z.div_mod (n / d) 2 ltac:(lia)). pose proof (Z.mod_pos_bound (n / d) 2 ltac:(lia)).
  lia.
Qed.

Lemma sticky_pos (n d : Z) : 0 < d -> 0 < n -> 0 < sticky n d.
Proof.
  intros Hd Hn. unfold sticky. destruct (Z.eqb_spec (n mod d) 0) as [E|E].
  - pose proof (Z.div_mod n d ltac:(lia)). rewrite E in *.
    assert (0 <= n / d) by (apply Z.div_pos; lia). nia.
  - assert (0 <= n / d / 2) by (apply Z.div_pos; [apply Z.div_pos|]; lia). lia.
Qed.

Lemma sticky_mono (n1 n2 d : Z) : 0 < d -> n1 <= n2 -> sticky n1 d <= sticky n2 d.
Proof.
  intros Hd H. pose proof (Z.div_le_mono n1 n2 d Hd H) as Hq.
  pose proof (sticky_bounds n1 d) as B1. pose proof (sticky_bounds n2 d) as B2.
  destruct (Z.eq_dec (n1 / d) (n2 / d)) as [E|E]; [|lia].
  unfold sticky in *. rewrite <- E in *.
  pose proof (Z.div_mod n1 d ltac:(lia)) as D1. pose proof (Z.div_mod n2 d ltac:(lia)) as D2.
  pose proof (Z.mod_pos_bound n1 d Hd). pose proof (Z.mod_pos_bound n2 d Hd).
  rewrite <- E in D2.
  destruct (Z.eqb_spec (n1 mod d) 0), (Z.eqb_spec (n2 mod d) 0); lia.
Qed.

Lemma sticky_scale (n d c : Z) : 0 < d -> 0 < c -> sticky (n * c) (d * c) = sticky n d.
Proof.
  intros Hd Hc. unfold sticky.
  rewrite Z.div_mul_cancel_r, Z.mul_mod_distr_r by lia.
  destruct (Z.eqb_spec (n mod d) 0) as [E|E].
  - rewrite E. reflexivity.
  - replace (n mod d * c =? 0) with false; [reflexivity|].
    symmetry. apply Z.eqb_neq. nia.
Qed.

Lemma quotient_mono (n1 n2 d : Z) : 0 < d -> n1 <= n2 -> quotient n1 d <= quotient n2 d.
Proof.
  intros Hd H. unfold quotient.
  destruct n1 as [|p1|p1], n2 as [|p2|p2]; try lia.
  - pose proof (sticky_pos (Zpos p2) d Hd). lia.
  - apply sticky_mono; assumption.
  - pose proof (sticky_pos (Zpos p1) d Hd). lia.
  - pose proof (sticky_pos (Zpos p1) d Hd). pose proof (sticky_pos (Zpos p2) d Hd). lia.
  - assert (sticky (Zpos p2) d <= sticky (Zpos p1) d) by (apply sticky_mono; lia). lia.
Qed.

(** The quotient [(m * q + r) * 2^k / m], made sticky, lies in the same
    cell of the grid of multiples of [2^(k-1)] as the mantissa [q]
    extended by the two bits of the position of [r]. *)
Lemma division_cell (m q r k : Z) :
  0 < m -> 0 <= q -> 0 <= r < m -> 2 <= k ->
  let Q := sticky ((m * q + r) * 2 ^ k) m in
  let S := (4 * q + loc_code (div_loc r m)) * 2 ^ (k - 2) in
  Q / 2 ^ (k - 1) = 2 * q + (if 2 * r <? m then 0 else 1) /\
  S / 2 ^ (k - 1) = 2 * q + (if 2 * r <? m then 0 else 1) /\
  (Q mod 2 ^ (k - 1) = 0 <-> S mod 2 ^ (k - 1) = 0).
Proof.
  intros Hm Hq Hr Hk Q S.
  assert (HP : 0 < 2 ^ (k - 2)) by (apply pow2_pos; lia).
  assert (E1 : 2 ^ (k - 1) = 2 * 2 ^ (k - 2)).
  { replace (k - 1) with (1 + (k - 2)) by lia. now rewrite Z.pow_add_r by lia. }
  assert (E2 : 2 ^ k = 4 * 2 ^ (k - 2)).
  { replace k with (2 + (k - 2)) at 1 by lia. now rewrite Z.pow_add_r by lia. }
  unfold Q, S. rewrite E1, E2. clear Q S E1 E2.
  set (P := 2 ^ (k - 2)) in *. clearbody P.
  (* the code of the position *)
  assert (Hcode : loc_code (div_loc r m) / 2 = (if 2 * r <? m then 0 else 1) /\
                  (loc_code (div_loc r m) mod 2 = 0 <-> r = 0 \/ 2 * r = m) /\
                  0 <= loc_code (div_loc r m) < 4).
  { unfold div_loc. destruct (Z.eqb_spec r 0) as [R0|R0].
    - subst r. cbn [loc_code]. replace (2 * 0 <? m) with true by (symmetry; apply Z.ltb_lt; lia).
      repeat split; auto; lia.
    - destruct (Z.compare_spec (2 * r) m) as [C|C|C]; cbn [loc_code];
        destruct (Z.ltb_spec (2 * r) m); try lia; repeat split; try reflexivity; try lia;
        intros H'; try discriminate H'; lia. }
  destruct Hcode as (Hc2 & Hcm & Hcb). set (c := loc_code (div_loc r m)) in *. clearbody c.
  (* the integer part of the quotient *)
  set (N := (m * q + r) * (4 * P)).
  assert (EN : N = (4 * P * q) * m + 4 * P * r) by (unfold N; ring).
  assert (EF : N / m = 4 * P * q + 4 * P * r / m).
  { rewrite EN, Z.add_comm, Z.div_add by lia. lia. }
  assert (ER : N mod m = (4 * P * r) mod m).
  { rewrite EN, Z.add_comm, Z.mod_add by lia. reflexivity. }
  pose proof (Z.div_mod (4 * P * r) m ltac:(lia)) as Dg.
  pose proof (Z.mod_pos_bound (4 * P * r) m Hm) as Bg.
  set (g := 4 * P * r / m) in *. set (rho := (4 * P * r) mod m) in *.
  assert (Hg0 : 0 <= g) by (apply Z.div_pos; nia).
  (* the half of the quotient by the grid *)
  assert (Hhalf : N / m / (2 * P) = 2 * q + (if 2 * r <? m then 0 else 1)).
  { rewrite EF. replace (4 * P * q + g) with (g + (2 * q) * (2 * P)) by ring.
    rewrite Z.div_add by lia.
    assert (g / (2 * P) = (if 2 * r <? m then 0 else 1)); [|lia].
    destruct (Z.ltb_spec (2 * r) m) as [L|L].
    - apply Z.div_small. split; [assumption|].
      destruct (Z.lt_ge_cases g (2 * P)) as [G|G]; [assumption|]. exfalso. nia.
    - symmetry. apply (Z.div_unique g (2 * P) 1 (g - 2 * P)); [|lia]. left.
      assert (2 * P <= g).
      { destruct (Z.le_gt_cases (2 * P) g) as [G|G]; [assumption|]. exfalso. nia. }
      assert (g < 4 * P); [|lia].
      destruct (Z.lt_ge_cases g (4 * P)) as [G|G]; [assumption|]. exfalso. nia. }
  assert (Hsq : forall F, (2 * (F / 2) + 1) / (2 * P) = F / (2 * P)).
  { intros F. rewrite <- !Z.div_div by lia. f_equal.
    rewrite Z.add_comm, Z.mul_comm, Z.div_add by lia. reflexivity. }
  split; [|split].
  - unfold sticky. fold N. destruct (N mod m =? 0); [exact Hhalf|].
    rewrite Hsq. exact Hhalf.
  - rewrite Z.div_mul_cancel_r by lia.
    replace (4 * q + c) with (c + (2 * q) * 2) by ring. rewrite Z.div_add by lia. lia.
  - rewrite Z.mul_mod_distr_r by lia.
    replace (4 * q + c) with (c + (2 * q) * 2) by ring. rewrite Z.mod_add by lia.
    assert (HS : c mod 2 * P = 0 <-> r = 0 \/ 2 * r = m).
    { rewrite <- Hcm. pose proof (Z.mod_pos_bound c 2 ltac:(lia)). split; nia. }
    rewrite HS. unfold sticky. fold N. rewrite ER. fold rho.
    destruct (Z.eqb_spec rho 0) as [R0|R0].
    + rewrite EF. fold g. replace (4 * P * q + g) with (g + (2 * q) * (2 * P)) by ring.
      rewrite Z.mod_add by lia. rewrite R0, Z.add_0_r in Dg.
      split.
      * intros Hz. apply Z.mod_divide in Hz; [|lia]. destruct Hz as [u Hu].
        assert (Hu' : 2 * r = m * u) by nia.
        assert (0 <= u < 2) by nia.
        assert (u = 0 \/ u = 1) by lia. destruct H0; subst u; [left|right]; lia.
      * intros [R|R].
        -- subst r. replace g with 0 by nia. apply Z.mod_0_l. lia.
        -- assert (g = 2 * P) by nia. rewrite H. apply Z.mod_same. lia.
    + split.
      * intros Hz. exfalso.
        assert (Ho : (2 * (N / m / 2) + 1) mod 2 = 1).
        { rewrite Z.add_comm, Z.mul_comm, Z.mod_add by lia. reflexivity. }
        apply Z.mod_divide in Hz; [|lia]. destruct Hz as [u Hu].
        rewrite Hu in Ho. replace (u * (2 * P)) with (0 + (u * P) * 2) in Ho by ring.
        rewrite Z.mod_add in Ho by lia. discriminate Ho.
      * intros [R|R]; exfalso; apply R0; unfold rho.
        -- subst r. rewrite Z.mul_0_r. apply Z.mod_0_l. lia.
        -- replace (4 * P * r) with ((2 * P) * m) by nia. apply Z.mod_mul. lia.
Qed.

(** ** [SFdiv] rounds the exact quotient *)

Lemma new_location_div (m r : Z) : 0 < m -> 0 <= r < m -> new_location m r = div_loc r m.
Proof.
  intros Hm Hr. unfold new_location, new_location_even, new_location_odd, div_loc.
  destruct (Z.even m) eqn:Ev; destruct (Z.eqb_spec r 0); try reflexivity.
  f_equal. pose proof (Zmod_even m) as Hmod. rewrite Ev in Hmod.
  pose proof (Z.div_mod m 2 ltac:(lia)) as Hd. rewrite Hmod in Hd.
  destruct (Z.compare_spec (2 * r + 1) m), (Z.compare_spec (2 * r) m); try reflexivity; lia.
Qed.

(** What [SFdiv_core_binary] computes on two valid numbers: a quotient
    [q] and remainder [r] of the dividend shifted left, with [q] of full
    width unless the result is below the normal range. *)
Lemma SFdiv_core_spec (s1 s2 : bool) (m1 m2 : positive) (e1 e2 : Z) :
  valid_binary (S754_finite s1 m1 e1) = true ->
  valid_binary (S754_finite s2 m2 e2) = true ->
  exists q r e',
    SFdiv_core_binary prec emax (Zpos m1) e1 (Zpos m2) e2
    = (q, e', div_loc r (Zpos m2)) /\
    -2045 <= e' <= e1 - e2 /\ 0 <= q /\ 0 <= r < Zpos m2 /\
    Zpos m1 * 2 ^ (e1 - e2 - e') = Zpos m2 * q + r /\
    (e' <= -1074 \/ 2 ^ 52 <= q).
Proof.
  intros V1 V2.
  destruct (valid_finite_inv _ _ _ V1) as (F1 & B1 & M1 & N1).
  destruct (valid_finite_inv _ _ _ V2) as (F2 & B2 & M2 & N2).
  unfold SFdiv_core_binary. cbn [Zdigits2].
  rewrite !digits2_pos_log2.
  set (d1 := Z.log2 (Zpos m1) + 1). set (d2 := Z.log2 (Zpos m2) + 1).
  set (e' := Z.min (fexp prec emax (d1 + e1 - (d2 + e2))) (e1 - e2)).
  assert (He : e' <= e1 - e2 /\ e' <= fexp prec emax (d1 + e1 - (d2 + e2)) /\ -2045 <= e').
  { unfold e'. rewrite fexp_eq. lia. }
  destruct He as (He1 & He2 & He3).
  set (s := e1 - e2 - e'). assert (Es : s = e1 - e2 - e') by reflexivity.
  clearbody s. assert (Hs : 0 <= s) by lia.
  assert (Em : match s with
               | 0 => Zpos m1
               | Zpos _ => Z.shiftl (Zpos m1) s
               | Zneg _ => 0
               end = Zpos m1 * 2 ^ s).
  { clear Es. destruct s as [|p|p]; try lia.
    now rewrite Z.shiftl_mul_pow2 by lia. }
  rewrite Em.
  assert (Hps : 0 < 2 ^ s) by now apply pow2_pos.
  pose proof (Z_div_mod (Zpos m1 * 2 ^ s) (Zpos m2) ltac:(lia)) as Hdm.
  destruct (Z.div_eucl (Zpos m1 * 2 ^ s) (Zpos m2)) as [q r]. destruct Hdm as [Hdm Hr].
  assert (Hq : 0 <= q) by nia.
  exists q, r, e'. rewrite new_location_div by lia.
  split; [reflexivity|]. split; [lia|]. split; [assumption|]. split; [assumption|].
  split; [rewrite <- Es; exact Hdm|].
  destruct (Z.le_gt_cases e' (-1074)) as [L|G]; [left; assumption|right].
  rewrite fexp_eq in He2.
  assert (Hd : 53 <= d1 - d2 + s) by lia.
  pose proof (log2_bounds (Zpos m1) ltac:(lia)) as [L1 _].
  pose proof (log2_bounds (Zpos m2) ltac:(lia)) as [_ L2].
  pose proof (Z.log2_nonneg (Zpos m1)). pose proof (Z.log2_nonneg (Zpos m2)).
  fold d2 in L2.
  assert (Hbig : 2 ^ 52 * 2 ^ d2 <= Zpos m1 * 2 ^ s).
  { apply Z.le_trans with (2 ^ (d1 - 1) * 2 ^ s).
    - rewrite <- !Z.pow_add_r by (unfold d1, d2; lia). apply pow2_le. unfold d1, d2 in *. lia.
    - apply Z.mul_le_mono_nonneg_r; [lia|]. unfold d1.
      now replace (Z.log2 (Zpos m1) + 1 - 1) with (Z.log2 (Zpos m1)) by lia. }
  assert (Hp52 : 0 < 2 ^ 52) by (apply pow2_pos; lia).
  destruct (Z.le_gt_cases (2 ^ 52) q) as [Q|Q]; [assumption|]. exfalso.
  assert (q + 1 <= 2 ^ 52) by lia.
  assert (Zpos m2 * q + r < Zpos m2 * 2 ^ 52) by nia.
  nia.
Qed.

Lemma Zdigits2_extended (q c : Z) : 0 < q -> 0 <= c < 4 -> Zdigits2 (4 * q + c) = Zdigits2 q + 2.
Proof.
  intros Hq Hc. rewrite !Zdigits2_log2 by lia.
  assert (E : (4 * q + c) / 2 ^ 2 = q).
  { change (2 ^ 2) with 4. replace (4 * q + c) with (c + q * 4) by ring.
    rewrite Z.div_add by lia. rewrite Z.div_small by lia. lia. }
  rewrite (log2_cell (4 * q + c) 2) by (rewrite ?E; lia). rewrite E. lia.
Qed.

Lemma loc_code_bounds (l : location) : 0 <= loc_code l < 4.
Proof. destruct l as [|[| |]]; cbn [loc_code]; lia. Qed.

Lemma loc_code_div_zero (r m : Z) : loc_code (div_loc r m) = 0 -> r = 0.
Proof.
  unfold div_loc. destruct (Z.eqb_spec r 0); [auto|].
  destruct (2 * r ?= m); cbn [loc_code]; lia.
Qed.

(** The quotient of two valid finite numbers: the sticky quotient of the
    two values, rounded. *)
Lemma SFdiv_finite_spec (s1 s2 : bool) (m1 m2 : positive) (e1 e2 : Z) :
  valid_binary (S754_finite s1 m1 e1) = true ->
  valid_binary (S754_finite s2 m2 e2) = true ->
  is_nan_SF (SFdiv prec emax (S754_finite s1 m1 e1) (S754_finite s2 m2 e2)) = false /\
  SFval (SFdiv prec emax (S754_finite s1 m1 e1) (S754_finite s2 m2 e2))
  = cond_Zopp (xorb s1 s2)
      (Z.min huge (rnd_pos (sticky (Zpos m1 * 2 ^ (e1 + bias) * 2 ^ bias)
                                   (Zpos m2 * 2 ^ (e2 + bias))))).
Proof.
  intros V1 V2.
  destruct (SFdiv_core_spec s1 s2 m1 m2 e1 e2 V1 V2) as (q & r & e' & Ec & He & Hq & Hr & Hdm & Hw).
  destruct (valid_finite_inv _ _ _ V1) as (F1 & B1 & M1 & N1).
  destruct (valid_finite_inv _ _ _ V2) as (F2 & B2 & M2 & N2).
  cbn [SFdiv]. rewrite Ec.
  set (l := div_loc r (Zpos m2)) in *. pose proof (loc_code_bounds l) as Hc.
  (* the extended mantissa is positive *)
  assert (Hpos : 0 < 4 * q + loc_code l).
  { destruct (Z.eq_dec q 0) as [Q0|Q0]; [|lia]. subst q.
    destruct (Z.eq_dec (loc_code l) 0) as [C0|C0]; [|lia].
    apply loc_code_div_zero in C0. subst r.
    assert (0 < Zpos m1 * 2 ^ (e1 - e2 - e')) by (apply Z.mul_pos_pos; [lia|apply pow2_pos; lia]).
    lia. }
  (* the shifts *)
  assert (Hn : e' <= fexp prec emax (Zdigits2 q + e')).
  { rewrite fexp_eq. destruct Hw as [L|G]; [lia|].
    rewrite Zdigits2_log2 by (assert (0 < 2 ^ 52) by (apply pow2_pos; lia); lia).
    assert (52 <= Z.log2 q) by (apply Z.log2_le_pow2; [assert (0 < 2 ^ 52) by (apply pow2_pos; lia)|]; lia).
    lia. }
  assert (Hf : fexp prec emax (Zdigits2 (4 * q + loc_code l) + (e' - 2))
               = fexp prec emax (Zdigits2 q + e')).
  { destruct (Z.eq_dec q 0) as [Q0|Q0].
    - subst q. assert (L : e' <= -1074).
      { destruct Hw as [L|G]; [assumption|]. assert (0 < 2 ^ 52) by (apply pow2_pos; lia). lia. }
      rewrite !fexp_eq. cbn [Zdigits2 Z.mul Z.add].
      assert (Zdigits2 (loc_code l) <= 2).
      { destruct l as [|[| |]]; cbn; lia. }
      lia.
    - rewrite Zdigits2_extended by lia. f_equal. lia. }
  rewrite (bra_loc _ q e' l Hq Hn Hf).
  destruct (4 * q + loc_code l) as [|p|p] eqn:Ep; try lia.
  destruct (bra_exact_spec (xorb s1 s2) p (e' - 2)) as [Hnan Hval].
  { unfold bias. lia. }
  { change (Zpos (digits2_pos p)) with (Zdigits2 (Zpos p)). rewrite Hf. lia. }
  split.
  { destruct (binary_round_aux prec emax (xorb s1 s2) (Zpos p) (e' - 2) loc_Exact);
      try reflexivity. congruence. }
  rewrite Hval. f_equal. f_equal. rewrite <- Ep.
  (* the two values lie in the same cell *)
  set (k := e' + bias).
  assert (Hk : 103 <= k) by (unfold k, bias; lia).
  assert (Esticky : sticky (Zpos m1 * 2 ^ (e1 + bias) * 2 ^ bias) (Zpos m2 * 2 ^ (e2 + bias))
                    = sticky ((Zpos m2 * q + r) * 2 ^ k) (Zpos m2)).
  { rewrite <- Hdm. rewrite <- (sticky_scale _ (Zpos m2) (2 ^ (e2 + bias)))
      by (try apply pow2_pos; unfold bias; lia).
    f_equal. rewrite <- !Z.mul_assoc. f_equal.
    rewrite <- !Z.pow_add_r by (unfold k, bias in *; lia). f_equal. unfold k. lia. }
  rewrite Esticky. replace (e' - 2 + bias) with (k - 2) by (unfold k; lia).
  destruct (division_cell (Zpos m2) q r k ltac:(lia) Hq Hr ltac:(lia)) as (HQ & HS & Hz).
  fold l in HS, Hz.
  set (Q := sticky ((Zpos m2 * q + r) * 2 ^ k) (Zpos m2)) in *.
  set (S := (4 * q + loc_code l) * 2 ^ (k - 2)) in *.
  assert (HposS : 0 < S) by (apply Z.mul_pos_pos; [lia|apply pow2_pos; lia]).
  assert (HposQ : 0 < Q).
  { apply sticky_pos; [lia|]. apply Z.mul_pos_pos; [|apply pow2_pos; lia].
    rewrite <- Hdm. apply Z.mul_pos_pos; [lia|apply pow2_pos; lia]. }
  apply (rnd_pos_cell S Q (k - 1)); try assumption.
  - split; [lia|]. destruct Hw as [L|G].
    + pose proof (cexp_ge S). unfold k, bias. lia.
    + assert (2 ^ (52 + k) <= S).
      { unfold S. replace (52 + k) with (54 + (k - 2)) by lia.
        rewrite Z.pow_add_r by lia. apply Z.mul_le_mono_nonneg_r; [apply Z.lt_le_incl, pow2_pos; lia|].
        change (2 ^ 54) with (4 * 2 ^ 52). lia. }
      assert (52 + k <= Z.log2 S) by (apply Z.log2_le_pow2; lia).
      unfold cexp. lia.
  - lia.
  - tauto.
  - destruct Hw as [L|G]; [left; unfold k, bias; lia|right].
    rewrite HS. assert (0 < 2 ^ 52) by (apply pow2_pos; lia).
    destruct (2 * r <? Zpos m2); lia.
Qed.

(** ** Division of numbers *)

Lemma quotient_pos (n d : Z) : 0 < n -> quotient n d = sticky n d.
Proof. destruct n; try lia. reflexivity. Qed.

Lemma quotient_neg (n d : Z) : 0 < n -> quotient (- n) d = - sticky n d.
Proof. destruct n; try lia. reflexivity. Qed.

(** The quotient by a positive finite number is the exact quotient,
    rounded. *)
Lemma div_val (x y : float) :
  is_finite x = true -> is_finite y = true -> 0 < scaled y ->
  is_nan (x / y) = false /\
  scaled (x / y) = RND (quotient (scaled x * 2 ^ bias) (scaled y)).
Proof.
  intros Fx Fy Py. rewrite is_nan_spec. unfold scaled in *. rewrite div_spec.
  unfold SF64div.
  rewrite is_finite_spec in Fx, Fy.
  pose proof (Prim2SF_valid x) as Vx. pose proof (Prim2SF_valid y) as Vy.
  destruct (Prim2SF y) as [sy|sy| |sy my ey]; cbn [finite_SF] in Fy; try discriminate Fy;
    cbn [SFval] in Py; [lia|].
  destruct sy; cbn [cond_Zopp] in Py; [lia|].
  assert (Hb : 0 < 2 ^ bias) by (apply pow2_pos; unfold bias; lia).
  destruct (Prim2SF x) as [sx|sx| |sx mx ex]; cbn [finite_SF] in Fx; try discriminate Fx.
  - cbn [SFdiv SFval is_nan_SF]. split; reflexivity.
  - destruct (SFdiv_finite_spec sx false mx my ex ey Vx Vy) as [Hn Hv].
    split; [exact Hn|]. rewrite Hv. rewrite xorb_false_r. cbn [SFval cond_Zopp].
    destruct (SFval_finite_bound sx mx ex Vx) as [Hp _].
    assert (Hpp : 0 < Zpos mx * 2 ^ (ex + bias) * 2 ^ bias) by (apply Z.mul_pos_pos; assumption).
    assert (Hs : 0 < sticky (Zpos mx * 2 ^ (ex + bias) * 2 ^ bias) (Zpos my * 2 ^ (ey + bias))).
    { apply sticky_pos; assumption. }
    rewrite (cond_Zopp_RND sx _ Hs). f_equal.
    destruct sx; cbn [cond_Zopp].
    + rewrite Z.mul_opp_l, quotient_neg by assumption. reflexivity.
    + now rewrite quotient_pos.
Qed.

Lemma div_inf (x c : float) (s : bool) :
  Prim2SF x = S754_infinity s -> is_finite c = true -> 0 < scaled c ->
  Prim2SF (x / c) = S754_infinity s.
Proof.
  intros Ex Fc Pc. rewrite div_spec, Ex. unfold SF64div.
  rewrite is_finite_spec in Fc. unfold scaled in Pc.
  destruct (Prim2SF c) as [sy|sy| |sy my ey]; cbn [finite_SF] in Fc; try discriminate Fc;
    cbn [SFval] in Pc; [lia|].
  destruct sy; cbn [cond_Zopp] in Pc; [lia|]. cbn [SFdiv]. now rewrite xorb_false_r.
Qed.

Lemma div_not_nan (x c : float) :
  is_nan x = false -> is_finite c = true -> 0 < scaled c -> is_nan (x / c) = false.
Proof.
  intros Nx Fc Pc.
  apply (op_not_nan (fun a _ => a / c)%float
           (fun a _ => quotient (a * 2 ^ bias) (scaled c))
           (fun a _ Fa _ => div_val a c Fa Fc Pc)
           (fun a _ s Ea _ => div_inf a c s Ea Fc Pc) x c Nx Fc).
Qed.

(** Division by a positive finite number is monotone. *)
Lemma div_mono (x1 x2 c : float) :
  fle x1 x2 -> is_finite c = true -> 0 < scaled c -> fle (x1 / c) (x2 / c).
Proof.
  intros Hx Fc Pc.
  apply (op_mono (fun a _ => a / c)%float
           (fun a _ => quotient (a * 2 ^ bias) (scaled c))
           (fun a _ Fa _ => div_val a c Fa Fc Pc)
           (fun a _ s Ea _ => div_inf a c s Ea Fc Pc) x1 x2 c c); try assumption.
  intros a1 a2 _ _ Ha _ _. apply quotient_mono; [assumption|].
  apply Z.mul_le_mono_nonneg_r; [|assumption].
  apply Z.lt_le_incl, pow2_pos. unfold bias. lia.
Qed.

Lemma sub_not_nan_l (x y : float) :
  is_finite x = true -> is_nan y = false -> is_nan (x - y) = false.
Proof.
  intros Fx Ny. destruct (shape_of y Ny) as [Fy|s Ey].
  - now apply sub_val.
  - rewrite is_nan_spec, sub_spec, Ey. rewrite is_finite_spec in Fx.
    now destruct (Prim2SF x).
Qed.

(** ** [clamp] and [riskLevel] *)

(** X1: [clamp] keeps a number between its bounds: the result lies in
    [[min, max]], equals the value when the value does, and is the bound
    the value has passed otherwise. *)
Theorem clamp_within (value min max : float) :
  is_nan value = false -> (min <=? max)%float = true ->
  (min <=? clamp value min max)%float = true /\
  (clamp value min max <=? max)%float = true /\
  ((min <=? value)%float = true -> (value <=? max)%float = true ->
     (clamp value min max =? value)%float = true) /\
  ((value <? min)%float = true -> (clamp value min max =? min)%float = true) /\
  ((max <? value)%float = true -> (clamp value min max =? max)%float = true).
Proof.
  intros Nv Hb. apply fle_leb in Hb. destruct Hb as (Nlo & Nhi & Hb).
  destruct (clamp_val value min max Nv Nlo Nhi) as [Nc Vc].
  rewrite !leb_val, !ltb_val, !eqb_val by assumption. rewrite Vc.
  repeat split; intros; rewrite ?Z.leb_le, ?Z.ltb_lt, ?Z.eqb_eq in *; lia.
Qed.

Lemma clamp_within_witness :
  (clamp 130 0 100 =? 100)%float = true /\ (clamp (-3) 0 100 =? 0)%float = true.
Proof.
  split.
  - apply (clamp_within 130 0 100); reflexivity.
  - apply (clamp_within (-3) 0 100); reflexivity.
Defined.

Lemma riskLevel_mono (s1 s2 : float) :
  (s1 <=? s2)%float = true -> levelRank (riskLevel s1) <= levelRank (riskLevel s2).
Proof.
  intros H. apply fle_leb in H. destruct H as (N1 & N2 & H).
  unfold riskLevel. rewrite !leb_val by (assumption || reflexivity).
  destruct (Z.leb_spec (scaled 75) (scaled s1)), (Z.leb_spec (scaled 75) (scaled s2)),
    (Z.leb_spec (scaled 55) (scaled s1)), (Z.leb_spec (scaled 55) (scaled s2)),
    (Z.leb_spec (scaled 35) (scaled s1)), (Z.leb_spec (scaled 35) (scaled s2));
    cbn [levelRank]; lia.
Qed.

(** X2: A higher score never gets a lower level, whatever the two numbers
    are (fractions and infinities included). *)
Theorem riskLevel_monotone (s1 s2 : float) :
  (s1 <=? s2)%float = true -> levelRank (riskLevel s1) <= levelRank (riskLevel s2).
Proof.
  intros H. apply fle_leb in H. destruct H as (N1 & N2 & H).
  unfold riskLevel. rewrite !leb_val by (assumption || reflexivity).
  assert (H35 : scaled 35 < scaled 55) by (vm_compute; reflexivity).
  assert (H55 : scaled 55 < scaled 75) by (vm_compute; reflexivity).
  destruct (Z.leb_spec (scaled 75) (scaled s1)), (Z.leb_spec (scaled 75) (scaled s2)),
    (Z.leb_spec (scaled 55) (scaled s1)), (Z.leb_spec (scaled 55) (scaled s2)),
    (Z.leb_spec (scaled 35) (scaled s1)), (Z.leb_spec (scaled 35) (scaled s2));
    cbn [levelRank]; lia.
Qed.

Lemma riskLevel_monotone_witness :
  levelRank (riskLevel 54.5) <= levelRank (riskLevel 55).
Proof. apply riskLevel_monotone. reflexivity. Defined.

(** ** [estimateRisk]: monotonicity in all readings *)

Lemma weatherTotal_mono (i1 i2 : RiskInput) :
  finite_input i1 -> finite_input i2 -> milder i1 i2 ->
  fle (weatherTotal i1) (weatherTotal i2).
Proof.
  intros (Ft1 & Fh1 & Fw1 & Fp1 & F101 & F251) (Ft2 & Fh2 & Fw2 & Fp2 & F102 & F252)
    (Em & Ht & Hw & Hh & H25 & H10 & _).
  apply fle_leb in Ht, Hw, Hh, H25, H10.
  unfold weatherTotal. rewrite Em.
  repeat (apply add_mono;
          [|first [apply contrib_mono|apply contrib_anti]; solve [assumption|lit]
           |contrib|contrib]).
  apply fle_refl, finite_not_nan, seasonalBase_finite.
Qed.

(** X3: With the month fixed and all readings finite, a request that is
    nowhere more adverse (not warmer, not windier, not drier, not dustier,
    and raining if the other is) never gets a higher score, nor a higher
    level. *)
Theorem estimateRisk_monotone (i1 i2 : RiskInput) :
  finite_input i1 -> finite_input i2 -> milder i1 i2 ->
  (score (estimateRisk i1) <=? score (estimateRisk i2))%float = true /\
  levelRank (level (estimateRisk i1)) <= levelRank (level (estimateRisk i2)).
Proof.
  intros F1 F2 M.
  assert (S : (score (estimateRisk i1) <=? score (estimateRisk i2))%float = true).
  { apply score_mono. pose proof (weatherTotal_mono i1 i2 F1 F2 M) as Hw.
    destruct M as (_ & _ & _ & Hh & _ & _ & Hp).
    destruct F1 as (_ & Fh1 & _), F2 as (_ & Fh2 & _).
    unfold runningTotal.
    set (r1 := (if (0 <? in_precipitation i1)%float
                then (weatherTotal i1 - 16)%float else weatherTotal i1)).
    set (r2 := (if (0 <? in_precipitation i2)%float
                then (weatherTotal i2 - 16)%float else weatherTotal i2)).
    assert (Hr : fle r1 r2).
    { unfold r1, r2. destruct (0 <? in_precipitation i2)%float.
      - rewrite (Hp eq_refl).
        apply sub_mono; [assumption|apply fle_refl; reflexivity|lit|lit].
      - destruct (0 <? in_precipitation i1)%float; [|assumption].
        apply fle_trans with (weatherTotal i1); [|assumption].
        apply sub_le_self; [apply Hw|lit|vm_compute; discriminate]. }
    apply fle_leb in Hh. destruct Hh as (N2 & N1 & Hh).
    rewrite !leb_val by (assumption || reflexivity).
    destruct (Z.leb_spec (scaled 70) (scaled (in_humidity i1))) as [L1|L1];
      destruct (Z.leb_spec (scaled 70) (scaled (in_humidity i2))) as [L2|L2]; try lia.
    - apply sub_mono; [assumption|apply fle_refl; reflexivity|lit|lit].
    - apply fle_trans with r1; [|assumption].
      apply sub_le_self; [apply Hr|lit|vm_compute; discriminate].
    - assumption. }
  split; [exact S|]. unfold estimateRisk in *. cbn [score level] in *.
  now apply riskLevel_mono.
Qed.

(** The worked example against the same day, warmer, windier, dustier and
    dry. *)
Lemma estimateRisk_monotone_witness :
  (score (estimateRisk (example_input 2))
   <=? score (estimateRisk
         {| in_date := march; in_temperature := 24; in_humidity := 35; in_wind := 7;
            in_precipitation := 0; in_pm10 := 40; in_pm25 := 20 |}))%float = true.
Proof.
  apply estimateRisk_monotone.
  - repeat split; reflexivity.
  - repeat split; reflexivity.
  - repeat split; reflexivity.
Defined.

(** ** [estimateRisk] on a reading that is no number *)

Lemma add_nan_l (x y : float) : is_nan x = true -> is_nan (x + y) = true.
Proof.
  intros H. apply is_nan_eq in H. subst x.
  rewrite is_nan_spec, add_spec. reflexivity.
Qed.

Lemma add_nan_r (x y : float) : is_nan y = true -> is_nan (x + y) = true.
Proof.
  intros H. apply is_nan_eq in H. subst y.
  rewrite is_nan_spec, add_spec. now destruct (Prim2SF x).
Qed.

Lemma sub_nan_l (x y : float) : is_nan x = true -> is_nan (x - y) = true.
Proof.
  intros H. apply is_nan_eq in H. subst x.
  rewrite is_nan_spec, sub_spec. reflexivity.
Qed.

Lemma sub_nan_r (x y : float) : is_nan y = true -> is_nan (x - y) = true.
Proof.
  intros H. apply is_nan_eq in H. subst y.
  rewrite is_nan_spec, sub_spec. now destruct (Prim2SF x).
Qed.

Lemma mul_nan_l (x y : float) : is_nan x = true -> is_nan (x * y) = true.
Proof.
  intros H. apply is_nan_eq in H. subst x.
  rewrite is_nan_spec, mul_spec. reflexivity.
Qed.

Lemma clamp_nan (v lo hi : float) : is_nan v = true -> is_nan (clamp v lo hi) = true.
Proof.
  intros H. unfold clamp, Math_min, Math_max. rewrite H, orb_true_r.
  change (is_nan nan) with true. rewrite orb_true_r. reflexivity.
Qed.

Lemma Math_round_nan (x : float) : is_nan x = true -> is_nan (Math_round x) = true.
Proof. intros H. apply is_nan_eq in H. subst x. reflexivity. Qed.

Lemma riskLevel_nan (x : float) : is_nan x = true -> riskLevel x = Low.
Proof. intros H. apply is_nan_eq in H. subst x. reflexivity. Qed.

(** X4: [estimateRisk] does not guard its readings: if the temperature, wind,
    humidity, PM2.5 or PM10 reading is [NaN], the score is [NaN] and the
    level is the lowest one. *)
Theorem estimateRisk_nan_reading (input : RiskInput) :
  nan_reading input ->
  is_nan (score (estimateRisk input)) = true /\ level (estimateRisk input) = Low.
Proof.
  intros H.
  assert (W : is_nan (weatherTotal input) = true).
  { unfold weatherTotal. destruct H as [H|[H|[H|[H|H]]]].
    - do 4 apply add_nan_l. now apply add_nan_r, clamp_nan, mul_nan_l, sub_nan_l.
    - do 3 apply add_nan_l. now apply add_nan_r, clamp_nan, mul_nan_l, sub_nan_l.
    - do 2 apply add_nan_l. now apply add_nan_r, clamp_nan, mul_nan_l, sub_nan_r.
    - apply add_nan_l. now apply add_nan_r, clamp_nan, mul_nan_l, sub_nan_l.
    - now apply add_nan_r, clamp_nan, mul_nan_l, sub_nan_l. }
  assert (R : is_nan (runningTotal input) = true).
  { unfold runningTotal.
    destruct (70 <=? in_humidity input)%float, (0 <? in_precipitation input)%float;
      repeat apply sub_nan_l; assumption. }
  unfold estimateRisk. cbn [score level].
  assert (S : is_nan (Math_round (clamp (runningTotal input) 0 100)) = true)
    by now apply Math_round_nan, clamp_nan.
  split; [exact S|now apply riskLevel_nan].
Qed.

(** The worked example with the humidity reading missing. *)
Lemma estimateRisk_nan_reading_witness :
  is_nan (score (estimateRisk
            {| in_date := march; in_temperature := 20; in_humidity := nan; in_wind := 5;
               in_precipitation := 0; in_pm10 := 30; in_pm25 := 15 |})) = true.
Proof.
  apply estimateRisk_nan_reading. right. right. left. reflexivity.
Defined.

(** ** [loadRisk]: the state after a run *)

Lemma loadRisk_snapshot_finite (current : CurrentWeather) (air : CurrentAir) :
  finite_snapshot (loadRisk_snapshot current air).
Proof. repeat split; apply parseNumber_finite; reflexivity. Qed.

Lemma graded_estimateRisk (input : RiskInput) :
  finite_input input -> graded (score (estimateRisk input)) (level (estimateRisk input)).
Proof. exact (estimateRisk_integer input). Qed.

Lemma map_index_fdate (newDate : string -> Date) (snapshot : WeatherSnapshot)
    (daily : DailyForecast) (times : list string) (index : nat) :
  map fdate (map_index (loadRisk_forecastDay newDate snapshot daily) index times) = times.
Proof.
  revert index. induction times as [|d times IH]; intros index; [reflexivity|].
  cbn [map_index map]. now rewrite IH.
Qed.

Lemma map_index_Forall {A B : Type} (P : B -> Prop) (f : A -> nat -> B) (l : list A) :
  (forall item index, P (f item index)) -> forall index, Forall P (map_index f index l).
Proof.
  intros H. induction l as [|x l IH]; intros index; cbn [map_index]; constructor; auto.
Qed.

Lemma loadRisk_todayRisk_graded (now : Date) (snapshot : WeatherSnapshot) :
  finite_snapshot snapshot ->
  graded (score (loadRisk_todayRisk now snapshot)) (level (loadRisk_todayRisk now snapshot)).
Proof.
  intros (Ft & Fh & Fw & Fp & F10 & F25). apply graded_estimateRisk. repeat split; assumption.
Qed.

Lemma loadRisk_forecastDay_graded (newDate : string -> Date) (snapshot : WeatherSnapshot)
    (daily : DailyForecast) (date : string) (index : nat) :
  finite_snapshot snapshot ->
  graded (fscore (loadRisk_forecastDay newDate snapshot daily date index))
         (flevel (loadRisk_forecastDay newDate snapshot daily date index)).
Proof.
  intros (Ft & Fh & Fw & Fp & F10 & F25). cbn [loadRisk_forecastDay fscore flevel].
  apply graded_estimateRisk.
  repeat split; cbn [in_temperature in_humidity in_wind in_precipitation in_pm10 in_pm25];
    try assumption; try (now apply parseNumber_finite).
  now destruct (40 <=? _)%float.
Qed.

(** A run that throws before the snapshot is built changes only the
    error. *)
Lemma loadRisk_unanswered (now : Date) (newDate : string -> Date)
    (weatherFetch : option (Response WeatherData))
    (airFetch : option (Response CurrentAir)) (st : RiskState) :
  (forall weather air, ~ (weatherFetch = ok_with weather /\ airFetch = ok_with air)) ->
  loadRisk now newDate weatherFetch airFetch st
  = {| st_weather := st_weather st; st_todayRisk := st_todayRisk st;
       st_forecast := st_forecast st; st_isLoading := false;
       st_error := Some loadRisk_failure |}.
Proof.
  intros H. unfold loadRisk.
  destruct weatherFetch as [[[] [[|weather]|]]|], airFetch as [[[] [[|air]|]]|];
    try reflexivity.
  exfalso. apply (H weather air). split; reflexivity.
Qed.

Lemma loadRisk_answered (now : Date) (newDate : string -> Date)
    (weather : WeatherData) (air : CurrentAir) (st : RiskState) :
  let snapshot := loadRisk_snapshot (data_current weather) air in
  let daily := data_daily weather in
  loadRisk now newDate (ok_with weather) (ok_with air) st
  = {| st_weather := Some snapshot;
       st_todayRisk := Some (loadRisk_todayRisk now snapshot);
       st_forecast :=
         match daily_time daily with
         | Nullish => []
         | Array times => map_index (loadRisk_forecastDay newDate snapshot daily) 0 times
         | NotArray => st_forecast st
         end;
       st_isLoading := false;
       st_error :=
         match daily_time daily with
         | NotArray => Some loadRisk_failure
         | _ => None
         end |}.
Proof.
  destruct weather as [current [[|times|] maxTemps maxWinds precipProb]]; reflexivity.
Qed.



(** ** [estimateRisk] in the peak season *)

Lemma penalty_lower (b : bool) (lo s c : float) :
  fle lo s -> is_finite c = true -> 0 <= scaled c ->
  fle (lo - c) (if b then s - c else s)%float.
Proof.
  intros H Fc Pc. destruct b.
  - apply sub_mono; try assumption. apply fle_refl. now apply finite_not_nan.
  - apply fle_trans with lo; [|assumption]. apply sub_le_self; try assumption. apply H.
Qed.

(** X5: From February to April the seasonal base alone keeps the score up:
    for finite readings the score is at least 20, and on a day without
    precipitation and with humidity below 70 it is at least 42, so the
    level is never the lowest one. *)
Theorem estimateRisk_peak_season (input : RiskInput) :
  finite_input input -> In (getMonth (in_date input)) [1; 2; 3]%float ->
  (20 <=? score (estimateRisk input))%float = true /\
  ((0 <? in_precipitation input)%float = false ->
   (70 <=? in_humidity input)%float = false ->
   (42 <=? score (estimateRisk input))%float = true /\
   level (estimateRisk input) <> Low).
Proof.
  intros F Hm.
  assert (Hb : fle 48 (seasonalBase (getMonth (in_date input) + 1))).
  { apply fle_leb. cbn [In] in Hm. decompose [or] Hm; try contradiction;
      match goal with H : _ = getMonth _ |- _ => rewrite <- H end; reflexivity. }
  assert (Hw : fle 42 (weatherTotal input)).
  { destruct F as (Ft & Fh & Fw & Fp & F10 & F25).
    change 42%float with (48 + -6 + 0 + 0 + 0 + 0)%float.
    unfold weatherTotal.
    repeat (apply add_mono;
            [|apply clamp_ge_lo; solve [inner|lit|vm_compute; discriminate]|lit|contrib]).
    assumption. }
  split.
  - pose proof (round_clamp_mono 20 (runningTotal input)) as R.
    change (Math_round (clamp 20 0 100)) with 20%float in R.
    unfold estimateRisk. cbn [score]. apply R. unfold runningTotal.
    change 20%float with (42 - 16 - 6)%float.
    apply penalty_lower; [|lit|vm_compute; discriminate].
    apply penalty_lower; [assumption|lit|vm_compute; discriminate].
  - intros Hp Hh.
    assert (S : (42 <=? score (estimateRisk input))%float = true).
    { pose proof (round_clamp_mono 42 (runningTotal input)) as R.
      change (Math_round (clamp 42 0 100)) with 42%float in R.
      unfold estimateRisk. cbn [score]. apply R. unfold runningTotal.
      now rewrite Hp, Hh. }
    split; [exact S|]. unfold estimateRisk in *. cbn [score level] in *.
    assert (S35 : (35 <=? Math_round (clamp (runningTotal input) 0 100))%float = true).
    { apply fle_leb. apply fle_trans with 42%float; [now apply fle_leb|now apply fle_leb]. }
    unfold riskLevel. rewrite S35.
    destruct (75 <=? Math_round (clamp (runningTotal input) 0 100))%float,
      (55 <=? Math_round (clamp (runningTotal input) 0 100))%float; discriminate.
Qed.

(** A cold, damp, rainy day in March still scores 20. *)
Lemma estimateRisk_peak_season_witness :
  (20 <=? score (estimateRisk
            {| in_date := march; in_temperature := 2; in_humidity := 90; in_wind := 0;
               in_precipitation := 5; in_pm10 := 5; in_pm25 := 3 |}))%float = true.
Proof.
  apply estimateRisk_peak_season.
  - repeat split; reflexivity.
  - cbn. auto.
Defined.

(** ** Months around the year *)

Lemma calendar_forall (P : Z -> bool) :
  forallb P calendar = true -> forall m, 1 <= m <= 12 -> P m = true.
Proof. intros H m Hm. apply (succ_range_forall 12 P H). lia. Qed.

(** On calendar months [monthDistance] is [circular], and the three tests
    of [seasonalFactor] are tests on it (checked on the 144 pairs). *)
Lemma monthDistance_checked (a b : Z) :
  1 <= a <= 12 -> 1 <= b <= 12 ->
  monthDistance (Number_of_Z a) (Number_of_Z b) = Number_of_Z (circular a b) /\
  SameValueZero (Number_of_Z a) (Number_of_Z b) = (circular a b =? 0) /\
  (monthDistance (Number_of_Z a) (Number_of_Z b) =? 1)%float = (circular a b =? 1) /\
  (monthDistance (Number_of_Z a) (Number_of_Z b) =? 2)%float = (circular a b =? 2).
Proof.
  intros Ha Hb.
  assert (T : forallb (fun a => forallb (fun b =>
    Leibniz.eqb (monthDistance (Number_of_Z a) (Number_of_Z b)) (Number_of_Z (circular a b))
    && Bool.eqb (SameValueZero (Number_of_Z a) (Number_of_Z b)) (circular a b =? 0)
    && Bool.eqb (monthDistance (Number_of_Z a) (Number_of_Z b) =? 1)%float (circular a b =? 1)
    && Bool.eqb (monthDistance (Number_of_Z a) (Number_of_Z b) =? 2)%float (circular a b =? 2))
    calendar) calendar = true) by lit.
  pose proof (calendar_forall _ T a Ha) as Ta. cbv beta in Ta.
  pose proof (calendar_forall _ Ta b Hb) as Tb. cbv beta in Tb.
  rewrite !andb_true_iff in Tb. destruct Tb as [[[T1 T2] T3] T4].
  apply Leibniz.eqb_spec in T1. apply eqb_prop in T2, T3, T4. auto.
Qed.

(** X7: For two calendar months [monthDistance] is their distance around the
    year: it does not depend on the order of the two, lies in [0..6], is
    0 only for equal months, and December and January are 1 apart. *)
Theorem monthDistance_calendar (a b : Z) :
  1 <= a <= 12 -> 1 <= b <= 12 ->
  monthDistance (Number_of_Z a) (Number_of_Z b) = Number_of_Z (circular a b) /\
  monthDistance (Number_of_Z a) (Number_of_Z b)
  = monthDistance (Number_of_Z b) (Number_of_Z a) /\
  0 <= circular a b <= 6 /\
  (circular a b = 0 <-> a = b) /\
  monthDistance 12 1 = 1%float.
Proof.
  intros Ha Hb.
  destruct (monthDistance_checked a b Ha Hb) as [E _].
  destruct (monthDistance_checked b a Hb Ha) as [E' _].
  split; [exact E|]. split.
  - rewrite E, E'. f_equal. unfold circular. lia.
  - unfold circular. repeat split; lia.
Qed.

Lemma monthDistance_calendar_witness :
  monthDistance (Number_of_Z 11) (Number_of_Z 2) = Number_of_Z 3.
Proof. apply (monthDistance_calendar 11 2); lia. Defined.

(** ** [seasonalFactor] by the distance to the season *)

Lemma circular_nonneg (a b : Z) : 1 <= a <= 12 -> 1 <= b <= 12 -> 0 <= circular a b.
Proof. unfold circular. lia. Qed.

Lemma existsb_distance (m d : Z) (season : list Z) (test : float -> bool) :
  (forall s, In s season -> test (Number_of_Z s) = (circular s m =? d)) ->
  existsb test (map Number_of_Z season) = existsb (fun s => circular s m =? d) season.
Proof.
  induction season as [|s season IH]; intros H; [reflexivity|].
  cbn [map existsb]. rewrite H by now left. f_equal. apply IH. intros. apply H. now right.
Qed.

Lemma seasonGap_exists (m d : Z) (season : list Z) :
  0 <= d < 12 -> Forall (fun s => 1 <= s <= 12) season -> 1 <= m <= 12 ->
  existsb (fun s => circular s m <=? d) season = (seasonGap m season <=? d).
Proof.
  intros Hd Hs Hm. induction Hs as [|s season Hs1 Hs IH]; cbn [existsb seasonGap fold_right].
  - symmetry. apply Z.leb_gt. lia.
  - fold (seasonGap m season). rewrite IH.
    destruct (Z.leb_spec (circular s m) d), (Z.leb_spec (seasonGap m season) d);
      cbn [orb]; symmetry; rewrite ?Z.leb_le, ?Z.leb_gt; lia.
Qed.

Lemma seasonGap_nonneg (m : Z) (season : list Z) :
  Forall (fun s => 1 <= s <= 12) season -> 1 <= m <= 12 -> 0 <= seasonGap m season.
Proof.
  intros Hs Hm. induction Hs as [|s season Hs1 Hs IH]; cbn [seasonGap fold_right]; [lia|].
  fold (seasonGap m season). pose proof (circular_nonneg s m Hs1 Hm). lia.
Qed.

Lemma existsb_le_split (m d : Z) (season : list Z) :
  existsb (fun s => circular s m <=? d) season
  = existsb (fun s => circular s m =? d) season
    || existsb (fun s => circular s m <=? d - 1) season.
Proof.
  induction season as [|s season IH]; cbn [existsb]; [reflexivity|]. rewrite IH.
  destruct (Z.eqb_spec (circular s m) d), (Z.leb_spec (circular s m) d),
    (Z.leb_spec (circular s m) (d - 1)); try lia;
    destruct (existsb (fun s => circular s m =? d) season),
      (existsb (fun s => circular s m <=? d - 1) season); reflexivity.
Qed.

Lemma existsb_below_zero (m : Z) (season : list Z) :
  Forall (fun s => 1 <= s <= 12) season -> 1 <= m <= 12 ->
  existsb (fun s => circular s m <=? 0 - 1) season = false.
Proof.
  intros Hs Hm. induction Hs as [|s season Hs1 Hs IH]; cbn [existsb]; [reflexivity|].
  rewrite IH, orb_false_r. apply Z.leb_gt. pose proof (circular_nonneg s m Hs1 Hm). lia.
Qed.

(** X8: For a calendar month and a season of calendar months the factor is
    fixed by the distance [d] around the year from the month to the
    nearest season month: 1 for [d = 0], 0.44 for [d = 1], 0.2 for
    [d = 2], and 0 from 3 months on and for a season without months. *)
Theorem seasonalFactor_by_gap (m : Z) (season : list Z) :
  1 <= m <= 12 -> Forall (fun s => 1 <= s <= 12) season ->
  seasonalFactor (Number_of_Z m) (map Number_of_Z season)
  = factorOfGap (seasonGap m season).
Proof.
  intros Hm Hs. pose proof (seasonGap_nonneg m season Hs Hm) as G0.
  assert (In12 : forall s, In s season -> 1 <= s <= 12) by now apply Forall_forall.
  unfold seasonalFactor, includes.
  rewrite (existsb_distance m 0 season), (existsb_distance m 1 season),
    (existsb_distance m 2 season);
    try (intros s Hin; now apply (monthDistance_checked s m (In12 s Hin) Hm)).
  pose proof (seasonGap_exists m 0 season ltac:(lia) Hs Hm) as L0.
  pose proof (seasonGap_exists m 1 season ltac:(lia) Hs Hm) as L1.
  pose proof (seasonGap_exists m 2 season ltac:(lia) Hs Hm) as L2.
  rewrite existsb_le_split in L0, L1, L2.
  rewrite existsb_below_zero in L0 by assumption. rewrite orb_false_r in L0.
  change (2 - 1) with 1 in L2. change (1 - 1) with 0 in L1.
  rewrite (existsb_le_split m 1), (existsb_le_split m 0) in L2.
  rewrite (existsb_le_split m 0) in L1.
  rewrite existsb_below_zero, orb_false_r in L1, L2 by assumption.
  unfold factorOfGap.
  destruct (existsb (fun s => circular s m =? 0) season),
    (existsb (fun s => circular s m =? 1) season),
    (existsb (fun s => circular s m =? 2) season);
    cbn [orb] in L0, L1, L2; symmetry in L0, L1, L2;
    rewrite ?Z.leb_le, ?Z.leb_gt in L0, L1, L2;
    destruct (Z.eqb_spec (seasonGap m season) 0), (Z.eqb_spec (seasonGap m season) 1),
      (Z.eqb_spec (seasonGap m season) 2); try reflexivity; lia.
Qed.

(** November against the cedar season [2; 3; 4]: 3 months away. *)
Lemma seasonalFactor_by_gap_witness :
  seasonalFactor (Number_of_Z 11) (map Number_of_Z [2; 3; 4]) = 0%float.
Proof.
  apply (seasonalFactor_by_gap 11 [2; 3; 4]); [lia|].
  repeat constructor; lia.
Defined.

(** ** The score of a pollen type *)

(** Addition is monotone also when it is the left summands that are
    finite. *)
Lemma add_inf_r (x y : float) (s : bool) :
  is_finite x = true -> Prim2SF y = S754_infinity s -> Prim2SF (x + y) = S754_infinity s.
Proof.
  intros Fx Ey. rewrite add_spec, Ey. rewrite is_finite_spec in Fx.
  now destruct (Prim2SF x).
Qed.

Lemma add_mono_l (x1 x2 y1 y2 : float) :
  fle x1 x2 -> fle y1 y2 -> is_finite x1 = true -> is_finite x2 = true ->
  fle (x1 + y1) (x2 + y2).
Proof.
  intros (_ & _ & Hx) (N1 & N2 & Hy) F1 F2.
  pose proof (add_not_nan_l x1 y1 F1 N1) as R1. pose proof (add_not_nan_l x2 y2 F2 N2) as R2.
  repeat split; try assumption.
  pose proof (scaled_bound (x1 + y1)) as B1. pose proof (scaled_bound (x2 + y2)) as B2.
  pose proof huge_pos.
  destruct (shape_of y1 N1) as [Fy1|s1 E1], (shape_of y2 N2) as [Fy2|s2 E2].
  - destruct (add_val x1 y1 F1 Fy1) as [_ ->]. destruct (add_val x2 y2 F2 Fy2) as [_ ->].
    apply RND_mono. lia.
  - pose proof (scaled_finite y1 Fy1).
    destruct (inf_cases y2 s2 E2) as [[-> V]|[-> V]]; [lia|].
    destruct (scaled_inf _ _ (add_inf_r x2 y2 false F2 E2)) as [-> _]. cbn [cond_Zopp]. lia.
  - pose proof (scaled_finite y2 Fy2).
    destruct (inf_cases y1 s1 E1) as [[-> V]|[-> V]]; [|lia].
    destruct (scaled_inf _ _ (add_inf_r x1 y1 true F1 E1)) as [-> _]. cbn [cond_Zopp]. lia.
  - destruct (inf_cases y1 s1 E1) as [[-> V1]|[-> V1]];
      destruct (inf_cases y2 s2 E2) as [[-> V2]|[-> V2]]; try lia.
    + destruct (scaled_inf _ _ (add_inf_r x1 y1 true F1 E1)) as [-> _].
      destruct (scaled_inf _ _ (add_inf_r x2 y2 true F2 E2)) as [-> _]. lia.
    + destruct (scaled_inf _ _ (add_inf_r x1 y1 true F1 E1)) as [-> _]. cbn [cond_Zopp]. lia.
    + destruct (scaled_inf _ _ (add_inf_r x1 y1 false F1 E1)) as [-> _].
      destruct (scaled_inf _ _ (add_inf_r x2 y2 false F2 E2)) as [-> _]. lia.
Qed.

(** The sum that [estimatePollenTypeScore] clamps and rounds. *)
Lemma pollen_boost_finite (weather : option WeatherSnapshot) :
  finite_weather weather ->
  is_finite (match weather with
             | Some w => clamp ((wind w - 2) * 6) 0 18 | None => 6%float end) = true /\
  is_finite (match weather with
             | Some w => clamp ((50 - humidity w) * 0.35) 0 12 | None => 4%float end) = true /\
  is_finite (match weather with
             | Some w => if (0 <? precipitation w)%float then 12%float else 0%float
             | None => 0%float end) = true.
Proof.
  intros Hw. destruct weather as [w|]; [|repeat split; reflexivity].
  destruct Hw as (Ft & Fh & Fw & Fp & F10 & F25).
  split; [contrib|]. split; [contrib|]. now destruct (0 <? precipitation w)%float.
Qed.

(** X9: Under the same weather a pollen type scores no lower when the
    overall score is higher or its seasonal factor larger: a type in
    season never ranks below one out of season. *)
Theorem estimatePollenTypeScore_monotone (type1 type2 : PollenType) (month : float)
    (weather : option WeatherSnapshot) (overall1 overall2 : float) :
  finite_weather weather ->
  (overall1 <=? overall2)%float = true ->
  (seasonalFactor month (seasonMonths type1)
   <=? seasonalFactor month (seasonMonths type2))%float = true ->
  (estimatePollenTypeScore type1 month weather overall1
   <=? estimatePollenTypeScore type2 month weather overall2)%float = true.
Proof.
  intros Hw Ho Hs. apply fle_leb in Ho, Hs.
  destruct (pollen_boost_finite weather Hw) as (Fwind & Fdry & Frain).
  unfold estimatePollenTypeScore. apply round_clamp_mono.
  apply sub_mono; try assumption; [|apply fle_refl; now apply finite_not_nan].
  apply add_mono; try assumption; [|apply fle_refl; now apply finite_not_nan].
  apply add_mono; try assumption; [|apply fle_refl; now apply finite_not_nan].
  apply add_mono_l; try apply season72_finite.
  - apply mul_mono; [assumption|lit|lit].
  - apply mul_mono; [assumption|lit|lit].
Qed.

(** Cedar against grass in March, on overall scores 40 and 60. *)
Lemma estimatePollenTypeScore_monotone_witness :
  (estimatePollenTypeScore
     {| id := grass; seasonMonths := [4; 5; 6; 7; 8]%float; peakMonths := [5; 6]%float |}
     3 (Some calm_day) 40
   <=? estimatePollenTypeScore
     {| id := cedar; seasonMonths := [2; 3; 4]%float; peakMonths := [2; 3]%float |}
     3 (Some calm_day) 60)%float = true.
Proof.
  apply estimatePollenTypeScore_monotone; try reflexivity.
  repeat split; reflexivity.
Defined.

(** X10: Rain never raises the score of a pollen type: with the other
    readings fixed, a snapshot with precipitation scores no higher than
    the same snapshot without. *)
Theorem estimatePollenTypeScore_rain (type : PollenType) (month : float)
    (w : WeatherSnapshot) (overall : float) :
  finite_snapshot w -> is_finite overall = true ->
  (estimatePollenTypeScore type month (Some w) overall
   <=? estimatePollenTypeScore type month (Some (without_rain w)) overall)%float = true.
Proof.
  intros Hw Fo.
  destruct (pollen_boost_finite (Some w) Hw) as (Fwind & Fdry & Frain).
  destruct Hw as (Ft & Fh & Fw & Fp & F10 & F25).
  unfold estimatePollenTypeScore. apply round_clamp_mono.
  cbn [without_rain wind humidity precipitation].
  change (0 <? 0)%float with false. cbv iota.
  apply sub_mono; [| |assumption|reflexivity].
  - apply fle_refl. apply add_not_nan; [apply add_not_nan|]; try assumption.
    apply add_not_nan_l; [apply season72_finite|].
    apply mul_not_nan; [now apply finite_not_nan|lit|lit].
  - apply fle_leb. now destruct (0 <? precipitation w)%float.
Qed.

Lemma estimatePollenTypeScore_rain_witness :
  (estimatePollenTypeScore
     {| id := cedar; seasonMonths := [2; 3; 4]%float; peakMonths := [2; 3]%float |} 3
     (Some {| temperature := 12; humidity := 50; wind := 2; precipitation := 1.5;
              pm10 := 20; pm25 := 10 |}) 40
   <=? estimatePollenTypeScore
     {| id := cedar; seasonMonths := [2; 3; 4]%float; peakMonths := [2; 3]%float |} 3
     (Some calm_day) 40)%float = true.
Proof.
  apply (estimatePollenTypeScore_rain _ 3
           {| temperature := 12; humidity := 50; wind := 2; precipitation := 1.5;
              pm10 := 20; pm25 := 10 |} 40); [|reflexivity].
  repeat split; reflexivity.
Defined.

(** ** The list of pollen types *)

Lemma typeStatus_graded (month : float) (weather : option WeatherSnapshot)
    (overall : float) (type : PollenType) :
  finite_weather weather -> is_finite overall = true ->
  graded (pscore (typeStatus month weather overall type))
         (plevel (typeStatus month weather overall type)).
Proof.
  intros Hw Ho. cbn [typeStatus pscore plevel].
  destruct (estimatePollenTypeScore_range type month weather overall Hw Ho) as (n & Hn & E).
  exists n. split; [assumption|]. rewrite E. split; [reflexivity|].
  now apply riskLevel_Number_of_Z.
Qed.

Lemma pollenTypeStatus_all (P : PollenTypeStatus -> Prop) (now : Date)
    (todayRisk : option RiskResult) (weather : option WeatherSnapshot) :
  (forall type overall, is_finite overall = true ->
     P (typeStatus (getMonth now + 1)%float weather overall type)) ->
  finite_risk todayRisk ->
  Forall P (pollenTypeStatus now todayRisk weather).
Proof.
  intros H Hr. unfold pollenTypeStatus.
  eapply Permutation_Forall; [symmetry; apply sort_perm|].
  apply Forall_forall. intros a Ha. apply in_map_iff in Ha. destruct Ha as (t & <- & _).
  apply H. now apply overall_finite.
Qed.

(** X11: For a finite snapshot (or none) and a finite overall score (or none,
    which counts as 40), [pollenTypeStatus] lists each of the five catalog
    types once, each with a score that is an integer of [0..100] and the
    level the thresholds give for that score. *)
Theorem pollenTypeStatus_graded (now : Date) (todayRisk : option RiskResult)
    (weather : option WeatherSnapshot) :
  finite_weather weather -> finite_risk todayRisk ->
  let result := pollenTypeStatus now todayRisk weather in
  Permutation (map (fun a => id (ptype a)) result) [cedar; cypress; grass; ragweed; birch] /\
  Forall (fun a => graded (pscore a) (plevel a)) result.
Proof.
  intros Hw Hr result. split.
  - unfold result, pollenTypeStatus.
    eapply Permutation_trans; [apply Permutation_map, sort_perm|]. reflexivity.
  - apply pollenTypeStatus_all; [|assumption]. intros. now apply typeStatus_graded.
Qed.

Lemma pollenTypeStatus_graded_witness :
  Forall (fun a => graded (pscore a) (plevel a)) (pollenTypeStatus march None (Some calm_day)).
Proof.
  apply (pollenTypeStatus_graded march None (Some calm_day)).
  - repeat split; reflexivity.
  - exact I.
Defined.

(** ** Pollen types to watch *)

Lemma pollenTypeStatus_key_sorted (now : Date) (todayRisk : option RiskResult)
    (weather : option WeatherSnapshot) :
  finite_weather weather -> finite_risk todayRisk ->
  StronglySorted (fun a b => scaled (pscore b) <= scaled (pscore a))
    (pollenTypeStatus now todayRisk weather).
Proof.
  intros Hw Hr. unfold pollenTypeStatus.
  apply (sort_sorted (fun a b => pscore b - pscore a)%float
           (fun a => scaled (pscore a)) (fun a => is_finite (pscore a) = true)).
  - intros x y Fx Fy. now apply sub_neg_iff.
  - apply typeStatus_finite; [assumption|now apply overall_finite].
Qed.

(** In a list sorted by falling score, the entries at or above a
    threshold are an initial part. *)
Lemma filter_sorted_prefix (threshold : float) (l : list PollenTypeStatus) :
  is_nan threshold = false ->
  Forall (fun a => is_nan (pscore a) = false) l ->
  StronglySorted (fun a b => scaled (pscore b) <= scaled (pscore a)) l ->
  exists k : nat,
    filter (fun item => (threshold <=? pscore item)%float) l = firstn k l /\
    Forall (fun b => (pscore b <? threshold)%float = true) (skipn k l).
Proof.
  intros Nt Hn Hs. induction Hs as [|a l Hs IH Ha]; [exists 0%nat; split; constructor|].
  pose proof (Forall_inv Hn) as Na. pose proof (Forall_inv_tail Hn) as Nl. cbv beta in Na.
  cbn [filter]. rewrite leb_val by assumption.
  destruct (Z.leb_spec (scaled threshold) (scaled (pscore a))) as [L|L].
  - destruct (IH Nl) as (k & E & R). exists (S k). cbn [firstn skipn]. now rewrite E.
  - exists 0%nat. cbn [firstn skipn]. split.
    + clear IH. induction l as [|b l IHl]; [reflexivity|].
      cbn [filter]. pose proof (Forall_inv Ha) as Hb. cbv beta in Hb.
      rewrite leb_val by (try assumption; exact (Forall_inv Nl)).
      destruct (Z.leb_spec (scaled threshold) (scaled (pscore b))); [lia|].
      apply IHl.
      * constructor; [assumption|exact (Forall_inv_tail Nl)].
      * now inversion Hs.
      * exact (Forall_inv_tail Ha).
      * exact (Forall_inv_tail Nl).
    + constructor.
      * rewrite ltb_val by assumption. now apply Z.ltb_lt.
      * rewrite Forall_forall in Ha, Nl. apply Forall_forall. intros b Hb.
        rewrite ltb_val by (try assumption; now apply Nl). apply Z.ltb_lt.
        specialize (Ha b Hb). lia.
Qed.

Lemma sorted_firstn_skipn {A : Type} (R : A -> A -> Prop) (l : list A) (k : nat) :
  StronglySorted R l ->
  forall a b, In a (firstn k l) -> In b (skipn k l) -> R a b.
Proof.
  intros Hs. revert k. induction Hs as [|x l Hs IH Hx]; intros k a b Ha Hb.
  - rewrite firstn_nil in Ha. contradiction.
  - destruct k as [|k]; [contradiction|]. cbn [firstn skipn] in Ha, Hb.
    destruct Ha as [<-|Ha].
    + rewrite Forall_forall in Hx. apply Hx. rewrite <- (firstn_skipn k l).
      apply in_or_app. now right.
    + now apply (IH k).
Qed.

Lemma join_names_not_default (shown : list PollenTypeStatus) :
  shown <> [] -> (List.length shown <= 2)%nat ->
  join "・" (map (fun item => name (ptype item)) shown)
  <> "現時点では目立つ種類は少なめ"%string.
Proof.
  intros Hne Hlen. destruct shown as [|a [|b [|c shown]]]; cbn [List.length] in Hlen;
    try lia; [congruence| |]; cbn [map join]; unfold name.
  - destruct (id (ptype a)); discriminate.
  - destruct (id (ptype a)), (id (ptype b)); discriminate.
Qed.

(** X12: [highAttentionPollen] names at most two types.  Each scores at least
    35 (so its level is not the lowest); they are the head of the list
    sorted by falling score, so no type left out scores higher than a
    named one; with fewer than two names every type left out scores below
    35; and the text for "nothing notable" appears exactly when no type
    is named. *)
Theorem highAttention_top (now : Date) (todayRisk : option RiskResult)
    (weather : option WeatherSnapshot) :
  finite_weather weather -> finite_risk todayRisk ->
  let status := pollenTypeStatus now todayRisk weather in
  let shown := highAttention status in
  (List.length shown <= 2)%nat /\
  Forall (fun a => (35 <=? pscore a)%float = true /\ plevel a <> Low) shown /\
  (exists rest,
     status = shown ++ rest /\
     (forall a b, In a shown -> In b rest -> (pscore b <=? pscore a)%float = true) /\
     ((List.length shown < 2)%nat ->
        Forall (fun b => (pscore b <? 35)%float = true) rest)) /\
  (highAttentionPollen status = "現時点では目立つ種類は少なめ"%string <-> shown = []).
Proof.
  intros Hw Hr status shown.
  pose proof (pollenTypeStatus_key_sorted now todayRisk weather Hw Hr) as Hs.
  assert (Hfin : Forall (fun a => is_nan (pscore a) = false) status).
  { apply pollenTypeStatus_all; [|assumption]. intros type overall Fo.
    destruct (typeStatus_graded (getMonth now + 1)%float weather overall type Hw Fo)
      as (n & Hn & E & _).
    rewrite E. now apply finite_not_nan, Number_of_Z_val. }
  assert (Hlev : Forall (fun a => plevel a = riskLevel (pscore a)) status).
  { apply pollenTypeStatus_all; [|assumption]. reflexivity. }
  fold status in Hs.
  destruct (filter_sorted_prefix 35 status eq_refl Hfin Hs) as (k & Ek & Rk).
  assert (Eshown : shown = firstn (Nat.min 2 k) status).
  { unfold shown, highAttention, slice. cbn [Nat.sub skipn]. rewrite Ek.
    apply firstn_firstn. }
  assert (Hlen : (List.length shown <= 2)%nat).
  { rewrite Eshown, length_firstn. lia. }
  split; [exact Hlen|]. split; [|split].
  - apply Forall_forall. intros a Ha.
    assert (Hin : In a (filter (fun item => (35 <=? pscore item)%float) status)).
    { unfold shown, highAttention, slice in Ha. cbn [Nat.sub skipn] in Ha.
      now apply In_firstn in Ha. }
    apply filter_In in Hin. destruct Hin as [Hin H35]. split; [exact H35|].
    rewrite Forall_forall in Hlev. rewrite (Hlev a Hin). unfold riskLevel.
    rewrite H35. destruct (75 <=? pscore a)%float, (55 <=? pscore a)%float; discriminate.
  - exists (skipn (Nat.min 2 k) status). split; [|split].
    + rewrite Eshown. symmetry. apply firstn_skipn.
    + intros a b Ha Hb. rewrite Eshown in Ha.
      pose proof (sorted_firstn_skipn _ status (Nat.min 2 k) Hs a b Ha Hb) as Hab.
      cbv beta in Hab. rewrite Forall_forall in Hfin.
      rewrite leb_val.
      * now apply Z.leb_le.
      * apply Hfin. rewrite <- (firstn_skipn (Nat.min 2 k) status).
        apply in_or_app. now right.
      * apply Hfin. now apply In_firstn in Ha.
    + intros Hlt. rewrite Eshown, length_firstn in Hlt.
      destruct (Nat.le_gt_cases 2 k) as [Hk|Hk].
      * rewrite skipn_all2 by lia. constructor.
      * replace (Nat.min 2 k) with k by lia. exact Rk.
  - unfold highAttentionPollen. fold shown. rewrite length_map.
    destruct shown as [|a shown'] eqn:E; cbn [List.length Nat.ltb Nat.leb].
    + split; reflexivity.
    + split; [|discriminate]. intros Hj. exfalso. revert Hj.
      apply join_names_not_default; [discriminate|exact Hlen].
Qed.

(** A calm March day: cedar and cypress are named. *)
Lemma highAttention_top_witness :
  (List.length (highAttention (pollenTypeStatus march None (Some calm_day))) <= 2)%nat /\
  highAttentionPollen (pollenTypeStatus march None (Some calm_day)) = "スギ・ヒノキ"%string.
Proof.
  split; [|reflexivity].
  apply (highAttention_top march None (Some calm_day)).
  - repeat split; reflexivity.
  - exact I.
Defined.

(** ** The map score *)

Lemma effectiveSuitability_facts (suitability month : float) :
  is_nan suitability = false ->
  is_finite (effectiveSuitability suitability month) = true /\
  0 < scaled (effectiveSuitability suitability month) /\
  is_finite (baseline * (1 - effectiveSuitability suitability month)) = true.
Proof.
  intros Ns.
  destruct (effectiveSuitability_range suitability month Ns) as [Hlo Hhi].
  set (e := effectiveSuitability suitability month) in *.
  assert (Fe : is_finite e = true) by (apply (fle_finite 0.15 e 1); auto).
  split; [exact Fe|]. split.
  { destruct Hlo as (_ & _ & H). assert (0 < scaled 0.15) by lit. lia. }
  apply (fle_finite (baseline * (1 - 1)) _ (baseline * (1 - 0.15))); try reflexivity;
    apply mul_mono_l; try reflexivity;
    try (apply (fle_finite (1 - 1) _ (1 - 0.15)); try reflexivity);
    apply sub_mono; try assumption; try reflexivity; apply fle_refl; reflexivity.
Qed.

(** X13: For a suitability other than [NaN], a higher raw score never gives a
    lower map score. *)
Theorem adjustMapRiskScore_monotone (raw1 raw2 suitability month : float) :
  is_nan suitability = false -> (raw1 <=? raw2)%float = true ->
  (adjustMapRiskScore raw1 suitability month
   <=? adjustMapRiskScore raw2 suitability month)%float = true.
Proof.
  intros Ns H. apply fle_leb in H.
  destruct (effectiveSuitability_facts suitability month Ns) as (Fe & Pe & Fb).
  unfold adjustMapRiskScore. apply round_clamp_mono. unfold blend.
  apply add_mono; try assumption.
  - now apply mul_mono.
  - now apply fle_refl, finite_not_nan.
Qed.

(** Raw scores 40 and 85 for Naha in March. *)
Lemma adjustMapRiskScore_monotone_witness :
  (adjustMapRiskScore 40 0.22 3 <=? adjustMapRiskScore 85 0.22 3)%float = true.
Proof. apply adjustMapRiskScore_monotone; reflexivity. Defined.

(** X14: For each of the eleven cities of the map, every calendar month and
    every integer raw score of [0..100], the map score lies between the
    raw score and the baseline 14 (never beyond either); in February to
    April a city of suitability 1 keeps its raw score. *)
Theorem adjustMapRiskScore_cities (c : MapCity) (month raw : Z) :
  In c mapCities -> 1 <= month <= 12 -> 0 <= raw <= 100 ->
  let result :=
    adjustMapRiskScore (Number_of_Z raw) (pollenSuitability c) (Number_of_Z month) in
  (Number_of_Z (Z.min raw 14) <=? result)%float = true /\
  (result <=? Number_of_Z (Z.max raw 14))%float = true /\
  (pollenSuitability c = 1%float -> 2 <= month <= 4 -> result = Number_of_Z raw).
Proof.
  intros Hc Hm Hr.
  assert (T : forallb (fun c => forallb (fun month => forallb (fun r =>
    let result :=
      adjustMapRiskScore (Number_of_Z r) (pollenSuitability c) (Number_of_Z month) in
    (Number_of_Z (Z.min r 14) <=? result)%float
    && (result <=? Number_of_Z (Z.max r 14))%float
    && (negb ((pollenSuitability c =? 1)%float && (2 <=? month) && (month <=? 4))
        || Leibniz.eqb result (Number_of_Z r)))
    upto100) calendar) mapCities = true) by lit.
  pose proof (proj1 (forallb_forall _ _) T c Hc) as Tc. cbv beta in Tc.
  pose proof (calendar_forall _ Tc month Hm) as Tm. cbv beta in Tm.
  pose proof (upto100_forall _ Tm raw Hr) as P. cbv beta zeta in P.
  rewrite !andb_true_iff in P. destruct P as [[P1 P2] P3].
  cbv zeta. split; [exact P1|]. split; [exact P2|].
  intros Es Hm'. rewrite Es in P3.
  change (1 =? 1)%float with true in P3.
  replace (2 <=? month) with true in P3 by (symmetry; apply Z.leb_le; lia).
  replace (month <=? 4) with true in P3 by (symmetry; apply Z.leb_le; lia).
  cbn [andb negb orb] in P3. rewrite Es. now apply Leibniz.eqb_spec.
Qed.

(** Sapporo in August on a raw score of 60. *)
Lemma adjustMapRiskScore_cities_witness :
  (Number_of_Z 14
   <=? adjustMapRiskScore (Number_of_Z 60) 0.64 (Number_of_Z 8))%float = true /\
  (adjustMapRiskScore (Number_of_Z 60) 0.64 (Number_of_Z 8) <=? Number_of_Z 60)%float = true.
Proof.
  destruct (adjustMapRiskScore_cities
              {| city_id := "sapporo"; city_name := "札幌"; city_lat := 43.0618;
                 city_lon := 141.3545; region := "北海道"; pollenSuitability := 0.64 |}
              8 60) as (H1 & H2 & _); [simpl; auto|lia|lia|].
  split; [exact H1|exact H2].
Defined.

Lemma adjustMapRiskScore_graded (rawScore suitability month : float) :
  is_nan rawScore = false -> is_nan suitability = false ->
  graded (adjustMapRiskScore rawScore suitability month)
         (riskLevel (adjustMapRiskScore rawScore suitability month)).
Proof.
  intros Nr Ns. unfold adjustMapRiskScore.
  destruct (Math_round_clamp _ (blend_not_nan rawScore suitability month Nr Ns)) as [E B].
  eexists. split; [exact B|]. rewrite E. split; [reflexivity|].
  now apply riskLevel_Number_of_Z.
Qed.

(** ** [loadMapRisk]: the city points *)

Lemma mapCities_suitability (c : MapCity) :
  In c mapCities ->
  is_nan (pollenSuitability c) = false /\ city_id c <> EmptyString.
Proof.
  intros H.
  assert (T : forallb (fun c => negb (is_nan (pollenSuitability c))
                                && negb (String.eqb (city_id c) EmptyString)) mapCities
              = true) by lit.
  rewrite forallb_forall in T. specialize (T c H). apply andb_true_iff in T.
  destruct T as [T1 T2]. apply negb_true_iff in T1, T2. split; [exact T1|].
  now apply String.eqb_neq.
Qed.

Lemma cityRiskPoint_input_finite (answer : CityAnswer) :
  finite_input
    {| in_date := answer_date answer;
       in_temperature := parseNumber (temperature_2m (answer_current answer)) 12;
       in_humidity := parseNumber (relative_humidity_2m (answer_current answer)) 50;
       in_wind := parseNumber (wind_speed_10m (answer_current answer)) 2;
       in_precipitation := parseNumber (current_precipitation (answer_current answer)) 0;
       in_pm10 := 24; in_pm25 := 13 |}.
Proof. repeat split; try reflexivity; now apply parseNumber_finite. Qed.

Lemma cityRiskPoint_facts (c : MapCity) (answer : CityAnswer) :
  is_nan (pollenSuitability c) = false ->
  graded (city_score (cityRiskPoint c answer)) (city_level (cityRiskPoint c answer)) /\
  city (cityRiskPoint c answer) = c.
Proof.
  intros Ns. split; [|reflexivity]. cbn [cityRiskPoint city_score city_level].
  apply adjustMapRiskScore_graded; [|assumption].
  destruct (estimateRisk_integer _ (cityRiskPoint_input_finite answer)) as (n & Hn & E & _).
  rewrite E. now apply finite_not_nan, Number_of_Z_val.
Qed.

(** X15: Whatever the service answers for a city of the map (fields missing,
    [NaN] or infinite), the point stored for the city has a score that is
    an integer of [0..100], the level of the thresholds for that score,
    and four finite readings. *)
Theorem cityRiskPoint_graded (c : MapCity) (answer : CityAnswer) :
  In c mapCities ->
  let point := cityRiskPoint c answer in
  graded (city_score point) (city_level point) /\
  is_finite (city_temperature point) = true /\
  is_finite (city_humidity point) = true /\
  is_finite (city_wind point) = true /\
  is_finite (city_precipitation point) = true.
Proof.
  intros Hc point. destruct (mapCities_suitability c Hc) as [Ns _].
  split; [now apply cityRiskPoint_facts|].
  repeat split; now apply parseNumber_finite.
Qed.

(** Naha, with an answer that has no [current] object. *)
Lemma cityRiskPoint_graded_witness :
  let naha := {| city_id := "naha"; city_name := "那覇"; city_lat := 26.2125;
                 city_lon := 127.6811; region := "沖縄"; pollenSuitability := 0.22 |} in
  let point :=
    cityRiskPoint naha
      (answer_of {| temperature_2m := nan; relative_humidity_2m := nan;
                    wind_speed_10m := nan; current_precipitation := nan |}) in
  graded (city_score point) (city_level point) /\ city_temperature point = 12%float.
Proof.
  intros naha point. split; [|reflexivity].
  apply (cityRiskPoint_graded naha); simpl; auto 15.
Defined.

(** ** [loadMapRisk]: the state after a refresh *)

Lemma fulfilled_In {A B : Type} (f : A -> B -> CityRiskPoint) (o : A -> option B)
    (l : list A) (p : CityRiskPoint) :
  In p (fulfilled (map (fun c => option_map (f c) (o c)) l)) <->
  exists c a, In c l /\ o c = Some a /\ p = f c a.
Proof.
  induction l as [|c l IH]; cbn [map fulfilled].
  - split; [contradiction|]. intros (c & a & [] & _).
  - destruct (o c) as [a|] eqn:E; cbn [option_map fulfilled In]; rewrite IH; split.
    + intros [<-|(c' & a' & Hin & Ho & Ep)].
      * exists c, a. auto.
      * exists c', a'. auto.
    + intros (c' & a' & [<-|Hin] & Ho & Ep).
      * left. congruence.
      * right. exists c', a'. auto.
    + intros (c' & a' & Hin & Ho & Ep). exists c', a'. auto.
    + intros (c' & a' & [<-|Hin] & Ho & Ep); [congruence|]. exists c', a'. auto.
Qed.

Lemma fulfilled_cities (outcome : MapCity -> option CityAnswer) (l : list MapCity) :
  map city (fulfilled (map (fun c => option_map (cityRiskPoint c) (outcome c)) l))
  = filter (fun c => match outcome c with Some _ => true | None => false end) l.
Proof.
  induction l as [|c l IH]; [reflexivity|]. cbn [map filter].
  destruct (outcome c); cbn [option_map fulfilled map]; now rewrite IH.
Qed.

Lemma succeeded_perm (outcome : MapCity -> option CityAnswer) :
  Permutation (map city (succeeded outcome)) (answered outcome).
Proof.
  unfold succeeded, answered, settled. rewrite <- fulfilled_cities.
  apply Permutation_map, sort_perm.
Qed.

Lemma succeeded_graded (outcome : MapCity -> option CityAnswer) :
  Forall (fun p => graded (city_score p) (city_level p) /\ In (city p) mapCities)
    (succeeded outcome).
Proof.
  unfold succeeded. eapply Permutation_Forall; [symmetry; apply sort_perm|].
  apply Forall_forall. intros p Hp. unfold settled in Hp. apply fulfilled_In in Hp.
  destruct Hp as (c & a & Hc & _ & ->).
  destruct (mapCities_suitability c Hc) as [Ns _].
  destruct (cityRiskPoint_facts c a Ns) as [G E]. split; [exact G|]. now rewrite E.
Qed.

Lemma graded_finite (score : float) (level : RiskLevel) :
  graded score level -> is_finite score = true.
Proof. intros (n & Hn & -> & _). now apply Number_of_Z_val. Qed.

Lemma succeeded_sorted (outcome : MapCity -> option CityAnswer) :
  StronglySorted (fun a b => scaled (city_score b) <= scaled (city_score a))
    (succeeded outcome).
Proof.
  unfold succeeded.
  apply (sort_sorted (fun a b => city_score b - city_score a)%float
           (fun a => scaled (city_score a)) (fun a => is_finite (city_score a) = true)).
  - intros x y Fx Fy. now apply sub_neg_iff.
  - apply Forall_forall. intros p Hp. unfold settled in Hp. apply fulfilled_In in Hp.
    destruct Hp as (c & a & Hc & _ & ->).
    destruct (mapCities_suitability c Hc) as [Ns _].
    destruct (cityRiskPoint_facts c a Ns) as [G _]. exact (graded_finite _ _ G).
Qed.

Lemma succeeded_nil (outcome : MapCity -> option CityAnswer) :
  succeeded outcome = [] <-> answered outcome = [].
Proof.
  pose proof (succeeded_perm outcome) as P. split; intros E.
  - rewrite E in P. cbn [map] in P. now apply Permutation_nil in P.
  - rewrite E in P. apply Permutation_sym, Permutation_nil in P.
    now apply map_eq_nil in P.
Qed.

Lemma loadMapRisk_risks (outcome : MapCity -> option CityAnswer) (st : MapState) :
  answered outcome <> [] -> mapRisks (loadMapRisk outcome st) = succeeded outcome.
Proof.
  intros H. unfold loadMapRisk.
  destruct (succeeded outcome) as [|first rest] eqn:E; [|reflexivity].
  apply succeeded_nil in E. contradiction.
Qed.

Lemma fulfilled_filter (outcome : MapCity -> option CityAnswer) (v : float)
    (l : list MapCity) :
  map city (filter (fun p => (city_score p =? v)%float)
              (fulfilled (map (fun c => option_map (cityRiskPoint c) (outcome c)) l)))
  = filter (fun c => match option_map (cityRiskPoint c) (outcome c) with
                     | Some p => (city_score p =? v)%float
                     | None => false
                     end) l.
Proof.
  induction l as [|c l IH]; [reflexivity|]. cbn [map filter].
  destruct (outcome c) as [a|]; cbn [option_map fulfilled filter]; [|exact IH].
  destruct (city_score (cityRiskPoint c a) =? v)%float; cbn [map]; now rewrite IH.
Qed.

(** Cities with the same score keep the order of [mapCities]. *)
Lemma succeeded_ties (outcome : MapCity -> option CityAnswer) (v : float) :
  map city (filter (fun p => (city_score p =? v)%float) (succeeded outcome))
  = filter (fun c => match option_map (cityRiskPoint c) (outcome c) with
                     | Some p => (city_score p =? v)%float
                     | None => false
                     end) mapCities.
Proof.
  rewrite <- fulfilled_filter. f_equal. unfold succeeded. fold (settled outcome).
  apply sort_filter. intros x y Hx Hy Px Py.
  assert (Fin : forall p, In p (fulfilled (settled outcome)) -> is_finite (city_score p) = true).
  { intros p Hp. unfold settled in Hp. apply fulfilled_In in Hp.
    destruct Hp as (c & a & Hc & _ & ->).
    destruct (mapCities_suitability c Hc) as [Ns _].
    destruct (cityRiskPoint_facts c a Ns) as [G _]. exact (graded_finite _ _ G). }
  rewrite sub_neg_iff by (apply Fin; assumption).
  apply eqb_true_val in Px, Py. apply Z.ltb_ge. lia.
Qed.

(** X16: After a refresh in which at least one city answered, the map holds
    exactly the cities that answered, each once, each with an integer
    score of [0..100] and its level, in order of falling score, cities
    of equal score in the order of [mapCities]; the city shown as the
    highest is the first of them and no city scores higher. *)
Theorem loadMapRisk_sorted (outcome : MapCity -> option CityAnswer) (st : MapState) :
  answered outcome <> [] ->
  let risks := mapRisks (loadMapRisk outcome st) in
  Permutation (map city risks) (answered outcome) /\
  Forall (fun p => graded (city_score p) (city_level p)) risks /\
  StronglySorted (fun a b => (city_score b <=? city_score a)%float = true) risks /\
  (forall v : float,
     map city (filter (fun p => (city_score p =? v)%float) risks)
     = filter (fun c => match option_map (cityRiskPoint c) (outcome c) with
                        | Some p => (city_score p =? v)%float
                        | None => false
                        end) mapCities) /\
  exists top,
    mapHighestCity risks = Some top /\
    Forall (fun p => (city_score p <=? city_score top)%float = true) risks.
Proof.
  intros H risks. unfold risks. rewrite (loadMapRisk_risks outcome st H).
  pose proof (succeeded_graded outcome) as G. pose proof (succeeded_sorted outcome) as S.
  assert (F : Forall (fun p => is_nan (city_score p) = false) (succeeded outcome)).
  { eapply Forall_impl; [|exact G]. intros p [Gp _].
    now apply finite_not_nan, (graded_finite _ (city_level p)). }
  split; [apply succeeded_perm|]. split; [|split; [|split]].
  - eapply Forall_impl; [|exact G]. now intros p [Gp _].
  - clear G. induction S as [|a l S IH Ha]; constructor.
    + apply IH. exact (Forall_inv_tail F).
    + pose proof (Forall_inv F) as Fa. pose proof (Forall_inv_tail F) as Fl. cbv beta in Fa.
      rewrite Forall_forall in Ha, Fl. apply Forall_forall. intros b Hb.
      rewrite leb_val by auto. apply Z.leb_le. now apply Ha.
  - intros v. apply succeeded_ties.
  - destruct (succeeded outcome) as [|top rest] eqn:E.
    + apply succeeded_nil in E. contradiction.
    + exists top. split; [reflexivity|]. inversion S as [|? ? S' Ha]; subst.
      pose proof (Forall_inv F) as Ft. pose proof (Forall_inv_tail F) as Fl. cbv beta in Ft.
      constructor.
      * rewrite leb_val by assumption. apply Z.leb_le. lia.
      * rewrite Forall_forall in Ha, Fl. apply Forall_forall. intros b Hb.
        rewrite leb_val by auto. apply Z.leb_le. now apply Ha.
Qed.

(** Only Tokyo and Naha answer, with the same mild weather. *)
Lemma loadMapRisk_sorted_witness :
  map (fun p => city_id (city p))
    (mapRisks (loadMapRisk (only ["naha"; "tokyo"]%string mild_day) no_map))
  = ["tokyo"; "naha"]%string /\
  Forall (fun p => graded (city_score p) (city_level p))
    (mapRisks (loadMapRisk (only ["naha"; "tokyo"]%string mild_day) no_map)).
Proof.
  split; [reflexivity|].
  apply (loadMapRisk_sorted (only ["naha"; "tokyo"]%string mild_day) no_map).
  vm_compute. discriminate.
Defined.

Lemma existsb_find {A : Type} (f : A -> bool) (l : list A) :
  existsb f l = true -> exists x, find f l = Some x /\ In x l.
Proof.
  induction l as [|a l IH]; cbn [existsb find]; [discriminate|].
  destruct (f a) eqn:E; cbn [orb].
  - intros _. exists a. split; [reflexivity|now left].
  - intros H. destruct (IH H) as (x & Hx & Hin). exists x. split; [assumption|now right].
Qed.

(** X17: After a refresh in which at least one city answered, the selected
    city of the map is the previous selection if it answered again and the
    top city otherwise, and the detail panel always has a city of the map
    to show. *)
Theorem loadMapRisk_active (outcome : MapCity -> option CityAnswer) (st : MapState) :
  answered outcome <> [] ->
  let st' := loadMapRisk outcome st in
  (exists p, activeMapCity st' = Some p /\ In p (mapRisks st')) /\
  (forall prev, activeMapCityId st = Some prev ->
     In prev (map city_id (answered outcome)) -> activeMapCityId st' = Some prev) /\
  (forall prev, activeMapCityId st = Some prev ->
     ~ In prev (map city_id (answered outcome)) ->
     activeMapCityId st' = option_map (fun p => city_id (city p)) (mapHighestCity (mapRisks st'))) /\
  (activeMapCityId st = None ->
     activeMapCityId st' = option_map (fun p => city_id (city p)) (mapHighestCity (mapRisks st'))).
Proof.
  intros H st'. pose proof (succeeded_graded outcome) as G.
  pose proof (succeeded_perm outcome) as P.
  assert (Hids : forall i, In i (map city_id (answered outcome)) <->
                 existsb (fun c => String.eqb (city_id (city c)) i) (succeeded outcome) = true).
  { intros i. rewrite existsb_exists. split.
    - intros Hi. apply in_map_iff in Hi. destruct Hi as (c & <- & Hc).
      apply (Permutation_in _ (Permutation_sym P)) in Hc. apply in_map_iff in Hc.
      destruct Hc as (p & Ep & Hp). exists p. split; [assumption|].
      rewrite Ep. apply String.eqb_refl.
    - intros (p & Hp & Ep). apply String.eqb_eq in Ep. subst i.
      apply in_map_iff. exists (city p). split; [reflexivity|].
      apply (Permutation_in _ P). now apply in_map. }
  assert (Hne : forall i, In i (map city_id (answered outcome)) -> i <> EmptyString).
  { intros i Hi. apply in_map_iff in Hi. destruct Hi as (c & <- & Hc).
    unfold answered in Hc. apply filter_In in Hc. now apply mapCities_suitability. }
  unfold st', loadMapRisk, activeMapCity.
  destruct (succeeded outcome) as [|top rest] eqn:E.
  { apply succeeded_nil in E. contradiction. }
  cbn [mapRisks activeMapCityId mapHighestCity nth_error option_map].
  assert (Htop : In (city_id (city top)) (map city_id (answered outcome))).
  { apply Hids. cbn [existsb]. now rewrite String.eqb_refl. }
  split; [|split; [|split]].
  - set (chosen := match activeMapCityId st with
                   | Some prev =>
                       if negb (String.eqb prev EmptyString)
                          && existsb (fun c => String.eqb (city_id (city c)) prev) (top :: rest)
                       then prev else city_id (city top)
                   | None => city_id (city top)
                   end).
    assert (Hch : In chosen (map city_id (answered outcome))).
    { unfold chosen. destruct (activeMapCityId st) as [prev|]; [|exact Htop].
      destruct (negb _ && _) eqn:B; [|exact Htop].
      apply andb_true_iff in B. now apply Hids. }
    pose proof (Hne chosen Hch) as Hn. apply String.eqb_neq in Hn. rewrite Hn.
    apply Hids in Hch. apply existsb_find in Hch. exact Hch.
  - intros prev Ep Hin. rewrite Ep. pose proof (Hne prev Hin) as Hn.
    apply String.eqb_neq in Hn. rewrite Hn. apply Hids in Hin. now rewrite Hin.
  - intros prev Ep Hin. rewrite Ep.
    destruct (existsb _ (top :: rest)) eqn:B.
    + exfalso. apply Hin. now apply Hids.
    + now rewrite andb_false_r.
  - intros Ep. now rewrite Ep.
Qed.

(** Naha was selected; then only Tokyo answers. *)
Lemma loadMapRisk_active_witness :
  activeMapCityId
    (loadMapRisk (only ["tokyo"]%string mild_day)
       {| mapRisks := []; mapError := None; activeMapCityId := Some "naha"%string |})
  = Some "tokyo"%string.
Proof.
  destruct (loadMapRisk_active (only ["tokyo"]%string mild_day)
              {| mapRisks := []; mapError := None; activeMapCityId := Some "naha"%string |})
    as (_ & _ & H & _); [vm_compute; discriminate|].
  rewrite (H "naha"%string eq_refl); [reflexivity|].
  vm_compute. intros [E|[]]. discriminate.
Defined.

Lemma filter_length_eq {A : Type} (f : A -> bool) (l : list A) :
  List.length (filter f l) = List.length l -> filter f l = l.
Proof.
  induction l as [|a l IH]; [reflexivity|]. cbn [filter].
  pose proof (filter_length_le f l) as Hle.
  destruct (f a); cbn [List.length]; intros H.
  - f_equal. apply IH. lia.
  - lia.
Qed.

(** X18: A refresh in which no city answers keeps the cities and the
    selection the map had and reports the failure; one in which some but
    not all cities answer shows those that did, with a warning; the error
    is cleared exactly when all eleven cities answered. *)
Theorem loadMapRisk_errors (outcome : MapCity -> option CityAnswer) (st : MapState) :
  let st' := loadMapRisk outcome st in
  (answered outcome = [] ->
     mapRisks st' = mapRisks st /\ activeMapCityId st' = activeMapCityId st /\
     mapError st'
     = Some "花粉マップの取得に失敗しました。少し時間をおいて再試行してください。"%string) /\
  (answered outcome <> [] ->
     List.length (mapRisks st') = List.length (answered outcome) /\
     (answered outcome = mapCities -> mapError st' = None) /\
     (answered outcome <> mapCities ->
        mapError st'
        = Some "一部地域の取得に失敗しました。表示できた地域のみ反映しています。"%string)).
Proof.
  intros st'. pose proof (succeeded_perm outcome) as P.
  apply Permutation_length in P. rewrite length_map in P.
  unfold st', loadMapRisk. split; intros H.
  - apply succeeded_nil in H. rewrite H. repeat split.
  - destruct (succeeded outcome) as [|top rest] eqn:E.
    { apply succeeded_nil in E. contradiction. }
    cbn [mapRisks mapError]. split; [exact P|]. rewrite P. split; intros Hall.
    + rewrite Hall, Nat.ltb_irrefl. reflexivity.
    + destruct (Nat.ltb_spec (List.length (answered outcome)) (List.length mapCities))
        as [L|L]; [reflexivity|].
      exfalso. apply Hall. apply filter_length_eq.
      pose proof (filter_length_le
        (fun c => match outcome c with Some _ => true | None => false end) mapCities).
      unfold answered in L. lia.
Qed.

(** ** Map coordinates *)

Lemma mapBounds_spans :
  is_finite (lonMax mapBounds - lonMin mapBounds) = true /\
  0 < scaled (lonMax mapBounds - lonMin mapBounds) /\
  is_finite (latMax mapBounds - latMin mapBounds) = true /\
  0 < scaled (latMax mapBounds - latMin mapBounds).
Proof. repeat split; lit. Qed.

(** X26: Whatever the coordinates (any numbers but [NaN], the infinities
    included), the marker lands on the map: both percentages lie in
    [[0, 100]]. *)
Theorem geoToPercent_range (lat lon : float) :
  is_nan lat = false -> is_nan lon = false ->
  (0 <=? percent_x (geoToPercent lat lon))%float = true /\
  (percent_x (geoToPercent lat lon) <=? 100)%float = true /\
  (0 <=? percent_y (geoToPercent lat lon))%float = true /\
  (percent_y (geoToPercent lat lon) <=? 100)%float = true.
Proof.
  intros Nlat Nlon. destruct mapBounds_spans as (Fx & Px & Fy & Py).
  cbn [geoToPercent percent_x percent_y].
  assert (Nx : is_nan ((lon - lonMin mapBounds)
                       / (lonMax mapBounds - lonMin mapBounds) * 100)%float = false).
  { apply mul_not_nan; [|lit|lit]. apply div_not_nan; try assumption.
    apply sub_not_nan; [assumption|reflexivity]. }
  assert (Ny : is_nan ((latMax mapBounds - lat)
                       / (latMax mapBounds - latMin mapBounds) * 100)%float = false).
  { apply mul_not_nan; [|lit|lit]. apply div_not_nan; try assumption.
    apply sub_not_nan_l; [reflexivity|assumption]. }
  repeat split; apply fle_leb;
    first [apply clamp_ge_lo|apply clamp_le_hi]; try assumption; try reflexivity;
    vm_compute; discriminate.
Qed.

(** A point far to the north-west of the frame is drawn in its corner. *)
Lemma geoToPercent_range_witness :
  (0 <=? percent_x (geoToPercent 60 100))%float = true /\
  (percent_y (geoToPercent 60 100) <=? 100)%float = true.
Proof.
  destruct (geoToPercent_range 60 100 eq_refl eq_refl) as (H1 & _ & _ & H4).
  split; assumption.
Defined.

(** X27: The map keeps the order of places: of two places the one further
    east is never drawn further left, and the one further north never
    further down.  The corners of the frame are drawn in the corners of
    the map. *)
Theorem geoToPercent_monotone (lat1 lon1 lat2 lon2 : float) :
  is_finite lat1 = true -> is_finite lat2 = true ->
  (lat1 <=? lat2)%float = true -> (lon1 <=? lon2)%float = true ->
  (percent_x (geoToPercent lat1 lon1) <=? percent_x (geoToPercent lat2 lon2))%float = true /\
  (percent_y (geoToPercent lat2 lon2) <=? percent_y (geoToPercent lat1 lon1))%float = true /\
  geoToPercent 46 127 = {| percent_x := 0; percent_y := 0 |} /\
  geoToPercent 24 146 = {| percent_x := 100; percent_y := 100 |}.
Proof.
  intros F1 F2 Hlat Hlon. apply fle_leb in Hlat, Hlon.
  destruct mapBounds_spans as (Fx & Px & Fy & Py).
  cbn [geoToPercent percent_x percent_y].
  split; [|split; [|split; reflexivity]]; apply fle_leb, clamp_mono; try reflexivity;
    (apply mul_mono; [|lit|lit]); apply div_mono; try assumption;
    apply sub_mono; try assumption; try reflexivity; apply fle_refl; reflexivity.
Qed.

(** Sapporo lies north-east of Naha. *)
Lemma geoToPercent_monotone_witness :
  (percent_x (geoToPercent 26.2125 127.6811)
   <=? percent_x (geoToPercent 43.0618 141.3545))%float = true /\
  (percent_y (geoToPercent 43.0618 141.3545)
   <=? percent_y (geoToPercent 26.2125 127.6811))%float = true.
Proof.
  destruct (geoToPercent_monotone 26.2125 127.6811 43.0618 141.3545) as (H1 & H2 & _);
    try reflexivity.
  split; assumption.
Defined.

(** ** Means: the map average and the weekly average *)

Lemma total_bounds (lo hi : Z) (scores : list Z) :
  Forall (fun s => lo <= s <= hi) scores ->
  lo * Z.of_nat (List.length scores) <= total scores <= hi * Z.of_nat (List.length scores).
Proof.
  induction 1 as [|s scores Hs _ IH]; cbn [total fold_right List.length]; [lia|].
  fold (total scores). lia.
Qed.

(** The rounded mean lies between the least and the greatest entry. *)
Lemma half_up_mean_bounds (lo hi unit : Z) (scores : list Z) :
  scores <> [] -> 0 < unit -> Forall (fun s => lo <= s <= hi) scores ->
  unit * lo <= half_up_mean unit scores <= unit * hi.
Proof.
  intros Hne Hu H. pose proof (total_bounds lo hi scores H) as B.
  unfold half_up_mean. set (n := Z.of_nat (List.length scores)) in *.
  assert (Hn : 0 < n) by (destruct scores; [congruence|cbn [List.length] in n; lia]).
  split.
  - apply Z.div_le_lower_bound; nia.
  - assert ((2 * unit * total scores + n) / (2 * n) < unit * hi + 1); [|lia].
    apply Z.div_lt_upper_bound; nia.
Qed.

(** A running sum of whole numbers is exact. *)
Lemma fold_sum_exact {A : Type} (f : A -> float) (l : list A) (scores : list Z) (acc : Z) :
  map f l = map Number_of_Z scores -> Forall (fun s => 0 <= s) scores ->
  0 <= acc -> acc + total scores <= 1100 ->
  fold_left (fun sum x => (sum + f x)%float) l (Number_of_Z acc)
  = Number_of_Z (acc + total scores).
Proof.
  revert scores acc. induction l as [|x l IH]; intros [|s scores] acc E Hs Ha Ht;
    try discriminate; cbn [fold_left total fold_right].
  - now rewrite Z.add_0_r.
  - cbn [map] in E. injection E as Ex El. cbn [total fold_right] in Ht. fold (total scores) in *.
    pose proof (Forall_inv Hs) as Hs0. pose proof (Forall_inv_tail Hs) as Hs'. cbv beta in Hs0.
    assert (0 <= total scores).
    { pose proof (total_bounds 0 (acc + s + total scores) scores) as B.
      clear - Hs'. induction Hs'; cbn [total fold_right]; [lia|]. fold (total l). lia. }
    rewrite Ex, Number_of_Z_add by lia.
    rewrite (IH scores (acc + s)) by (assumption || lia). f_equal. lia.
Qed.

Lemma map_length_eq {A B C : Type} (f : A -> C) (g : B -> C) (l : list A) (l' : list B) :
  map f l = map g l' -> List.length l = List.length l'.
Proof. intros E. apply (f_equal (@List.length C)) in E. now rewrite !length_map in E. Qed.

(** [Math.round] of the mean of up to 11 integers with sum [t <= 1100]:
    the exact mean rounded to the nearest integer, halves upwards (checked
    on all 12111 cases). *)
Lemma mean_checked (t n : Z) :
  1 <= n <= 11 -> 0 <= t <= 1100 ->
  Math_round (Number_of_Z t / Number_of_Z n)%float = Number_of_Z ((2 * t + n) / (2 * n)).
Proof.
  intros Hn Ht. apply Leibniz.eqb_spec.
  assert (T : forallb (fun n => forallb (fun t =>
    Leibniz.eqb (Math_round (Number_of_Z t / Number_of_Z n)%float)
                (Number_of_Z ((2 * t + n) / (2 * n))))
    (range 1101)) (map Z.succ (range 11)) = true) by lit.
  pose proof (succ_range_forall 11 _ T n ltac:(lia)) as Tn. cbv beta in Tn.
  exact (range_forall 1101 _ Tn t ltac:(lia)).
Qed.

(** X19: [mapAverageScore] is [null] for an empty map.  For up to eleven
    cities with integer scores of [0..100] it is the exact mean of the
    scores rounded to the nearest integer, halves upwards: the floating
    point sum and division lose nothing.  It lies between the lowest and
    the highest score. *)
Theorem mapAverageScore_mean (mapRisks : list CityRiskPoint) (scores : list Z) (lo hi : Z) :
  map city_score mapRisks = map Number_of_Z scores ->
  Forall (fun s => 0 <= s <= 100) scores -> Forall (fun s => lo <= s <= hi) scores ->
  (List.length mapRisks <= 11)%nat ->
  mapAverageScore [] = None /\
  (mapRisks <> [] ->
     mapAverageScore mapRisks = Some (Number_of_Z (half_up_mean 1 scores)) /\
     0 <= half_up_mean 1 scores <= 100 /\ lo <= half_up_mean 1 scores <= hi).
Proof.
  intros E H100 Hlh Hlen. split; [reflexivity|]. intros Hne.
  pose proof (map_length_eq _ _ _ _ E) as El.
  assert (Hl1 : (1 <= List.length mapRisks)%nat).
  { destruct mapRisks; [congruence|cbn [List.length]; lia]. }
  assert (Hs : scores <> []) by (intros ->; cbn [List.length] in El; lia).
  pose proof (half_up_mean_bounds 0 100 1 scores Hs ltac:(lia) H100) as B.
  pose proof (half_up_mean_bounds lo hi 1 scores Hs ltac:(lia) Hlh) as B'.
  split; [|lia].
  pose proof (total_bounds 0 100 scores H100) as Bt.
  unfold mapAverageScore.
  replace (List.length mapRisks =? 0)%nat with false by (symmetry; apply Nat.eqb_neq; lia).
  f_equal. change 0%float with (Number_of_Z 0).
  rewrite (fold_sum_exact city_score mapRisks scores 0); try assumption; try lia.
  - unfold Number_of_nat. rewrite mean_checked by lia.
    unfold half_up_mean. rewrite El. reflexivity.
  - eapply Forall_impl; [|exact H100]. cbv beta. lia.
Qed.

(** Three cities scoring 81, 40 and 14: the mean 45 is shown. *)
Lemma mapAverageScore_mean_witness :
  let point (s : float) :=
    {| city := {| city_id := "tokyo"; city_name := "東京"; city_lat := 35.6764;
                  city_lon := 139.65; region := "関東"; pollenSuitability := 1 |};
       city_score := s; city_level := riskLevel s; city_temperature := 12;
       city_humidity := 50; city_wind := 2; city_precipitation := 0 |} in
  mapAverageScore [point 81%float; point 40%float; point 14%float]
  = Some (Number_of_Z 45).
Proof.
  intros point.
  apply (mapAverageScore_mean [point 81%float; point 40%float; point 14%float]
           [81; 40; 14] 14 81); try reflexivity; try discriminate;
    try (repeat constructor; lia).
Defined.

(** [toFixed(1)] of the mean of up to 7 severities with sum [s <= 70]:
    the exact mean rounded to the nearest tenth, halves upwards (checked
    on all 497 cases). *)
Lemma weekly_checked (s n : Z) :
  1 <= n <= 7 -> 0 <= s <= 70 ->
  Number_toFixed1 (Number_of_Z s / Number_of_Z n)%float
  = decimal_tenths ((20 * s + n) / (2 * n)).
Proof.
  intros Hn Hs. apply Leibniz.eqb_spec.
  assert (T : forallb (fun n => forallb (fun s =>
    Leibniz.eqb (Number_toFixed1 (Number_of_Z s / Number_of_Z n)%float)
                (decimal_tenths ((20 * s + n) / (2 * n))))
    (range 71)) (map Z.succ (range 7)) = true) by lit.
  pose proof (succ_range_forall 7 _ T n ltac:(lia)) as Tn. cbv beta in Tn.
  exact (range_forall 71 _ Tn s ltac:(lia)).
Qed.

(** X20: [weeklyAverage] is [null] for an empty log.  Otherwise it only looks
    at the seven newest entries, and for severities of the 0-10 integer
    scale it is the decimal nearest to their exact mean, halves upwards,
    as a number of tenths between 0 and 100. *)
Theorem weeklyAverage_mean (logs : list SymptomLog) (scores : list Z) :
  severities logs scores ->
  weeklyAverage [] = None /\
  (logs <> [] ->
     let week := firstn 7 scores in
     weeklyAverage logs = Some (decimal_tenths (half_up_mean 10 week)) /\
     0 <= half_up_mean 10 week <= 100).
Proof.
  intros [E H10]. split; [reflexivity|]. intros Hne week.
  pose proof (map_length_eq _ _ _ _ E) as El.
  assert (Ew : map severity (firstn 7 logs) = map Number_of_Z week).
  { unfold week. now rewrite <- !firstn_map, E. }
  assert (Hw : Forall (fun s => 0 <= s <= 10) week).
  { apply Forall_forall. intros s Hs. rewrite Forall_forall in H10. apply H10.
    now apply In_firstn in Hs. }
  assert (Hlw : (1 <= List.length week <= 7)%nat).
  { unfold week. rewrite length_firstn. destruct logs; [congruence|].
    cbn [List.length] in El. lia. }
  assert (Hwn : week <> []) by (intros Z; rewrite Z in Hlw; cbn in Hlw; lia).
  pose proof (half_up_mean_bounds 0 10 10 week Hwn ltac:(lia) Hw) as B.
  split; [|lia].
  pose proof (total_bounds 0 10 week Hw) as Bt.
  unfold weeklyAverage.
  replace (List.length logs =? 0)%nat with false
    by (symmetry; apply Nat.eqb_neq; destruct logs; [congruence|discriminate]).
  f_equal. unfold slice. cbn [Nat.sub skipn]. unfold sum_severity.
  change 0%float with (Number_of_Z 0).
  rewrite (fold_sum_exact severity (firstn 7 logs) week 0); try assumption; try lia.
  - unfold Number_of_nat. rewrite (map_length_eq _ _ _ _ Ew).
    rewrite weekly_checked by lia.
    unfold half_up_mean. reflexivity.
  - eapply Forall_impl; [|exact Hw]. cbv beta. lia.
Qed.

(** The four newest days at severity 0, 0, 0 and 1: a mean of 0.25 is
    shown as 0.3. *)
Lemma weeklyAverage_mean_witness :
  let entry (s : float) :=
    {| date := EmptyString; severity := s; tookMedicine := false; memo := EmptyString |} in
  weeklyAverage [entry 0%float; entry 0%float; entry 0%float; entry 1%float]
  = Some 0.3%float.
Proof.
  intros entry.
  apply (weeklyAverage_mean [entry 0%float; entry 0%float; entry 0%float; entry 1%float]
           [0; 0; 0; 1]); [|discriminate].
  split; [reflexivity|]. repeat constructor; lia.
Defined.

(** ** The trend line *)

(** The sign test of the trend line, on the difference [d] of two sums
    of three severities. *)
Lemma trend_sign (d : Z) :
  -30 <= d <= 30 -> (0 <? decimal_tenths (nearest_tenths d))%float = (0 <? d).
Proof.
  intros Hd. apply eqb_prop.
  pose proof (range_forall 61
    (fun k => Bool.eqb (0 <? decimal_tenths (nearest_tenths (k - 30)))%float (0 <? k - 30))
    ltac:(lit) (d + 30) ltac:(lia)) as P.
  cbv beta in P. now replace (d + 30 - 30) with d in P by lia.
Qed.

(** X21: The line "3日比較" shows ["--"] with fewer than six entries; with
    six or more (severities of the 0-10 integer scale) it reads
    "worsening" exactly when the three newest severities sum to more
    than the three before them, and "improving" otherwise, also when
    the two sums are equal. *)
Theorem trendText_sign (logs : list SymptomLog) (scores : list Z) :
  severities logs scores ->
  trendText (trend logs)
  = if (List.length logs <? 6)%nat then NoTrend
    else if total (firstn 3 (skipn 3 scores)) <? total (firstn 3 scores)
         then Worsening else Improving.
Proof.
  intros [E H10]. unfold trend.
  destruct (Nat.ltb_spec (List.length logs) 6) as [L|L]; [reflexivity|].
  destruct logs as [|e0 [|e1 [|e2 [|e3 [|e4 [|e5 rest]]]]]]; cbn [List.length] in L; try lia.
  destruct scores as [|s0 [|s1 [|s2 [|s3 [|s4 [|s5 others]]]]]]; try discriminate.
  cbn [map] in E. injection E as E0 E1 E2 E3 E4 E5 _.
  repeat match goal with
         | H : Forall _ (_ :: _) |- _ =>
             let H0 := fresh "R" in
             pose proof (Forall_inv H) as H0; apply Forall_inv_tail in H; cbv beta in H0
         end.
  cbn [slice Nat.sub skipn firstn]. unfold sum_severity. cbn [fold_left].
  rewrite E0, E1, E2, E3, E4, E5, !sum3 by assumption.
  rewrite trend_of_sums by lia. cbn [trendText total fold_right].
  rewrite trend_sign by lia. rewrite !Z.add_0_r.
  destruct (Z.ltb_spec 0 (s0 + s1 + s2 - (s3 + s4 + s5))),
    (Z.ltb_spec (s3 + (s4 + s5)) (s0 + (s1 + s2))); try reflexivity; lia.
Qed.

(** Six days at severity 4: unchanged, shown as improving. *)
Lemma trendText_sign_witness :
  trendText (trend (firstn 6 march_entries)) = Improving.
Proof.
  apply (trendText_sign (firstn 6 march_entries) [4; 4; 4; 4; 4; 4]).
  split; [reflexivity|]. repeat constructor; lia.
Defined.

(** ** The symptom log: a second submission on the same day *)

Lemma filter_firstn_filter {A : Type} (f : A -> bool) (n : nat) (l : list A) :
  filter f (firstn n (filter f l)) = firstn n (filter f l).
Proof.
  apply forallb_filter_id. apply forallb_forall. intros x Hx.
  apply In_firstn in Hx. apply filter_In in Hx. tauto.
Qed.

(** X22: Submitting again on the same day replaces today's entry: the log
    is the one a single submission of the second form would have given. *)
Theorem submitLog_resubmit (today : string) (sev1 sev2 : float) (med1 med2 : bool)
    (text1 text2 : string) (prev : list SymptomLog) :
  submitLog today sev2 med2 text2 (submitLog today sev1 med1 text1 prev)
  = submitLog today sev2 med2 text2 prev.
Proof.
  rewrite !submitLog_eq. f_equal. cbn [filter]. unfold other_date at 1. cbn [date].
  rewrite String.eqb_refl. cbn [negb].
  rewrite filter_firstn_filter. rewrite firstn_firstn. reflexivity.
Qed.

(** X28: From a log with unique dates and at most 30 entries (the empty log,
    say), any run of submissions leads to a log with unique dates and at
    most 30 entries, whose first entry is the last one submitted. *)
Theorem submitAll_invariant (items prev : list SymptomLog) :
  NoDup (map date prev) -> (List.length prev <= 30)%nat ->
  NoDup (map date (submitAll items prev)) /\
  (List.length (submitAll items prev) <= 30)%nat /\
  (forall earlier last, items = earlier ++ [last] ->
     nth_error (submitAll items prev) 0 = Some last).
Proof.
  intros Hnd Hlen. induction items as [|x items IH] using rev_ind.
  - split; [exact Hnd|]. split; [exact Hlen|].
    intros earlier last E. destruct earlier; discriminate.
  - destruct IH as (IHn & IHl & _). rewrite submitAll_snoc. split; [|split].
    + cbn [map]. constructor; [|now apply NoDup_map_sublist].
      intros Hin. apply in_map_iff in Hin. destruct Hin as (e & Ee & He).
      apply In_firstn, filter_other_date_In in He. contradiction.
    + cbn [List.length]. rewrite length_firstn. lia.
    + intros earlier last E. apply app_inj_tail in E. destruct E as [_ ->]. reflexivity.
Qed.

(** The same day submitted three times, then another day. *)
Lemma submitAll_invariant_witness :
  NoDup (map date (submitAll [march_entry 1; march_entry 1; march_entry 1; march_entry 2] [])) /\
  List.length (submitAll [march_entry 1; march_entry 1; march_entry 1; march_entry 2] [])
  = 2%nat.
Proof.
  split; [|reflexivity].
  apply (submitAll_invariant [march_entry 1; march_entry 1; march_entry 1; march_entry 2] []).
  - constructor.
  - cbn. lia.
Defined.

(** ** The checklist *)

(** X23: [completionRate] is 20 times the number of ticked actions: one of
    0, 20, 40, 60, 80 and 100, with no rounding error from the division
    by 5. *)
Theorem completionRate_steps (actions : ActionState) :
  completionRate actions = Number_of_Z (20 * doneCount actions) /\
  0 <= doneCount actions <= 5 /\
  completionRate defaultActionState = 0%float.
Proof.
  unfold completionRate, doneCount, Object_values. cbn [map].
  destruct (actions mask), (actions glasses), (actions laundryInside), (actions shower),
    (actions roomClean); repeat split; try reflexivity; cbn; lia.
Qed.

(** X24: [toggleAction] flips the action it is given and no other: the number
    of ticked actions moves by one, and toggling twice restores every
    value. *)
Theorem toggleAction_flips (key : DailyActionKey) (prev : ActionState) :
  toggleAction key prev key = negb (prev key) /\
  (forall k, k <> key -> toggleAction key prev k = prev k) /\
  (forall k, toggleAction key (toggleAction key prev) k = prev k) /\
  doneCount (toggleAction key prev) = doneCount prev + (if prev key then -1 else 1).
Proof.
  split; [|split; [|split]].
  - unfold toggleAction. now destruct key.
  - intros k Hk. unfold toggleAction. destruct k, key; try reflexivity; congruence.
  - intros k. unfold toggleAction.
    destruct k, key; cbn [DailyActionKey_eqb]; try reflexivity; apply negb_involutive.
  - unfold doneCount, Object_values, toggleAction. cbn [map].
    destruct key; cbn [DailyActionKey_eqb];
      destruct (prev mask), (prev glasses), (prev laundryInside), (prev shower),
        (prev roomClean); reflexivity.
Qed.

(** ** The location selector *)

(** X25: [selectedLocation] is never [undefined]: it is the first option with
    the selected id, and the first option of all when no option has that
    id.  After a position fix it is the fixed position, and the five
    built-in places stay selectable by their ids. *)
Theorem selectedLocation_defined (customLocation : option LocationOption)
    (selectedId : string) :
  (exists item,
     selectedLocation customLocation selectedId = Some item /\
     In item (options customLocation) /\
     (In selectedId (map loc_id (options customLocation)) -> loc_id item = selectedId) /\
     (~ In selectedId (map loc_id (options customLocation)) ->
        Some item = nth_error (options customLocation) 0)) /\
  (forall lat lon,
     selectedLocation (Some (gpsLocation lat lon)) "current-location" = Some (gpsLocation lat lon) /\
     forall place, In place defaultLocations ->
       selectedLocation (Some (gpsLocation lat lon)) (loc_id place) = Some place).
Proof.
  split.
  - unfold selectedLocation.
    destruct (find _ (options customLocation)) as [item|] eqn:E.
    + exists item. apply find_some in E. destruct E as [Hin Eid].
      apply String.eqb_eq in Eid. split; [reflexivity|]. split; [assumption|].
      split; [auto|]. intros Hn. exfalso. apply Hn. apply in_map_iff. now exists item.
    + assert (Hn : ~ In selectedId (map loc_id (options customLocation))).
      { intros Hin. apply in_map_iff in Hin. destruct Hin as (o & Eo & Ho).
        pose proof (find_none _ _ E o Ho) as Hf. cbv beta in Hf.
        rewrite Eo, String.eqb_refl in Hf. discriminate. }
      destruct customLocation as [custom|]; cbn [options nth_error defaultLocations].
      * exists custom. split; [reflexivity|]. split; [now left|]. split; [tauto|reflexivity].
      * eexists. split; [reflexivity|]. split; [now left|]. split; [|reflexivity].
        intros Hin. exfalso. now apply Hn.
  - intros lat lon. split; [reflexivity|]. intros place Hin.
    cbn [defaultLocations In] in Hin.
    decompose [or] Hin; try contradiction; subst place; reflexivity.
Qed.
